(** * website-screenshot-cli: slug allocation, URL filtering, list parsing,
      page preparation and modal-aware capture ordering

    A shallow embedding of [src/app/main.py].

    Conventions of the embedding.
    - A Python [str] is a [string]; a character is a code point below 256
      (the [ascii] type), so whitespace and case mapping are those of Python
      on the Latin-1 range.
    - Python integers are [Z] or [nat]; the registry [used : Set[str]] is a
      [gset string].
    - [urllib.parse.urlparse] (standard library, CPython 3.11 and later) is
      modelled in [Module Url]; [None] stands for its [ValueError].
    - The browser page is an environment answering each call from the
      history of calls made so far; see [Module Browser]. *)

From Stdlib Require Import ZArith NArith Ascii String List Bool Lia.
From stdpp Require Import base decidable option list gmap strings pretty.

#[local] Set Warnings "-clear-no-such-hyp".

Local Open Scope string_scope.

(** ** Text primitives of Python's [str] *)

Module Text.

Definition code (c : ascii) : N := N_of_ascii c.

Definition in_range (lo hi : N) (c : ascii) : bool :=
  (lo <=? code c)%N && (code c <=? hi)%N.

Definition is_char (d c : ascii) : bool := Ascii.eqb c d.

(** [str.isspace] on code points below 256. *)
Definition is_space (c : ascii) : bool :=
  in_range 9 13 c || in_range 28 32 c
  || (code c =? 133)%N || (code c =? 160)%N.

Definition is_ascii_lower (c : ascii) : bool := in_range 97 122 c.
Definition is_ascii_upper (c : ascii) : bool := in_range 65 90 c.
Definition is_ascii_alpha (c : ascii) : bool :=
  is_ascii_lower c || is_ascii_upper c.
Definition is_digit (c : ascii) : bool := in_range 48 57 c.

(** [str.lower] on one code point below 256: A-Z and the Latin-1 capitals
    (0xC0-0xDE without the multiplication sign 0xD7) move up by 32. *)
Definition lower_char (c : ascii) : ascii :=
  if is_ascii_upper c
     || (in_range 192 222 c && negb (code c =? 215)%N)
  then ascii_of_N (code c + 32) else c.

Fixpoint lower (s : string) : string :=
  match s with
  | "" => ""
  | String c s' => String (lower_char c) (lower s')
  end.

Fixpoint lstrip_by (p : ascii -> bool) (s : string) : string :=
  match s with
  | "" => ""
  | String c s' => if p c then lstrip_by p s' else s
  end.

Fixpoint rstrip_by (p : ascii -> bool) (s : string) : string :=
  match s with
  | "" => ""
  | String c s' =>
      match rstrip_by p s' with
      | "" => if p c then "" else String c ""
      | r => String c r
      end
  end.

Definition strip_by (p : ascii -> bool) (s : string) : string :=
  rstrip_by p (lstrip_by p s).

(** [s.strip()] *)
Definition strip (s : string) : string := strip_by is_space s.

(** [s.startswith(pre)] and [s.endswith(suf)] *)
Definition startswith (s pre : string) : bool := String.prefix pre s.

Fixpoint endswith (s suf : string) : bool :=
  if String.eqb s suf then true
  else match s with
       | "" => false
       | String _ s' => endswith s' suf
       end.

(** [s.split(d)] for a one-character separator. *)
Fixpoint split_on (d : ascii) (s : string) : list string :=
  match s with
  | "" => [""]
  | String c s' =>
      if is_char d c then "" :: split_on d s'
      else match split_on d s' with
           | h :: t => String c h :: t
           | [] => [String c ""]
           end
  end.

Fixpoint join (d : string) (l : list string) : string :=
  match l with
  | [] => ""
  | [x] => x
  | x :: l' => x +:+ d +:+ join d l'
  end.

(** The text before the first character satisfying [p], and the text from
    that character on (empty when there is none). *)
Fixpoint break (p : ascii -> bool) (s : string) : string * string :=
  match s with
  | "" => ("", "")
  | String c s' =>
      if p c then ("", s)
      else let '(a, b) := break p s' in (String c a, b)
  end.

Fixpoint all_chars (p : ascii -> bool) (s : string) : bool :=
  match s with
  | "" => true
  | String c s' => p c && all_chars p s'
  end.

Fixpoint any_char (p : ascii -> bool) (s : string) : bool :=
  match s with
  | "" => false
  | String c s' => p c || any_char p s'
  end.

Fixpoint remove_chars (p : ascii -> bool) (s : string) : string :=
  match s with
  | "" => ""
  | String c s' => if p c then remove_chars p s' else String c (remove_chars p s')
  end.

Definition tail (s : string) : string :=
  match s with "" => "" | String _ s' => s' end.

Definition is_empty (s : string) : bool :=
  match s with "" => true | _ => false end.

(** [re.sub(r"[P]+", "-", s)]: every maximal run of characters satisfying
    [p] becomes one hyphen.  [in_run] records that the previous character
    belonged to a run already replaced. *)
Fixpoint sub_runs (p : ascii -> bool) (in_run : bool) (s : string) : string :=
  match s with
  | "" => ""
  | String c s' =>
      if p c then
        if in_run then sub_runs p true s'
        else String "-"%char (sub_runs p true s')
      else String c (sub_runs p false s')
  end.

End Text.

(** ** [urllib.parse.urlparse] *)

Module Url.
Import Text.

Record ParseResult := mkParse {
  scheme : string;
  netloc : string;
  path : string;
  params : string;
  query : string;
  fragment : string
}.

(** Characters allowed in a scheme: letters, digits, [+], [-], [.]. *)
Definition scheme_char (c : ascii) : bool :=
  is_ascii_alpha c || is_digit c
  || is_char "+" c || is_char "-" c || is_char "." c.

(** [_UNSAFE_URL_BYTES_TO_REMOVE]: tab, line feed, carriage return. *)
Definition unsafe_char (c : ascii) : bool :=
  (code c =? 9)%N || (code c =? 10)%N || (code c =? 13)%N.

(** [_WHATWG_C0_CONTROL_OR_SPACE]: code points 0 to 32. *)
Definition c0_or_space (c : ascii) : bool := in_range 0 32 c.

(** [uses_params] *)
Definition uses_params : list string :=
  [""; "ftp"; "hdl"; "prospero"; "http"; "imap"; "https"; "shttp"; "rtsp";
   "rtspu"; "sip"; "sips"; "mms"; "sftp"; "tel"].

Definition mem (s : string) (l : list string) : bool :=
  existsb (String.eqb s) l.

(** The scheme and the remainder of the text after it. *)
Definition split_scheme (url : string) : string * string :=
  let '(pre, rest) := break (is_char ":") url in
  match pre, rest with
  | String c0 _, String _ after =>
      if is_ascii_alpha c0 && all_chars scheme_char pre
      then (lower pre, after) else ("", url)
  | _, _ => ("", url)
  end.

Definition netloc_delim (c : ascii) : bool :=
  is_char "/" c || is_char "?" c || is_char "#" c.

(** [_splitnetloc(url, 2)] when the text starts with two slashes. *)
Definition split_netloc (url : string) : string * string :=
  if startswith url "//" then break netloc_delim (tail (tail url))
  else ("", url).

(** [url.split(d, 1)] keeping the pieces before and after the first [d]. *)
Definition split_first (d : ascii) (s : string) : string * string :=
  let '(a, b) := break (is_char d) s in (a, tail b).

(** [_splitparams]: the first [;] of the last path segment starts the
    parameters. *)
Definition split_params (url : string) : string * string :=
  let segs := split_on "/" url in
  let '(p, q) := split_first ";" (List.last segs "") in
  if any_char (is_char ";") (List.last segs "")
  then (join "/" (removelast segs ++ [p]), q)
  else (url, "").

(** [urlparse(url)].  A host in square brackets is validated by the
    library with rules that are not modelled: every network location
    holding a bracket is answered by [None], which therefore stands for
    [ValueError] or for a bracketed host. *)
Definition urlparse (u : string) : option ParseResult :=
  let url := remove_chars unsafe_char (lstrip_by c0_or_space u) in
  let '(sch, url) := split_scheme url in
  let '(net, url) := split_netloc url in
  if any_char (fun c => is_char "[" c || is_char "]" c) net then None
  else
    let '(url, frag) := split_first "#" url in
    let '(url, qry) := split_first "?" url in
    let '(url, prm) :=
      if mem sch uses_params && any_char (is_char ";") url
      then split_params url else (url, "") in
    Some (mkParse sch net url prm qry frag).

End Url.

(** ** Filtering and slugs *)

Import Text.

Definition NON_HTML_EXTS : list string :=
  [".pdf"; ".zip"; ".tar"; ".gz"; ".tgz"; ".bz2"; ".7z"; ".rar";
   ".doc"; ".docx"; ".ppt"; ".pptx"; ".xls"; ".xlsx"; ".csv"; ".tsv";
   ".mp4"; ".mp3"; ".webm"; ".mov"; ".avi"; ".mkv";
   ".jpg"; ".jpeg"; ".png"; ".gif"; ".svg"; ".ico"; ".webp";
   ".json"; ".xml"; ".rss"; ".atom"; ".txt"; ".md"; ".yaml"; ".yml"].

(** [should_skip_url(u, include_nonhtml)]; [None] when [urlparse] raises.
    With the override set the function returns before parsing. *)
Definition should_skip_url (u : string) (include_nonhtml : bool) : option bool :=
  if include_nonhtml then Some false
  else
    match Url.urlparse u with
    | None => None
    | Some parsed =>
        if negb (Url.mem (Url.scheme parsed) ["http"; "https"]) then Some true
        else
          let path := lower (Url.path parsed) in
          Some (existsb (endswith path) NON_HTML_EXTS)
    end.

(** [re.sub(r"\.(html?|aspx|php)$", "", s, flags=re.I)] on a text without
    a trailing line feed: the one suffix that is a page extension goes. *)
Definition page_suffixes : list string := [".html"; ".htm"; ".aspx"; ".php"].

Fixpoint strip_page_suffix (s : string) : string :=
  if Url.mem (lower s) page_suffixes then ""
  else match s with
       | "" => ""
       | String c s' => String c (strip_page_suffix s')
       end.

Definition slug_char (c : ascii) : bool :=
  is_ascii_lower c || is_digit c || is_char "-" c || is_char "_" c.

Definition or_default (s d : string) : string :=
  if is_empty s then d else s.

Definition _slugify_segment (s : string) : string :=
  let s := lower (strip s) in
  let s := strip_page_suffix s in
  let s := sub_runs (fun c => negb (slug_char c)) false s in
  let s := strip_by (is_char "-") (sub_runs (is_char "-") false s) in
  or_default s "page".

(** The [while True] loop of [unique_slug_for_url]: candidates
    [base-n], [base-(n+1)], ... until one is free.  [fuel] bounds the
    number of further candidates tried; [numbered_slug_total] shows that
    [size used] is always enough. *)
Fixpoint numbered_slug (base : string) (used : gset string) (fuel n : nat)
  : option string :=
  let cand := base +:+ "-" +:+ pretty n in
  if decide (cand ∈ used) then
    match fuel with
    | O => None
    | S fuel' => numbered_slug base used fuel' (S n)
    end
  else Some cand.

Definition nonempty_segments (p : string) : list string :=
  List.filter (fun seg => negb (is_empty seg)) (split_on "/" p).

(** [parts[-2]] when there are at least two parts. *)
Definition second_last (parts : list string) : option string :=
  match rev parts with
  | _ :: p :: _ => Some p
  | _ => None
  end.

(** [base] and [parent] of [unique_slug_for_url]. *)
Definition slug_base_parent (p : Url.ParseResult) : string * string :=
  let parts := nonempty_segments (or_default (Url.path p) "/") in
  match parts with
  | [] => ("home", "")
  | _ =>
      (_slugify_segment (List.last parts ""),
       match second_last parts with
       | Some q => _slugify_segment q
       | None => ""
       end)
  end.

(** The choice of the slug once [base] and [parent] are known. *)
Definition choose_slug (base parent : string) (used : gset string)
  : option string :=
  if negb (is_empty base) && bool_decide (base ∉ used) then Some base
  else
    let cand := parent +:+ "-" +:+ base in
    if negb (is_empty parent) && bool_decide (cand ∉ used) then Some cand
    else numbered_slug base used (size used) 2.

(** [unique_slug_for_url(u, used)]: the slug and the registry after the
    call ([used.add]).  [None] when [urlparse] raises. *)
Definition unique_slug_for_url (u : string) (used : gset string)
  : option (string * gset string) :=
  match Url.urlparse u with
  | None => None
  | Some p =>
      let '(base, parent) := slug_base_parent p in
      match choose_slug base parent used with
      | Some slug => Some (slug, {[slug]} ∪ used)
      | None => None
      end
  end.

(** The slug part of the loop of [run_list]: one call per target, in
    input order, threading the registry. *)
Fixpoint allocate_slugs (urls : list string) (used : gset string)
  : option (list string * gset string) :=
  match urls with
  | [] => Some ([], used)
  | u :: rest =>
      match unique_slug_for_url u used with
      | None => None
      | Some (slug, used') =>
          match allocate_slugs rest used' with
          | None => None
          | Some (slugs, used'') => Some (slug :: slugs, used'')
          end
      end
  end.

(** The filter of [run_list]: [filtered] and [skipped]. *)
Fixpoint filter_urls (urls : list string) (include_nonhtml : bool)
  : option (list string) :=
  match urls with
  | [] => Some []
  | u :: rest =>
      match should_skip_url u include_nonhtml,
            filter_urls rest include_nonhtml with
      | Some skip, Some kept => Some (if skip then kept else u :: kept)
      | _, _ => None
      end
  end.

Definition skipped_urls (urls filtered : list string) : list string :=
  List.filter (fun u => negb (Url.mem u filtered)) urls.

(** ** Plain URL lists *)

Definition CR : ascii := ascii_of_N 13.
Definition LF : ascii := ascii_of_N 10.

(** [raw.replace("\r\n", "\n")] *)
Fixpoint replace_crlf (s : string) : string :=
  match s with
  | "" => ""
  | String c s' =>
      match s' with
      | String d s'' =>
          if is_char CR c && is_char LF d then String LF (replace_crlf s'')
          else String c (replace_crlf s')
      | "" => String c ""
      end
  end.

(** [raw.replace("\r", "\n")] *)
Fixpoint replace_cr (s : string) : string :=
  match s with
  | "" => ""
  | String c s' => String (if is_char CR c then LF else c) (replace_cr s')
  end.

(** The separator class of [re.split(r"[\s,;|]+", raw)]. *)
Definition is_separator (c : ascii) : bool :=
  is_space c || is_char "," c || is_char ";" c || is_char "|" c.

(** [re.split(r"[P]+", s)]: the pieces between maximal runs of separators,
    with an empty piece before a leading run and after a trailing one. *)
Fixpoint re_split_runs (p : ascii -> bool) (in_run : bool) (s : string)
  : list string :=
  match s with
  | "" => [""]
  | String c s' =>
      if p c then
        if in_run then re_split_runs p true s'
        else "" :: re_split_runs p true s'
      else match re_split_runs p false s' with
           | h :: t => String c h :: t
           | [] => [String c ""]
           end
  end.

Definition keep_token (t : string) : bool :=
  negb (is_empty t) && negb (startswith t "#").

(** [parse_url_list_file], from the text read from the file on. *)
Definition parse_url_list_file (raw : string) : list string :=
  let raw := replace_cr (replace_crlf raw) in
  let tokens := re_split_runs is_separator false raw in
  List.filter keep_token (List.map strip tokens).

(** The fallback of [parse_sitemap_file] for a plain list, the sibling
    reader: whole lines, a line starting with [#] dropped.
    [str.splitlines] is taken on line feeds and carriage returns. *)
Definition sitemap_plain_fallback (txt : string) : list string :=
  List.filter keep_token
    (List.map strip (split_on LF (replace_cr (replace_crlf (strip txt))))).

(** ** The browser page as an environment

    A page handle of the automation library is driven by calls; each call
    returns a value or raises.  The environment [Env] answers a call from
    the history of the calls made so far (most recent first), so a page
    may change between two evaluations of the same script.  Launching the
    browser, opening a context or a page, creating the folders and closing
    the browser are taken to succeed and leave no event. *)

Module Browser.

Inductive Viewport := Desktop | Mobile.

(** [PWError] is the automation library's error; [OtherError] any other
    [Exception] (a [TypeError] on an unexpected value, for instance). *)
Inductive Exn := PWError | OtherError.

Record Box := mkBox { box_x : Z; box_y : Z; box_width : Z; box_height : Z }.

(** Values a script evaluation hands back to Python.  Coordinates are
    taken as integers. *)
Inductive Value :=
| VNone
| VBool (b : bool)
| VNum (n : Z)
| VStr (s : string)
| VBox (b : Box).

(** The scripts the program evaluates, by the function that builds them. *)
Inductive Script :=
| ScrollTo (y : Z)                 (* window.scrollTo(0, y), text built in Python *)
| ScrollHeight                     (* document.body.scrollHeight *)
| MarkIsiReached                   (* js_mark_isi_reached *)
| MarkAllViewedAndFreeze           (* js_mark_all_viewed_and_freeze *)
| HideSelectors (selectors : string) (* js_hide_selectors *)
| ClearBannerOffsets               (* js_clear_banner_offsets *)
| DefloatScript                    (* js_defloat_script *)
| FindAnyModal                     (* js_find_any_modal_script *)
| ModalBbox                        (* js_modal_bbox_script *)
| ScrollToArg (y : Z)              (* (y) => window.scrollTo(0, y) *)
| CloseAnyModal.                   (* js_close_any_modal_script *)

Inductive Call :=
| SetDefaultTimeout (ms : Z)
| Goto (url wait_until : string)
| Evaluate (s : Script)
| WaitForTimeout (ms : Z)
| Screenshot (path : string) (full_page : bool) (clip : option Box)
| ContextClose.

Inductive Outcome := Returns (v : Value) | Raises (e : Exn).

Definition Event : Type := Viewport * Call * Outcome.
Definition History : Type := list Event.
Definition Env : Type := History -> Viewport -> Call -> Outcome.

(** What a computation yields: a value, an exception, or no answer within
    the fuel given to the scroll loop. *)
Inductive Result (A : Type) :=
| Done (a : A)
| Raised (e : Exn)
| OutOfFuel.
Arguments Done {A} a.
Arguments Raised {A} e.
Arguments OutOfFuel {A}.

Definition M (A : Type) : Type := History -> Result A * History.

Definition ret {A} (a : A) : M A := fun h => (Done a, h).
Definition raise {A} (e : Exn) : M A := fun h => (Raised e, h).
Definition out_of_fuel {A} : M A := fun h => (OutOfFuel, h).

Definition bind {A B} (m : M A) (f : A -> M B) : M B :=
  fun h =>
    match m h with
    | (Done a, h') => f a h'
    | (Raised e, h') => (Raised e, h')
    | (OutOfFuel, h') => (OutOfFuel, h')
    end.

(** [try: m except Exception: handler] *)
Definition try_except {A} (m : M A) (handler : M A) : M A :=
  fun h =>
    match m h with
    | (Raised _, h') => handler h'
    | r => r
    end.

(** [try: m except PWError: handler] *)
Definition try_except_pw {A} (m : M A) (handler : M A) : M A :=
  fun h =>
    match m h with
    | (Raised PWError, h') => handler h'
    | r => r
    end.

Definition when (b : bool) (m : M unit) : M unit :=
  if b then m else ret tt.

Declare Scope page_scope.
Delimit Scope page_scope with page.
Notation "x <- m ;; k" := (bind m (fun x => k))
  (at level 100, m at next level, right associativity) : page_scope.
Notation "m ;;; k" := (bind m (fun _ => k))
  (at level 100, right associativity) : page_scope.
Local Open Scope page_scope.

(** Python truthiness of a returned value. *)
Definition truthy (v : Value) : bool :=
  match v with
  | VNone => false
  | VBool b => b
  | VNum n => negb (n =? 0)%Z
  | VStr s => negb (is_empty s)
  | VBox _ => true
  end.

(** The value as a Python number ([bool] is a subclass of [int]). *)
Definition as_number (v : Value) : option Z :=
  match v with
  | VNum n => Some n
  | VBool b => Some (if b then 1 else 0)%Z
  | _ => None
  end.

Section Page.
Variable env : Env.

Definition call (v : Viewport) (c : Call) : M Value :=
  fun h =>
    let o := env h v c in
    (match o with Returns x => Done x | Raises e => Raised e end,
     (v, c, o) :: h).

Definition evaluate (v : Viewport) (s : Script) : M Value :=
  call v (Evaluate s).

(** The [while True] loop of [progressive_scroll]; [fuel] bounds the
    number of iterations. *)
Fixpoint scroll_loop (fuel : nat) (v : Viewport) (step pause_ms y : Z)
  : M unit :=
  match fuel with
  | O => out_of_fuel
  | S fuel' =>
      evaluate v (ScrollTo y) ;;;
      call v (WaitForTimeout pause_ms) ;;;
      new_h <- evaluate v ScrollHeight ;;
      match as_number new_h with
      | Some n =>
          if (y >=? n)%Z then ret tt
          else scroll_loop fuel' v step pause_ms (y + step)
      | None => raise OtherError
      end
  end.

Definition progressive_scroll (fuel : nat) (v : Viewport) : M unit :=
  scroll_loop fuel v 800 150 0 ;;;
  call v (WaitForTimeout 200) ;;;
  ret tt.

Definition nav_and_prepare (fuel : nat) (v : Viewport) (url wait : string)
    (insecure defloat : bool) (hide_selectors : string) (isi_reached : bool)
    (timeout_ms : Z) (settle : bool) : M unit :=
  call v (SetDefaultTimeout timeout_ms) ;;;
  try_except_pw (call v (Goto url wait))
                (call v (Goto url "domcontentloaded")) ;;;
  when settle (progressive_scroll fuel v) ;;;
  when isi_reached (evaluate v MarkIsiReached ;;; ret tt) ;;;
  when settle (evaluate v MarkAllViewedAndFreeze ;;; ret tt) ;;;
  when (negb (is_empty hide_selectors))
       (evaluate v (HideSelectors hide_selectors) ;;;
        evaluate v ClearBannerOffsets ;;; ret tt) ;;;
  when defloat
       (evaluate v DefloatScript ;;;
        evaluate v ClearBannerOffsets ;;; ret tt).

Definition try_capture_modal_only (v : Viewport) (out_path : string)
  : M (option string) :=
  has_modal <- try_except (evaluate v FindAnyModal) (ret (VBool false)) ;;
  if negb (truthy has_modal) then ret None
  else
    bbox <- evaluate v ModalBbox ;;
    if negb (truthy bbox) then ret None
    else
      match bbox with
      | VBox b =>
          evaluate v (ScrollToArg (Z.max 0 (box_y b - 20))) ;;;
          call v (WaitForTimeout 100) ;;;
          try_except
            (call v (Screenshot out_path false (Some b)) ;;;
             ret (Some out_path))
            (ret None)
      | _ => raise OtherError
      end.

Definition close_any_modal (v : Viewport) : M unit :=
  try_except (evaluate v CloseAnyModal ;;; ret tt) (ret tt) ;;;
  call v (WaitForTimeout 200) ;;;
  ret tt.

Definition take_fullpage_screenshot (v : Viewport) (path : string) : M unit :=
  call v (Screenshot path true None) ;;; ret tt.

(** [re.match(r"^https?://", url, flags=re.I)], on texts of code points
    below 256: there the flag folds A-Z only (the long s U+017F, which it
    also takes for [s], is outside these texts). *)
Definition ensure_scheme (url : string) : string :=
  if startswith (lower url) "http://" || startswith (lower url) "https://"
  then url else "https://" +:+ url.

Definition subfolder (v : Viewport) : string :=
  match v with Desktop => "desktop" | Mobile => "mobile" end.

Definition tag (v : Viewport) : string :=
  match v with Desktop => "dt" | Mobile => "mb" end.

(** [out_dir / sub / f"{base_name}_popup_{tag}.png"] and
    [out_dir / sub / f"{base_name}_{tag}.png"] *)
Definition popup_png (out_dir base_name : string) (v : Viewport) : string :=
  out_dir +:+ "/" +:+ subfolder v +:+ "/" +:+ base_name +:+ "_popup_" +:+ tag v +:+ ".png".

Definition full_png (out_dir base_name : string) (v : Viewport) : string :=
  out_dir +:+ "/" +:+ subfolder v +:+ "/" +:+ base_name +:+ "_" +:+ tag v +:+ ".png".

(** The modal block of one viewport: the images it appends. *)
Definition modal_shot (v : Viewport) (out_dir base_name : string)
    (no_modal_shot : bool) : M (list string) :=
  if negb no_modal_shot then
    r <- try_capture_modal_only v (popup_png out_dir base_name v) ;;
    match r with
    | Some _ => close_any_modal v ;;; ret [popup_png out_dir base_name v]
    | None => ret []
    end
  else ret [].

(** One viewport of [capture_single_url]: prepare, modal block, full page,
    close the context; the images appended, in order. *)
Definition capture_viewport (fuel : nat) (v : Viewport)
    (url out_dir : string) (insecure : bool) (nav_timeout_ms : Z)
    (defloat : bool) (hide_selectors : string) (isi_reached : bool)
    (base_name : string) (settle no_modal_shot : bool) : M (list string) :=
  nav_and_prepare fuel v url "load" insecure defloat hide_selectors
                  isi_reached nav_timeout_ms settle ;;;
  popup <- modal_shot v out_dir base_name no_modal_shot ;;
  take_fullpage_screenshot v (full_png out_dir base_name v) ;;;
  call v ContextClose ;;;
  ret (popup ++ [full_png out_dir base_name v])%list.

Definition capture_single_url (fuel : nat) (url out_dir : string)
    (insecure : bool) (nav_timeout_ms : Z) (defloat : bool)
    (hide_selectors : string) (isi_reached : bool) (base_name : string)
    (settle no_modal_shot : bool) : M (list string) :=
  let url := ensure_scheme url in
  dt <- capture_viewport fuel Desktop url out_dir insecure nav_timeout_ms
          defloat hide_selectors isi_reached base_name settle no_modal_shot ;;
  mb <- capture_viewport fuel Mobile url out_dir insecure nav_timeout_ms
          defloat hide_selectors isi_reached base_name settle no_modal_shot ;;
  ret (dt ++ mb)%list.

End Page.

End Browser.

(** ** The defloat script

    [js_defloat_script] runs in the page.  The document is the list of its
    elements in [querySelectorAll] order, each with its attributes and the
    inline style properties the script writes.  What the script reads from
    the rendering engine (computed style, bounding rectangle, scroll
    offsets) is an [Engine], asked on the document as it is when the read
    happens: the computed style object is live, the rectangle is taken
    once.  Lengths are whole pixels. *)

Module Defloat.

Inductive Position :=
| PosStatic | PosRelative | PosAbsolute | PosFixed | PosSticky.

Global Instance Position_eq_dec : EqDecision Position.
Proof. solve_decision. Defined.

(** An inline length: not set, [auto], or pixels. *)
Inductive Length := LenUnset | LenAuto | LenPx (n : Z).

Global Instance Length_eq_dec : EqDecision Length.
Proof. solve_decision. Defined.

Record Element := mkElement {
  node : nat;                          (* what the style sheets match *)
  attrs : gmap string string;
  style_position : option Position;    (* None: not set inline *)
  style_top : Length;
  style_left : Length;
  style_right : Length;
  style_bottom : Length;
  style_width : Length;
  style_zIndex : option Z              (* None: not set inline *)
}.

Definition Page : Type := list Element.

Record Engine := mkEngine {
  computed_position : Page -> nat -> Position;
  computed_width : Page -> nat -> option Z;    (* Some w: the text w px *)
  computed_zIndex : Page -> nat -> option Z;   (* None: auto *)
  rect_top : Page -> nat -> Z;
  rect_left : Page -> nat -> Z;
  scrollX : Page -> Z;
  scrollY : Page -> Z
}.

Definition set_attr (k v : string) (e : Element) : Element :=
  mkElement (node e) (<[k := v]> (attrs e)) (style_position e) (style_top e)
    (style_left e) (style_right e) (style_bottom e) (style_width e)
    (style_zIndex e).

Definition set_position (q : Position) (e : Element) : Element :=
  mkElement (node e) (attrs e) (Some q) (style_top e) (style_left e)
    (style_right e) (style_bottom e) (style_width e) (style_zIndex e).

Definition set_top (x : Length) (e : Element) : Element :=
  mkElement (node e) (attrs e) (style_position e) x (style_left e)
    (style_right e) (style_bottom e) (style_width e) (style_zIndex e).

Definition set_left (x : Length) (e : Element) : Element :=
  mkElement (node e) (attrs e) (style_position e) (style_top e) x
    (style_right e) (style_bottom e) (style_width e) (style_zIndex e).

Definition set_right (x : Length) (e : Element) : Element :=
  mkElement (node e) (attrs e) (style_position e) (style_top e) (style_left e)
    x (style_bottom e) (style_width e) (style_zIndex e).

Definition set_bottom (x : Length) (e : Element) : Element :=
  mkElement (node e) (attrs e) (style_position e) (style_top e) (style_left e)
    (style_right e) x (style_width e) (style_zIndex e).

Definition set_width (x : Length) (e : Element) : Element :=
  mkElement (node e) (attrs e) (style_position e) (style_top e) (style_left e)
    (style_right e) (style_bottom e) x (style_zIndex e).

Definition set_zIndex (z : Z) (e : Element) : Element :=
  mkElement (node e) (attrs e) (style_position e) (style_top e) (style_left e)
    (style_right e) (style_bottom e) (style_width e) (Some z).

(** Apply [f] to element [i] of the document. *)
Definition update (i : nat) (f : Element -> Element) (p : Page) : Page :=
  match p !! i with
  | Some e => <[i := f e]> p
  | None => p
  end.

(** [String(parseInt(cs.zIndex || '1000', 10) || 1000)] *)
Definition stacking_index (z : option Z) : Z :=
  match z with
  | Some n => if (n =? 0)%Z then 1000%Z else n
  | None => 1000%Z
  end.

Section Script.
Variable E : Engine.

(** [makeAbsolute(el)] for element [i]; [seen] is the script's [WeakSet]. *)
Definition makeAbsolute (i : nat) (st : Page * gset nat) : Page * gset nat :=
  let '(p, seen) := st in
  if decide (i ∈ seen) then (p, seen)
  else
    let top0 := rect_top E p i in
    let left0 := rect_left E p i in
    let p := update i (set_attr "data-defloated" "1") p in
    let p := update i (set_position PosAbsolute) p in
    let p := update i (set_top (LenPx (top0 + scrollY E p))) p in
    let p := update i (set_left (LenPx (left0 + scrollX E p))) p in
    let p := update i (set_right LenAuto) p in
    let p := update i (set_bottom LenAuto) p in
    let p := match computed_width E p i with
             | Some w => update i (set_width (LenPx w)) p
             | None => p
             end in
    let p := match style_zIndex <$> p !! i with
             | Some None =>
                 update i (set_zIndex (stacking_index (computed_zIndex E p i))) p
             | _ => p
             end in
    (p, {[i]} ∪ seen).

(** The body of the [forEach] for element [i]. *)
Definition visit (st : Page * gset nat) (i : nat) : Page * gset nat :=
  let st :=
    if decide (computed_position E (fst st) i = PosFixed)
    then makeAbsolute i st else st in
  if decide (computed_position E (fst st) i = PosSticky) then
    let p := update i (set_attr "data-desticky" "1") (fst st) in
    let p := update i (set_position PosStatic) p in
    let p := update i (set_top LenAuto) p in
    (p, snd st)
  else st.

(** One run of the script: a fresh [seen], every element once. *)
Definition defloat (p : Page) : Page :=
  fst (foldl visit (p, ∅) (seq 0 (length p))).

End Script.

(** A rendering engine in which a style sheet keeps every element at
    [position: fixed !important], the window is scrolled by 100, and an
    element sits where its inline [top] and [left] put it. *)
Definition px_or_zero (x : Length) : Z :=
  match x with LenPx n => n | _ => 0%Z end.

Definition important_fixed : Engine :=
  mkEngine (fun _ _ => PosFixed) (fun _ _ => None) (fun _ _ => None)
    (fun p i => from_option (fun e => px_or_zero (style_top e)) 0%Z (p !! i))
    (fun p i => from_option (fun e => px_or_zero (style_left e)) 0%Z (p !! i))
    (fun _ => 0%Z) (fun _ => 100%Z).

(** A rendering engine without such rules: the inline position, when set,
    is the computed one; otherwise the style sheet's, here [fixed] for
    node 1, [sticky] for node 2 and [static] for the rest. *)
Definition sheet_position (n : nat) : Position :=
  match n with 1 => PosFixed | 2 => PosSticky | _ => PosStatic end.

Definition plain_cascade : Engine :=
  mkEngine
    (fun p i => from_option
                  (fun e => default (sheet_position (node e)) (style_position e))
                  PosStatic (p !! i))
    (fun _ _ => Some 320%Z) (fun _ _ => None)
    (fun p i => from_option (fun e => px_or_zero (style_top e)) 0%Z (p !! i))
    (fun p i => from_option (fun e => px_or_zero (style_left e)) 0%Z (p !! i))
    (fun _ => 0%Z) (fun _ => 100%Z).

Definition blank (n : nat) : Element :=
  mkElement n ∅ None LenUnset LenUnset LenUnset LenUnset LenUnset None.

(** An inline position, once set, is the computed position: no style
    sheet rule overrides it. *)
Definition inline_position_wins (E : Engine) : Prop :=
  forall (p : Page) (i : nat) (e : Element) (q : Position),
    p !! i = Some e -> style_position e = Some q ->
    computed_position E p i = q.

(** The computed position of an element depends on that element only. *)
Definition position_local (E : Engine) : Prop :=
  forall (p p' : Page) (i : nat),
    p !! i = p' !! i -> computed_position E p i = computed_position E p' i.

(** The script leaves element [i] alone. *)
Definition settled (E : Engine) (p : Page) (i : nat) : Prop :=
  computed_position E p i <> PosFixed /\ computed_position E p i <> PosSticky.

End Defloat.

(** ** Auxiliary notions used in the statements *)

(** The candidate [f"{base}-{n}"]. *)
Definition numbered (base : string) (n : nat) : string :=
  base +:+ "-" +:+ pretty n.

(** [urlparse] accepts the text. *)
Definition parses (u : string) : Prop := is_Some (Url.urlparse u).

(** The filter as the specification words it: a URL is skipped when its
    scheme is not http or https, or, unless the override is set, when its
    lowercased path ends in a known extension. *)
Definition spec_should_skip (p : Url.ParseResult) (include_nonhtml : bool)
  : bool :=
  negb (Url.mem (Url.scheme p) ["http"; "https"])
  || (negb include_nonhtml
      && existsb (endswith (lower (Url.path p))) NON_HTML_EXTS).

Definition root_path (p : Url.ParseResult) : Prop :=
  Url.path p = "" \/ Url.path p = "/".

(** ** Reading a history of page calls *)

Import Browser.

Definition viewport_eqb (a b : Viewport) : bool :=
  match a, b with
  | Desktop, Desktop | Mobile, Mobile => true
  | _, _ => false
  end.

Definition is_done {A} (r : Result A) : bool :=
  match r with Done _ => true | _ => false end.

Definition on_viewport (v : Viewport) (ev : Event) : bool :=
  viewport_eqb (fst (fst ev)) v.

(** A region screenshot (the popup image) that succeeded on [v]. *)
Definition popup_shot_ok (v : Viewport) (ev : Event) : bool :=
  match ev with
  | (w, Screenshot _ false (Some _), Returns _) => viewport_eqb w v
  | _ => false
  end.

(** A full-page screenshot that succeeded on [v]. *)
Definition full_shot_ok (v : Viewport) (ev : Event) : bool :=
  match ev with
  | (w, Screenshot _ true None, Returns _) => viewport_eqb w v
  | _ => false
  end.

(** An evaluation of the close script on [v]. *)
Definition is_close (v : Viewport) (ev : Event) : bool :=
  match ev with
  | (w, Evaluate CloseAnyModal, _) => viewport_eqb w v
  | _ => false
  end.

(** The detection script answered that a modal is shown on [v]. *)
Definition modal_detected (v : Viewport) (ev : Event) : bool :=
  match ev with
  | (w, Evaluate FindAnyModal, Returns x) => viewport_eqb w v && truthy x
  | _ => false
  end.

(** A script evaluation that raised. *)
Definition eval_raised (ev : Event) : bool :=
  match ev with
  | (_, Evaluate _, Raises _) => true
  | _ => false
  end.

(** The scripts of the normalization steps. *)
Definition directive (s : Script) : bool :=
  match s with
  | MarkIsiReached | MarkAllViewedAndFreeze | HideSelectors _
  | ClearBannerOffsets | DefloatScript => true
  | _ => false
  end.

(** The calls [nav_and_prepare] can make. *)
Definition prep_call (c : Call) : bool :=
  match c with
  | SetDefaultTimeout _ | Goto _ _ | WaitForTimeout _ => true
  | Evaluate (ScrollTo _) | Evaluate ScrollHeight => true
  | Evaluate s => directive s
  | _ => false
  end.

Definition prep_event (v : Viewport) (ev : Event) : bool :=
  on_viewport v ev && prep_call (snd (fst ev)).

(** The calls of the scroll loop and its final pause. *)
Definition scroll_event (v : Viewport) (ev : Event) : bool :=
  on_viewport v ev &&
  match snd (fst ev) with
  | WaitForTimeout _ | Evaluate (ScrollTo _) | Evaluate ScrollHeight => true
  | _ => false
  end.

Definition has (P : Event -> bool) (t : list Event) : bool := existsb P t.

(** The positions scrolled to on [v], oldest first. *)
Definition position_of (v : Viewport) (ev : Event) : list Z :=
  match ev with
  | (w, Evaluate (ScrollTo y), _) => if viewport_eqb w v then [y] else []
  | _ => []
  end.

Definition scroll_positions (v : Viewport) (t : list Event) : list Z :=
  flat_map (position_of v) (rev t).

(** The normalization scripts evaluated on [v], oldest first. *)
Definition directive_of (v : Viewport) (ev : Event) : list Script :=
  match ev with
  | (w, Evaluate s, _) => if viewport_eqb w v && directive s then [s] else []
  | _ => []
  end.

Definition directives_run (v : Viewport) (t : list Event) : list Script :=
  flat_map (directive_of v) (rev t).

(** The normalization scripts the flags ask for, in order. *)
Definition enabled_directives (defloat : bool) (hide_selectors : string)
    (isi_reached settle : bool) : list Script :=
  (if isi_reached then [MarkIsiReached] else [])
  ++ (if settle then [MarkAllViewedAndFreeze] else [])
  ++ (if negb (is_empty hide_selectors)
      then [HideSelectors hide_selectors; ClearBannerOffsets] else [])
  ++ (if defloat then [DefloatScript; ClearBannerOffsets] else []).

(** How many times the scroll height was read on [v]. *)
Definition heights_seen (v : Viewport) (h : History) : nat :=
  length (List.filter (fun ev => match ev with
                            | (w, Evaluate ScrollHeight, _) => viewport_eqb w v
                            | _ => false
                            end) h).

(** Iterations after the first that a page of constant height [H] needs. *)
Definition steps_needed (H : Z) : nat := Z.to_nat ((H + 799) / 800).

(** No call on the page raises. *)
Definition quiet (env : Env) (v : Viewport) : Prop :=
  forall h c, exists x, env h v c = Returns x.

(** The page reports the same scroll height at every evaluation. *)
Definition constant_height (env : Env) (v : Viewport) (H : Z) : Prop :=
  forall h, env h v (Evaluate ScrollHeight) = Returns (VNum H).

(** The page reports the height [g k] at the [k]-th evaluation. *)
Definition height_sequence (env : Env) (v : Viewport) (g : nat -> Z) : Prop :=
  forall h, env h v (Evaluate ScrollHeight)
            = Returns (VNum (g (heights_seen v h))).

(** ** Example pages *)

(** A page answering the detection and bounding-box scripts as given, of
    constant height, every other call succeeding. *)
Definition scripted (find bbox : Outcome) (height : Z) : Env :=
  fun _ _ c =>
    match c with
    | Evaluate FindAnyModal => find
    | Evaluate ModalBbox => bbox
    | Evaluate ScrollHeight => Returns (VNum height)
    | _ => Returns VNone
    end.

Definition page_with_modal : Env :=
  scripted (Returns (VBool true)) (Returns (VBox (mkBox 10 200 400 300))) 1600.

Definition page_without_modal : Env :=
  scripted (Returns (VBool false)) (Returns VNone) 1600.

(** The modal is detected, then the bounding-box evaluation raises. *)
Definition page_bbox_raises : Env :=
  scripted (Returns (VBool true)) (Raises PWError) 1600.

(** The modal is detected, then the bounding-box script finds no box. *)
Definition page_bbox_null : Env :=
  scripted (Returns (VBool true)) (Returns VNone) 1600.

(** The evaluation of the ISI script raises. *)
Definition page_isi_raises : Env :=
  fun _ _ c =>
    match c with
    | Evaluate MarkIsiReached => Raises PWError
    | Evaluate ScrollHeight => Returns (VNum 1600)
    | _ => Returns VNone
    end.

(** Infinite scroll: each reading of the height is 800 more than the last. *)
Definition infinite_scroll : Env :=
  fun h v c =>
    match c with
    | Evaluate ScrollHeight =>
        Returns (VNum (1000 + 800 * Z.of_nat (heights_seen v h)))
    | _ => Returns VNone
    end.

(** The modal is detected and located, then the region screenshot raises. *)
Definition page_shot_raises : Env :=
  fun _ _ c =>
    match c with
    | Evaluate FindAnyModal => Returns (VBool true)
    | Evaluate ModalBbox => Returns (VBox (mkBox 10 200 400 300))
    | Evaluate ScrollHeight => Returns (VNum 1600)
    | Screenshot _ false _ => Raises PWError
    | _ => Returns VNone
    end.

(** The detection script itself raises. *)
Definition page_detect_raises : Env :=
  scripted (Raises PWError) (Returns VNone) 1600.

(** The images one viewport contributes, read off the events of a run. *)
Definition images_of (out_dir base_name : string) (v : Viewport)
    (t : list Event) : list string :=
  (if has (popup_shot_ok v) t then [popup_png out_dir base_name v] else [])
  ++ [full_png out_dir base_name v].

(** The bounding-box script answers [null] or a box, as its text does. *)
Definition bbox_answers (env : Env) (v : Viewport) : Prop :=
  forall h, env h v (Evaluate ModalBbox) = Returns VNone
            \/ exists b, env h v (Evaluate ModalBbox) = Returns (VBox b).

(** The evaluation of the bounding-box script raised on [v]. *)
Definition bbox_raised (v : Viewport) (ev : Event) : bool :=
  match ev with
  | (w, Evaluate ModalBbox, Raises _) => viewport_eqb w v
  | _ => false
  end.

(** The capture of a target on a page where the modal is detected and the
    bounding-box evaluation raises. *)
Definition bbox_error_run : Result (list string) * History :=
  capture_single_url page_bbox_raises 3 "https://x.com/" "out" false 60000
    false "" false "home" true false [].

(** ** Reading the calls of a preparation *)

(** The call returned. *)
Definition returned (ev : Event) : bool :=
  match ev with (_, _, Returns _) => true | _ => false end.

Definition is_goto (ev : Event) : bool :=
  match ev with (_, Goto _ _, _) => true | _ => false end.

(** A navigation that returned. *)
Definition navigated (ev : Event) : bool := is_goto ev && returned ev.

(** The first navigation attempt failing with the library's error, the
    one failure [nav_and_prepare] catches. *)
Definition retried_goto (url wait : string) (ev : Event) : bool :=
  match ev with
  | (_, Goto u w, Raises PWError) => String.eqb u url && String.eqb w wait
  | _ => false
  end.

(** The scroll height read is a number. *)
Definition height_ok (ev : Event) : bool :=
  match ev with
  | (_, Evaluate ScrollHeight, Returns x) =>
      match as_number x with Some _ => true | None => false end
  | _ => true
  end.

(** No call of the run stands in the way: each one returned, a caught
    first navigation attempt apart, and each height read is a number. *)
Definition unbroken (url wait : string) (t : list Event) : bool :=
  forallb (fun ev => (returned ev || retried_goto url wait ev) && height_ok ev)
          t.

Definition is_evaluation (ev : Event) : bool :=
  match ev with (_, Evaluate _, _) => true | _ => false end.

(** The navigations made on [v], oldest first: address, wait condition
    and outcome. *)
Definition navigation_of (v : Viewport) (ev : Event)
  : list (string * string * Outcome) :=
  match ev with
  | (w, Goto u wait, o) => if viewport_eqb w v then [(u, wait, o)] else []
  | _ => []
  end.

Definition navigations (v : Viewport) (t : list Event)
  : list (string * string * Outcome) :=
  flat_map (navigation_of v) (rev t).

(** A page that is slow to load and still growing: a navigation waiting
    for anything but [domcontentloaded] fails with the library's error,
    and the height read is 1000 the first time and 2000 from then on. *)
Definition page_slow_start : Env :=
  fun h v c =>
    match c with
    | Goto _ wait =>
        if String.eqb wait "domcontentloaded" then Returns VNone
        else Raises PWError
    | Evaluate ScrollHeight =>
        Returns (VNum (match heights_seen v h with O => 1000 | _ => 2000 end))
    | _ => Returns VNone
    end.

(** ** Further functions of the source *)

(** [slug_from_url(u)], the slug of the single-URL mode; [None] when
    [urlparse] raises.  The page suffix is removed before the text is
    stripped and lowered, and hyphens are neither collapsed nor trimmed. *)
Definition slug_from_url (u : string) : option string :=
  match Url.urlparse u with
  | None => None
  | Some p =>
      let path := Url.path p in
      let slug :=
        if is_empty path || String.eqb path "/" then "home"
        else
          let parts := nonempty_segments path in
          strip_page_suffix
            (match parts with [] => "home" | _ => List.last parts "" end) in
      let slug := or_default (lower (strip slug)) "page" in
      Some (sub_runs (fun c => negb (slug_char c)) false slug)
  end.

(** No two hyphens in a row. *)
Fixpoint no_double_hyphen (s : string) : bool :=
  match s with
  | String a (String b _ as s') =>
      negb (is_char "-" a && is_char "-" b) && no_double_hyphen s'
  | _ => true
  end.

(** The shape of a slug segment: not empty, made of lowercase letters,
    digits, hyphens and underscores, with no hyphen at either end and no
    two hyphens in a row. *)
Definition well_formed_segment (s : string) : bool :=
  negb (is_empty s) && all_chars slug_char s
  && negb (startswith s "-") && negb (endswith s "-")
  && no_double_hyphen s.

(** A text usable in a file name: not empty and made of slug characters. *)
Definition file_safe (s : string) : bool :=
  negb (is_empty s) && all_chars slug_char s.

(** The URLs the filter of [run_list] keeps and the ones it reports. *)
Definition kept_by (include_nonhtml : bool) (u : string) : bool :=
  match should_skip_url u include_nonhtml with
  | Some false => true
  | _ => false
  end.

Definition skipped_by (include_nonhtml : bool) (u : string) : bool :=
  match should_skip_url u include_nonhtml with
  | Some true => true
  | _ => false
  end.

(** The text starts with [http://] or [https://], in any letter case. *)
Definition has_web_scheme (w : string) : bool :=
  startswith (lower w) "http://" || startswith (lower w) "https://".

Definition nonempty (t : string) : bool := negb (is_empty t).

(** The non-empty pieces between runs of separators. *)
Definition tokens_of (s : string) : list string :=
  List.filter nonempty (re_split_runs is_separator false s).

Definition not_comment (t : string) : bool := negb (startswith t "#").

(** The scroll heights read on [v], oldest first. *)
Definition height_of (v : Viewport) (ev : Event) : list Z :=
  match ev with
  | (w, Evaluate ScrollHeight, Returns x) =>
      if viewport_eqb w v
      then match as_number x with Some n => [n] | None => [] end
      else []
  | _ => []
  end.

Definition heights_read (v : Viewport) (t : list Event) : list Z :=
  flat_map (height_of v) (rev t).

(** A text that can stand as one entry of a URL list: not empty, no
    separator character inside, no [#] in front. *)
Definition url_token (t : string) : bool :=
  negb (is_empty t)
  && all_chars (fun c => negb (is_separator c)) t
  && negb (startswith t "#").

(** The line boundaries of [str.splitlines] below 256: LF, VT, FF, CR,
    FS, GS, RS and NEL. *)
Definition line_boundary (c : ascii) : bool :=
  in_range 10 13 c || in_range 28 30 c || (code c =? 133)%N.

(** A text that can stand as one line of a plain list. *)
Definition plain_line (l : string) : bool :=
  negb (is_empty l)
  && String.eqb (strip l) l
  && all_chars (fun c => negb (line_boundary c)) l
  && negb (startswith l "#").

(** The close script raises; every other call succeeds. *)
Definition page_close_raises : Env :=
  fun _ _ c =>
    match c with
    | Evaluate CloseAnyModal => Raises PWError
    | Evaluate FindAnyModal => Returns (VBool true)
    | Evaluate ModalBbox => Returns (VBox (mkBox 10 200 400 300))
    | Evaluate ScrollHeight => Returns (VNum 1600)
    | _ => Returns VNone
    end.

(** The context of [v] was closed, and the call returned. *)
Definition context_closed (v : Viewport) (ev : Event) : bool :=
  match ev with
  | (w, ContextClose, Returns _) => viewport_eqb w v
  | _ => false
  end.

(** A call to close the context of [v]. *)
Definition is_context_close (v : Viewport) (ev : Event) : bool :=
  match ev with
  | (w, ContextClose, _) => viewport_eqb w v
  | _ => false
  end.

(** ** The batch loop *)

(** The loop of [run_list] over the kept URLs, from target number [k] on:
    a slug for the target, then its capture in a browser of its own
    ([envs k], with no history), the images appended in order.  A
    [ValueError] of [urlparse] is [OtherError]. *)
Fixpoint run_targets (envs : nat -> Env) (fuel k : nat)
    (targets : list string) (used : gset string) (out_dir : string)
    (insecure : bool) (nav_timeout_ms : Z) (defloat : bool)
    (hide_selectors : string) (isi_reached settle no_modal_shot : bool)
  : Result (list string) :=
  match targets with
  | [] => Done []
  | u :: rest =>
      match unique_slug_for_url u used with
      | None => Raised OtherError
      | Some (slug, used') =>
          match fst (capture_single_url (envs k) fuel u out_dir insecure
                       nav_timeout_ms defloat hide_selectors isi_reached
                       slug settle no_modal_shot []) with
          | Done imgs =>
              match run_targets envs fuel (S k) rest used' out_dir insecure
                      nav_timeout_ms defloat hide_selectors isi_reached
                      settle no_modal_shot with
              | Done more => Done (imgs ++ more)%list
              | r => r
              end
          | Raised e => Raised e
          | OutOfFuel => OutOfFuel
          end
      end
  end.

(** [run_list]: the images in order and the skipped URLs.  The progress
    lines are left out.  Of the document assembly only its refusal of an
    empty image list is kept ([RuntimeError], here [OtherError]); the
    image files the screenshots wrote are taken to exist. *)
Definition run_list (envs : nat -> Env) (fuel : nat) (urls : list string)
    (out_dir : string) (insecure : bool) (nav_timeout_ms : Z)
    (defloat : bool) (hide_selectors : string)
    (isi_reached include_nonhtml settle no_modal_shot : bool)
  : Result (list string * list string) :=
  match filter_urls urls include_nonhtml with
  | None => Raised OtherError
  | Some filtered =>
      match run_targets envs fuel 0 filtered ∅ out_dir insecure
              nav_timeout_ms defloat hide_selectors isi_reached settle
              no_modal_shot with
      | Done [] => Raised OtherError
      | Done imgs => Done (imgs, skipped_urls urls filtered)
      | Raised e => Raised e
      | OutOfFuel => OutOfFuel
      end
  end.

(** The two full-page images of a slug. *)
Definition full_pages (out_dir slug : string) : list string :=
  [full_png out_dir slug Desktop; full_png out_dir slug Mobile].

(** * The modal scripts *)

(** [js_find_any_modal_script] and [js_modal_bbox_script] over a document
    given as its elements in document order.  What an element matches is
    part of the element; sizes and coordinates are integers, as in
    [Browser.Box]. *)
Module ModalScripts.
Import Browser.

(** The ten selectors, in the order of the scripts' list. *)
Inductive Selector :=
| SectionModalOpenModal     (* section.modal.open-modal *)
| SectionModalOpen          (* section.modal.open *)
| ModalOpenModal            (* .modal.open-modal *)
| ModalIsOpen               (* .modal.is-open *)
| ModalOpenAttribute        (* .modal[open] *)
| DialogAriaModal           (* [role=dialog][aria-modal=true] *)
| ReactModalAfterOpen       (* .ReactModal__Content--after-open *)
| CModalIsActive            (* .c-modal.is-active *)
| LightboxOpen              (* .lightbox.open *)
| OverlayAriaModal.         (* .overlay[aria-modal=true] *)

Definition selectors : list Selector :=
  [SectionModalOpenModal; SectionModalOpen; ModalOpenModal; ModalIsOpen;
   ModalOpenAttribute; DialogAriaModal; ReactModalAfterOpen; CModalIsActive;
   LightboxOpen; OverlayAriaModal].

(** An element as the two scripts see it: the selectors it matches, three
    facts of its computed style and its bounding rectangle. *)
Record Node := mkNode {
  matches : Selector -> bool;
  display_none : bool;        (* style.display === 'none' *)
  visibility_hidden : bool;   (* style.visibility === 'hidden' *)
  opacity_zero : bool;        (* +style.opacity === 0 *)
  rect : Box                  (* getBoundingClientRect() *)
}.

Definition Document : Type := list Node.

(** [isVisible] of the detection script. *)
Definition isVisible (el : Node) : bool :=
  if display_none el || visibility_hidden el || opacity_zero el then false
  else (50 <? box_width (rect el))%Z && (50 <? box_height (rect el))%Z.

(** [document.querySelector(s)]: the first match in document order. *)
Definition querySelector (s : Selector) (d : Document) : option Node :=
  List.find (fun el => matches el s) d.

(** The detection script: for each selector only its first match is
    looked at. *)
Definition find_any_modal (d : Document) : bool :=
  existsb (fun s =>
             match querySelector s d with
             | Some el => isVisible el
             | None => false
             end) selectors.

(** [document.querySelectorAll] of the joined selectors: every element
    that matches one of them, once, in document order. *)
Definition matches_any (el : Node) : bool := existsb (matches el) selectors.

Definition querySelectorAll (d : Document) : list Node :=
  List.filter matches_any d.

(** The filter of the bounding-box script. *)
Definition shown (el : Node) : bool :=
  negb (display_none el) && negb (visibility_hidden el)
  && negb (opacity_zero el)
  && (50 <? box_width (rect el))%Z && (50 <? box_height (rect el))%Z.

Definition candidates (d : Document) : list Node :=
  List.filter shown (querySelectorAll d).

Definition area (el : Node) : Z :=
  (box_width (rect el) * box_height (rect el))%Z.

(** One turn of the loop over the candidates: [best] and [bestA]. *)
Definition larger (acc : Node * Z) (el : Node) : Node * Z :=
  if (snd acc <? area el)%Z then (el, area el) else acc.

Definition clamp (r : Box) : Box :=
  mkBox (Z.max 0 (box_x r)) (Z.max 0 (box_y r)) (box_width r) (box_height r).

(** The bounding-box script; [None] is its [null]. *)
Definition modal_bbox (d : Document) : option Box :=
  match candidates d with
  | [] => None
  | first :: _ =>
      Some (clamp (rect (fst (fold_left larger (candidates d) (first, 0%Z)))))
  end.

Definition bbox_value (d : Document) : Value :=
  match modal_bbox d with Some b => VBox b | None => VNone end.

(** A page whose document is [d] while the two scripts run; every other
    call is answered as [rest] answers it. *)
Definition document_page (d : Document) (rest : Env) : Env :=
  fun h v c =>
    match c with
    | Evaluate FindAnyModal => Returns (VBool (find_any_modal d))
    | Evaluate ModalBbox => Returns (bbox_value d)
    | _ => rest h v c
    end.

(** An element of class [modal is-open] and no other class or attribute. *)
Definition modal_is_open (hidden : bool) (r : Box) : Node :=
  mkNode (fun s => match s with ModalIsOpen => true | _ => false end)
         hidden false false r.

(** A hidden dialog left in the page in front of the one that is open. *)
Definition stale_dialog : Node := modal_is_open true (mkBox 0 0 600 400).
Definition open_dialog : Node := modal_is_open false (mkBox (-5) 100 600 400).

End ModalScripts.

(** * Properties *)

(** ** Slug allocation *)

Section SlugFacts.
Implicit Types (used : gset string) (base parent : string).

Lemma numbered_inj base : Inj (=) (=) (numbered base).
Proof.
  intros n m H. unfold numbered in H.
  apply (inj (String.app base)) in H.
  apply (inj (String.app "-")) in H.
  by apply (inj pretty) in H.
Qed.

(** Candidates already met form a set [X] inside the registry; with
    [fuel] further tries the loop has looked at more names than the
    registry holds. *)
Lemma numbered_slug_search base used fuel n (X : gset string) :
  X ⊆ used ->
  (forall k, n <= k -> numbered base k ∉ X) ->
  size used <= size X + fuel ->
  exists s, numbered_slug base used fuel n = Some s /\ s ∉ used.
Proof.
  revert n X. induction fuel as [|fuel IH]; intros n X HX Hfresh Hsz;
    simpl; fold (numbered base n); destruct (decide (numbered base n ∈ used)) as [Hin|Hout];
    try (by eexists).
  - exfalso.
    assert (Hsub : {[numbered base n]} ∪ X ⊆ used) by set_solver.
    apply subseteq_size in Hsub.
    rewrite size_union in Hsub by (specialize (Hfresh n); set_solver).
    rewrite size_singleton in Hsub. lia.
  - apply (IH (S n) ({[numbered base n]} ∪ X)).
    + set_solver.
    + intros k Hk Hmem. apply elem_of_union in Hmem as [Hmem|Hmem].
      * apply elem_of_singleton in Hmem. apply numbered_inj in Hmem. lia.
      * apply (Hfresh k); [lia|done].
    + rewrite size_union by (specialize (Hfresh n); set_solver).
      rewrite size_singleton. lia.
Qed.

Lemma numbered_slug_total base used n :
  exists s, numbered_slug base used (size used) n = Some s /\ s ∉ used.
Proof.
  apply (numbered_slug_search base used (size used) n ∅).
  - set_solver.
  - set_solver.
  - rewrite size_empty. lia.
Qed.

Lemma choose_slug_fresh base parent used :
  exists s, choose_slug base parent used = Some s /\ s ∉ used.
Proof.
  unfold choose_slug.
  destruct (negb (is_empty base) && bool_decide (base ∉ used)) eqn:Hb.
  - apply andb_prop in Hb as [_ Hb]. apply bool_decide_eq_true in Hb. eauto.
  - destruct (negb (is_empty parent)
              && bool_decide (parent +:+ "-" +:+ base ∉ used)) eqn:Hp.
    + apply andb_prop in Hp as [_ Hp]. apply bool_decide_eq_true in Hp. eauto.
    + apply numbered_slug_total.
Qed.

Lemma unique_slug_for_url_spec u used p :
  Url.urlparse u = Some p ->
  exists s, unique_slug_for_url u used = Some (s, {[s]} ∪ used) /\ s ∉ used.
Proof.
  intros Hp. unfold unique_slug_for_url. rewrite Hp.
  destruct (slug_base_parent p) as [base parent].
  destruct (choose_slug_fresh base parent used) as (s & -> & Hs). eauto.
Qed.

Lemma unique_slug_for_url_inv u used s used' :
  unique_slug_for_url u used = Some (s, used') ->
  (s ∉ used) /\ used' = {[s]} ∪ used.
Proof.
  unfold unique_slug_for_url. destruct (Url.urlparse u) as [p|]; [|done].
  destruct (slug_base_parent p) as [base parent].
  destruct (choose_slug_fresh base parent used) as (s0 & -> & Hs).
  intros [= <- <-]. done.
Qed.

Lemma allocate_slugs_spec urls used :
  Forall parses urls ->
  exists slugs used',
    allocate_slugs urls used = Some (slugs, used')
    /\ length slugs = length urls
    /\ NoDup slugs
    /\ (forall s, s ∈ slugs -> s ∉ used)
    /\ used' = list_to_set slugs ∪ used
    /\ size used' = size used + length urls.
Proof.
  intros Hall. revert used.
  induction Hall as [|u urls [p Hp] _ IH]; intros used; simpl.
  - exists [], used.
    repeat split; first [done | constructor | set_solver | lia].
  - destruct (unique_slug_for_url_spec u used p Hp) as (s & -> & Hs).
    destruct (IH ({[s]} ∪ used)) as (slugs & used' & -> & Hlen & Hnd & Hfr & Hu & Hsz).
    exists (s :: slugs), used'.
    split; [done|]. split; [simpl; lia|].
    split; [constructor; [|done]; intros Hin; apply Hfr in Hin; set_solver|].
    split.
    { intros x Hx. apply elem_of_cons in Hx as [->|Hx]; [done|].
      apply Hfr in Hx. set_solver. }
    split; [rewrite Hu; simpl; set_solver|].
    rewrite Hsz. rewrite size_union by set_solver.
    rewrite size_singleton. simpl. lia.
Qed.

End SlugFacts.

(** C2. In a batch run the registry never shrinks, holds exactly one slug
    per call made so far, no two calls return the same slug, and the slug
    returned depends only on the URL and on which slugs the registry holds
    at the call.  (Calls are those of [run_list] on URLs [urlparse]
    accepts; the run starts from the empty registry.) *)
Theorem slug_registry_invariants (urls : list string) (u : string)
    (used : gset string) (Hurls : Forall parses urls) (Hu : parses u) :
  (exists slugs used',
      allocate_slugs urls ∅ = Some (slugs, used')
      /\ length slugs = length urls
      /\ size used' = length urls
      /\ NoDup slugs
      /\ (forall s, s ∈ used' <-> s ∈ slugs))
  /\ (exists s used',
        unique_slug_for_url u used = Some (s, used')
        /\ (used ⊆ used') /\ (s ∉ used) /\ (s ∈ used')
        /\ size used' = S (size used))
  /\ (forall used2,
        (forall x, x ∈ used <-> x ∈ used2) ->
        unique_slug_for_url u used2 = unique_slug_for_url u used).
Proof.
  split; [|split].
  - destruct (allocate_slugs_spec urls ∅ Hurls)
      as (slugs & used' & Ha & Hlen & Hnd & _ & Hset & Hsz).
    exists slugs, used'.
    split; [done|]. split; [done|].
    split; [rewrite Hsz, size_empty; lia|]. split; [done|].
    intros s. rewrite Hset. set_solver.
  - destruct Hu as [p Hp].
    destruct (unique_slug_for_url_spec u used p Hp) as (s & Hs & Hfresh).
    exists s, ({[s]} ∪ used).
    split; [done|]. split; [set_solver|]. split; [done|].
    split; [set_solver|].
    rewrite size_union by set_solver. rewrite size_singleton. lia.
  - intros used2 Heq. assert (used2 = used) as -> by (apply set_eq; naive_solver).
    done.
Qed.

Lemma slug_registry_invariants_witness :
  (fst <$> allocate_slugs
     ["https://x.com/a/index.html"; "https://x.com/b/index.html";
      "https://x.com/b/index.html"] ∅)
  = Some ["index"; "b-index"; "index-2"]
  /\ exists s used',
      unique_slug_for_url "https://x.com/a/index.html" {["index"]}
      = Some (s, used') /\ size used' = 2.
Proof.
  destruct (slug_registry_invariants
              ["https://x.com/a/index.html"; "https://x.com/b/index.html";
               "https://x.com/b/index.html"]
              "https://x.com/a/index.html" {["index"]})
    as (_ & (s & used' & Hs & _ & _ & _ & Hsz) & _).
  - repeat constructor; vm_compute; eauto.
  - vm_compute; eauto.
  - split; [by vm_compute|].
    exists s, used'. split; [exact Hs|]. rewrite Hsz, size_singleton. done.
Defined.

Lemma root_path_home (p : Url.ParseResult) :
  root_path p -> slug_base_parent p = ("home", "").
Proof. by intros [H|H]; unfold slug_base_parent; rewrite H. Qed.

Lemma first_root_slug (u : string) (p : Url.ParseResult) :
  Url.urlparse u = Some p -> root_path p ->
  unique_slug_for_url u ∅ = Some ("home", {["home"]} ∪ ∅).
Proof.
  intros Hp Hr. unfold unique_slug_for_url.
  rewrite Hp, (root_path_home p Hr). reflexivity.
Qed.

Lemma second_root_slug (u : string) (p : Url.ParseResult) :
  Url.urlparse u = Some p -> root_path p ->
  fst <$> unique_slug_for_url u ({["home"]} ∪ ∅) = Some "home-2".
Proof.
  intros Hp Hr. unfold unique_slug_for_url.
  rewrite Hp, (root_path_home p Hr). reflexivity.
Qed.

(** C3, as the code has it.  From an empty registry: the two blog posts
    get [post-one] and [post-two]; [/products/index] then
    [/services/index] get [index] then [services-index], the second URL
    being qualified by its own parent; a URL with an empty or root path
    gets [home], and a second such URL in the same run [home-2]. *)
Theorem slug_examples (u1 u2 : string) (p1 p2 : Url.ParseResult)
    (H1 : Url.urlparse u1 = Some p1) (H2 : Url.urlparse u2 = Some p2)
    (R1 : root_path p1) (R2 : root_path p2) :
  fst <$> allocate_slugs ["/blog/post-one"; "/blog/post-two"] ∅
    = Some ["post-one"; "post-two"]
  /\ fst <$> allocate_slugs ["/products/index"; "/services/index"] ∅
    = Some ["index"; "services-index"]
  /\ fst <$> allocate_slugs
       ["https://x.com/products/index"; "https://x.com/services/index"] ∅
    = Some ["index"; "services-index"]
  /\ fst <$> allocate_slugs [u1; u2] ∅ = Some ["home"; "home-2"].
Proof.
  split; [by vm_compute|]. split; [by vm_compute|]. split; [by vm_compute|].
  simpl. rewrite (first_root_slug u1 p1 H1 R1).
  pose proof (second_root_slug u2 p2 H2 R2) as Hs.
  destruct (unique_slug_for_url u2 ({["home"]} ∪ ∅)) as [[s used']|];
    simpl in Hs; [|done].
  injection Hs as ->. reflexivity.
Qed.

Lemma slug_examples_witness :
  fst <$> allocate_slugs ["https://x.com/"; "https://y.org"] ∅
  = Some ["home"; "home-2"].
Proof.
  refine (proj2 (proj2 (proj2
    (slug_examples "https://x.com/" "https://y.org"
       (Url.mkParse "https" "x.com" "/" "" "" "")
       (Url.mkParse "https" "y.org" "" "" "" "") _ _ _ _)))).
  - reflexivity.
  - reflexivity.
  - right. reflexivity.
  - left. reflexivity.
Defined.

(** C3 as stated fails: the second [index] URL is not given the first
    URL's parent. *)
Lemma slug_examples_counterexample :
  fst <$> allocate_slugs ["/products/index"; "/services/index"] ∅
  <> Some ["index"; "products-index"].
Proof. by vm_compute. Qed.

(** ** URL filtering *)

(** C6, as the code has it.  With the override unset a URL is skipped
    exactly when its scheme is not http or https or its lowercased path
    ends in a known extension; with the override set nothing is skipped,
    whatever the scheme.  The batch of the three example URLs keeps
    exactly the page and skips the other two. *)
Theorem should_skip_url_spec (u : string) (p : Url.ParseResult)
    (Hp : Url.urlparse u = Some p) :
  should_skip_url u false = Some (spec_should_skip p false)
  /\ should_skip_url u true = Some false
  /\ filter_urls
       ["https://x.com/report.pdf"; "https://x.com/page"; "ftp://x.com/file"]
       false = Some ["https://x.com/page"]
  /\ skipped_urls
       ["https://x.com/report.pdf"; "https://x.com/page"; "ftp://x.com/file"]
       ["https://x.com/page"]
     = ["https://x.com/report.pdf"; "ftp://x.com/file"].
Proof.
  split.
  { unfold should_skip_url, spec_should_skip. rewrite Hp.
    by destruct (negb (Url.mem (Url.scheme p) ["http"; "https"])). }
  split; [reflexivity|].
  split; vm_compute; reflexivity.
Qed.

Lemma should_skip_url_spec_witness :
  should_skip_url "https://x.com/Report.PDF" false = Some true.
Proof.
  exact (proj1 (should_skip_url_spec "https://x.com/Report.PDF"
                  (Url.mkParse "https" "x.com" "/Report.PDF" "" "" "")
                  eq_refl)).
Defined.

(** C6 as stated fails: with the override set, a URL whose scheme is not
    http or https is kept. *)
Lemma should_skip_url_counterexample :
  Url.urlparse "ftp://x.com/file"
    = Some (Url.mkParse "ftp" "x.com" "/file" "" "" "")
  /\ spec_should_skip (Url.mkParse "ftp" "x.com" "/file" "" "" "") true = true
  /\ should_skip_url "ftp://x.com/file" true = Some false.
Proof. by vm_compute. Qed.

(** ** Plain URL lists *)

(** C8 at a list whose first line is a comment of several words: the
    words of the comment come out as entries, while the sibling reader of
    [parse_sitemap_file] drops the line. *)
Theorem parse_url_list_file_comment_words :
  parse_url_list_file
    ("# my list" +:+ String LF ("https://a.com" +:+ String LF ""))
  = ["my"; "list"; "https://a.com"]
  /\ sitemap_plain_fallback
       ("# my list" +:+ String LF ("https://a.com" +:+ String LF ""))
     = ["https://a.com"].
Proof. by vm_compute. Qed.

(** ** The page monad *)

Section PageFacts.
Variable env : Env.

Lemma call_returns v c h x :
  env h v c = Returns x -> call env v c h = (Done x, (v, c, Returns x) :: h).
Proof. intros H. unfold call. by rewrite H. Qed.

Lemma call_raises v c h e :
  env h v c = Raises e -> call env v c h = (Raised e, (v, c, Raises e) :: h).
Proof. intros H. unfold call. by rewrite H. Qed.

Lemma bind_done {A B} (m : M A) (f : A -> M B) h a h' :
  m h = (Done a, h') -> bind m f h = f a h'.
Proof. intros H. unfold bind. by rewrite H. Qed.

Lemma bind_not_done {A B} (m : M A) (f : A -> M B) h :
  is_done (fst (m h)) = false ->
  is_done (fst (bind m f h)) = false /\ snd (bind m f h) = snd (m h).
Proof. unfold bind. by destruct (m h) as [[a|e|] h']. Qed.

Lemma bind_inv {A B} (m : M A) (f : A -> M B) h b h' :
  bind m f h = (Done b, h') ->
  exists a h1, m h = (Done a, h1) /\ f a h1 = (Done b, h').
Proof. unfold bind. destruct (m h) as [[a|e|] h1]; intros H; by eauto. Qed.

(** [traced Pa Pd m]: every event [m] adds satisfies [Pa], and [Pd] too
    when [m] completes. *)
Definition traced {A} (Pa Pd : Event -> Prop) (m : M A) : Prop :=
  forall h, exists t,
    snd (m h) = (t ++ h)%list /\ Forall Pa t
    /\ (is_done (fst (m h)) = true -> Forall Pd t).

Lemma traced_ret {A} Pa Pd (a : A) : traced Pa Pd (ret a).
Proof. intros h. exists []. by repeat split. Qed.

Lemma traced_raise {A} Pa Pd e : traced Pa Pd (@raise A e).
Proof. intros h. exists []. by repeat split. Qed.

Lemma traced_out_of_fuel {A} Pa Pd : traced Pa Pd (@out_of_fuel A).
Proof. intros h. exists []. by repeat split. Qed.

Lemma traced_call Pa Pd v c :
  (forall o, Pa (v, c, o)) -> (forall x, Pd (v, c, Returns x)) ->
  traced Pa Pd (call env v c).
Proof.
  intros Ha Hd h. exists [(v, c, env h v c)]. unfold call. simpl.
  split; [done|]. split; [by constructor|].
  destruct (env h v c); [|done]. intros _. by constructor.
Qed.

Lemma traced_bind {A B} Pa Pd (m : M A) (f : A -> M B) :
  traced Pa Pd m -> (forall a, traced Pa Pd (f a)) -> traced Pa Pd (bind m f).
Proof.
  intros Hm Hf h. destruct (Hm h) as (t1 & Hh1 & Ha1 & Hd1).
  unfold bind. destruct (m h) as [[a|e|] h1]; simpl in *; subst h1;
    try (exists t1; by repeat split).
  destruct (Hf a (t1 ++ h)%list) as (t2 & Hh2 & Ha2 & Hd2).
  exists (t2 ++ t1)%list. rewrite Hh2, app_assoc.
  split; [done|]. split; [by apply Forall_app|].
  intros Hdone. apply Forall_app. split; [by apply Hd2|by apply Hd1].
Qed.

Lemma traced_try_except_pw {A} Pa Pd (m handler : M A) :
  traced (fun ev => Pa ev /\ Pd ev) Pd m -> traced Pa Pd handler ->
  traced Pa Pd (try_except_pw m handler).
Proof.
  intros Hm Hk h. destruct (Hm h) as (t1 & Hh1 & Ha1 & Hd1).
  assert (Hpa : Forall Pa t1) by (eapply Forall_impl; [exact Ha1|]; by intros ? []).
  assert (Hpd : Forall Pd t1) by (eapply Forall_impl; [exact Ha1|]; by intros ? []).
  unfold try_except_pw. destruct (m h) as [[a|[]|] h1]; simpl in *; subst h1;
    try (exists t1; by repeat split).
  destruct (Hk (t1 ++ h)%list) as (t2 & Hh2 & Ha2 & Hd2).
  exists (t2 ++ t1)%list. rewrite Hh2, app_assoc.
  split; [done|]. split; [by apply Forall_app|].
  intros Hdone. apply Forall_app. split; [by apply Hd2|done].
Qed.

Lemma traced_when Pa Pd b (m : M unit) :
  traced Pa Pd m -> traced Pa Pd (when b m).
Proof. destruct b; [done|]. intros _. apply traced_ret. Qed.

End PageFacts.

(** ** The settle scroll *)

Section Prepare.
Variable env : Env.
Variable v : Viewport.

Lemma viewport_eqb_refl w : viewport_eqb w w = true.
Proof. by destruct w. Qed.

(** Events of preparation: always on the page and among its calls; when
    preparation completes, none of them is an evaluation that raised. *)
Definition prep_always (ev : Event) : Prop := prep_event v ev = true.
Definition prep_done (ev : Event) : Prop := eval_raised ev = false.

Lemma traced_prep_call c :
  prep_call c = true ->
  traced prep_always prep_done (call env v c).
Proof.
  intros Hc. apply traced_call.
  - intros o. unfold prep_always, prep_event, on_viewport. simpl.
    by rewrite viewport_eqb_refl, Hc.
  - intros x. unfold prep_done. by destruct c.
Qed.

Lemma traced_scroll_loop fuel step pause_ms y :
  traced prep_always prep_done (scroll_loop env fuel v step pause_ms y).
Proof.
  revert y. induction fuel as [|fuel IH]; intros y; simpl.
  - apply traced_out_of_fuel.
  - apply traced_bind; [by apply traced_prep_call|intros _].
    apply traced_bind; [by apply traced_prep_call|intros _].
    apply traced_bind; [by apply traced_prep_call|intros new_h].
    destruct (as_number new_h) as [n|]; [|apply traced_raise].
    destruct (y >=? n)%Z; [apply traced_ret|apply IH].
Qed.

Lemma traced_goto url wait :
  traced prep_always prep_done
    (try_except_pw (call env v (Goto url wait))
                   (call env v (Goto url "domcontentloaded"))).
Proof.
  apply traced_try_except_pw; [|by apply traced_prep_call].
  apply traced_call.
  - intros o. split; [|done]. unfold prep_always, prep_event, on_viewport.
    simpl. by rewrite viewport_eqb_refl.
  - done.
Qed.

Lemma traced_nav_and_prepare fuel url wait insecure defloat hide_selectors
    isi_reached timeout_ms settle :
  traced prep_always prep_done
    (nav_and_prepare env fuel v url wait insecure defloat hide_selectors
       isi_reached timeout_ms settle).
Proof.
  unfold nav_and_prepare, progressive_scroll, evaluate.
  repeat first
    [ apply traced_ret
    | apply traced_when
    | apply traced_goto
    | apply traced_scroll_loop
    | apply traced_prep_call; reflexivity
    | apply traced_bind; [|intros ?] ].
Qed.

(** The loop on a page of constant height: [m] more iterations after the
    one at position [800 * j]. *)
Lemma scroll_loop_constant (H : Z) (m j : nat) (h : History) :
  quiet env v -> constant_height env v H ->
  (H <= 800 * Z.of_nat (j + m))%Z ->
  (forall k, k < j + m -> (800 * Z.of_nat k < H)%Z) ->
  exists t,
    (forall fuel, m < fuel ->
       scroll_loop env fuel v 800 150 (800 * Z.of_nat j) h
       = (Done tt, (t ++ h)%list))
    /\ scroll_positions v t
       = List.map (fun k => 800 * Z.of_nat k)%Z (seq j (S m))
    /\ Forall (fun ev => scroll_event v ev = true) t.
Proof.
  intros Hq Hc. revert j h.
  induction m as [|m IH]; intros j h Hstop Hgo.
  - destruct (Hq h (Evaluate (ScrollTo (800 * Z.of_nat j)))) as [x1 H1].
    set (h1 := (v, Evaluate (ScrollTo (800 * Z.of_nat j)), Returns x1) :: h).
    destruct (Hq h1 (WaitForTimeout 150)) as [x2 H2].
    set (h2 := (v, WaitForTimeout 150, Returns x2) :: h1).
    exists [(v, Evaluate ScrollHeight, Returns (VNum H));
            (v, WaitForTimeout 150, Returns x2);
            (v, Evaluate (ScrollTo (800 * Z.of_nat j)), Returns x1)].
    split; [|split].
    + intros [|fuel] Hf; [lia|]. simpl. unfold evaluate.
      rewrite (bind_done _ _ _ _ _ (call_returns env _ _ _ _ H1)).
      rewrite (bind_done _ _ _ _ _ (call_returns env _ _ _ _ H2)).
      rewrite (bind_done _ _ _ _ _ (call_returns env _ _ _ _ (Hc _))).
      simpl. destruct (800 * Z.of_nat j >=? H)%Z eqn:Hge; [done|lia].
    + unfold scroll_positions. simpl. by rewrite viewport_eqb_refl.
    + repeat constructor; unfold scroll_event, on_viewport; simpl;
        by rewrite viewport_eqb_refl.
  - destruct (Hq h (Evaluate (ScrollTo (800 * Z.of_nat j)))) as [x1 H1].
    set (h1 := (v, Evaluate (ScrollTo (800 * Z.of_nat j)), Returns x1) :: h).
    destruct (Hq h1 (WaitForTimeout 150)) as [x2 H2].
    set (h2 := (v, WaitForTimeout 150, Returns x2) :: h1).
    set (h3 := (v, Evaluate ScrollHeight, Returns (VNum H)) :: h2).
    destruct (IH (S j) h3) as (t & Hrun & Hpos & Hev).
    { replace (S j + m) with (j + S m) by lia. exact Hstop. }
    { intros k Hk. apply Hgo. lia. }
    exists (t ++ [(v, Evaluate ScrollHeight, Returns (VNum H));
                  (v, WaitForTimeout 150, Returns x2);
                  (v, Evaluate (ScrollTo (800 * Z.of_nat j)), Returns x1)])%list.
    split; [|split].
    + intros [|fuel] Hf; [lia|]. simpl. unfold evaluate.
      rewrite (bind_done _ _ _ _ _ (call_returns env _ _ _ _ H1)).
      rewrite (bind_done _ _ _ _ _ (call_returns env _ _ _ _ H2)).
      rewrite (bind_done _ _ _ _ _ (call_returns env _ _ _ _ (Hc _))).
      simpl. assert (800 * Z.of_nat j < H)%Z as Hlt by (apply Hgo; lia).
      destruct (800 * Z.of_nat j >=? H)%Z eqn:Hge; [lia|].
      replace (800 * Z.of_nat j + 800)%Z with (800 * Z.of_nat (S j))%Z by lia.
      rewrite <- app_assoc. apply Hrun. lia.
    + unfold scroll_positions in *. rewrite rev_app_distr, flat_map_app.
      simpl. rewrite viewport_eqb_refl. simpl. f_equal. exact Hpos.
    + apply Forall_app. split; [done|].
      repeat constructor; unfold scroll_event, on_viewport; simpl;
        by rewrite viewport_eqb_refl.
Qed.

Lemma steps_needed_reaches (H : Z) : (H <= 800 * Z.of_nat (steps_needed H))%Z.
Proof.
  unfold steps_needed.
  pose proof (Z_div_mod_eq_full (H + 799) 800).
  pose proof (Z.mod_pos_bound (H + 799) 800 ltac:(lia)). lia.
Qed.

Lemma steps_needed_least (H : Z) (k : nat) :
  k < steps_needed H -> (800 * Z.of_nat k < H)%Z.
Proof.
  unfold steps_needed.
  pose proof (Z_div_mod_eq_full (H + 799) 800).
  pose proof (Z.mod_pos_bound (H + 799) 800 ltac:(lia)). lia.
Qed.

Lemma progressive_scroll_constant (H : Z) (h : History) :
  quiet env v -> constant_height env v H ->
  exists t x,
    (forall fuel, steps_needed H < fuel ->
       progressive_scroll env fuel v h = (Done tt, (t ++ h)%list))
    /\ scroll_positions v t
       = List.map (fun k => 800 * Z.of_nat k)%Z (seq 0 (S (steps_needed H)))
    /\ Forall (fun ev => scroll_event v ev = true) t
    /\ head t = Some (v, WaitForTimeout 200, Returns x).
Proof.
  intros Hq Hc.
  destruct (scroll_loop_constant H (steps_needed H) 0 h Hq Hc)
    as (t & Hrun & Hpos & Hev).
  { apply steps_needed_reaches. }
  { intros k Hk. by apply steps_needed_least. }
  destruct (Hq (t ++ h)%list (WaitForTimeout 200)) as [x Hx].
  exists ((v, WaitForTimeout 200, Returns x) :: t), x.
  split; [|split; [|split]].
  - intros fuel Hf. unfold progressive_scroll.
    rewrite (bind_done _ _ _ _ _ (Hrun fuel Hf)).
    by rewrite (bind_done _ _ _ _ _ (call_returns env _ _ _ _ Hx)).
  - unfold scroll_positions in *. simpl. rewrite flat_map_app. simpl.
    rewrite app_nil_r. exact Hpos.
  - constructor; [|done]. unfold scroll_event, on_viewport. simpl.
    by rewrite viewport_eqb_refl.
  - done.
Qed.

Lemma heights_positive (g : nat -> Z) (k : nat) :
  (0 < g O)%Z -> (forall k, g k + 800 <= g (S k))%Z -> (0 < g k)%Z.
Proof.
  intros H0 Hs. induction k as [|k IH]; [done|]. specialize (Hs k). lia.
Qed.

(** On a page whose height grows by the increment or more at each reading,
    the loop never reaches its exit. *)
Lemma scroll_loop_grows (g : nat -> Z) (fuel : nat) (y : Z) (h : History) :
  quiet env v -> height_sequence env v g ->
  (forall k, g k + 800 <= g (S k))%Z ->
  (y < g (heights_seen v h))%Z ->
  fst (scroll_loop env fuel v 800 150 y h) = OutOfFuel.
Proof.
  intros Hq Hg Hs. revert y h.
  induction fuel as [|fuel IH]; intros y h Hy; [done|].
  destruct (Hq h (Evaluate (ScrollTo y))) as [x1 H1].
  set (h1 := (v, Evaluate (ScrollTo y), Returns x1) :: h).
  destruct (Hq h1 (WaitForTimeout 150)) as [x2 H2].
  set (h2 := (v, WaitForTimeout 150, Returns x2) :: h1).
  assert (Hsame : heights_seen v h2 = heights_seen v h) by reflexivity.
  simpl. unfold evaluate.
  rewrite (bind_done _ _ _ _ _ (call_returns env _ _ _ _ H1)).
  rewrite (bind_done _ _ _ _ _ (call_returns env _ _ _ _ H2)).
  rewrite (bind_done _ _ _ _ _ (call_returns env _ _ _ _ (Hg _))).
  fold h1 h2. rewrite Hsame. simpl.
  destruct (y >=? g (heights_seen v h))%Z eqn:Hge; [lia|].
  apply IH. unfold heights_seen. simpl. rewrite viewport_eqb_refl. simpl.
  fold (heights_seen v h). specialize (Hs (heights_seen v h)). lia.
Qed.

Lemma progressive_scroll_grows (g : nat -> Z) (fuel : nat) (h : History) :
  quiet env v -> height_sequence env v g ->
  (0 < g O)%Z -> (forall k, g k + 800 <= g (S k))%Z ->
  fst (progressive_scroll env fuel v h) = OutOfFuel.
Proof.
  intros Hq Hg H0 Hs. unfold progressive_scroll.
  pose proof (scroll_loop_grows g fuel 0 h Hq Hg Hs
                (heights_positive g _ H0 Hs)) as Hloop.
  unfold bind. by destruct (scroll_loop env fuel v 800 150 0 h) as [[]].
Qed.

(** [runs m ds]: on a quiet page [m] completes, having evaluated the
    normalization scripts [ds]. *)
Definition runs {A} (m : M A) (ds : list Script) : Prop :=
  forall h, exists a t,
    m h = (Done a, (t ++ h)%list) /\ directives_run v t = ds.

Lemma directives_run_app (t2 t1 : list Event) :
  directives_run v (t2 ++ t1) = (directives_run v t1 ++ directives_run v t2)%list.
Proof. unfold directives_run. by rewrite rev_app_distr, flat_map_app. Qed.

Lemma runs_ret {A} (a : A) : runs (ret a) [].
Proof. intros h. by exists a, []. Qed.

Lemma runs_bind {A B} (m : M A) (f : A -> M B) d1 d2 :
  runs m d1 -> (forall a, runs (f a) d2) -> runs (bind m f) (d1 ++ d2)%list.
Proof.
  intros Hm Hf h. destruct (Hm h) as (a & t1 & H1 & Hd1).
  destruct (Hf a (t1 ++ h)%list) as (b & t2 & H2 & Hd2).
  exists b, (t2 ++ t1)%list. rewrite (bind_done _ _ _ _ _ H1), H2, app_assoc.
  split; [done|]. by rewrite directives_run_app, Hd1, Hd2.
Qed.

Lemma runs_call (c : Call) :
  quiet env v ->
  runs (call env v c)
       (match c with
        | Evaluate s => if directive s then [s] else []
        | _ => []
        end).
Proof.
  intros Hq h. destruct (Hq h c) as [x Hx].
  exists x, [(v, c, Returns x)]. rewrite (call_returns env _ _ _ _ Hx).
  split; [done|]. unfold directives_run. simpl. rewrite viewport_eqb_refl.
  destruct c as [| |s| | |]; try done. simpl. by destruct (directive s).
Qed.

Lemma runs_goto url wait :
  quiet env v ->
  runs (try_except_pw (call env v (Goto url wait))
                      (call env v (Goto url "domcontentloaded"))) [].
Proof.
  intros Hq h. destruct (Hq h (Goto url wait)) as [x Hx].
  exists x, [(v, Goto url wait, Returns x)]. unfold try_except_pw.
  by rewrite (call_returns env _ _ _ _ Hx).
Qed.

Lemma runs_when (b : bool) (m : M unit) ds :
  runs m ds -> runs (when b m) (if b then ds else []).
Proof. destruct b; [done|]. intros _. apply runs_ret. Qed.

Lemma scroll_events_no_directive (t : list Event) :
  Forall (fun ev => scroll_event v ev = true) t -> directives_run v t = [].
Proof.
  unfold directives_run. induction 1 as [|[[w c] o] t Hev _ IH]; [done|].
  simpl. rewrite flat_map_app, IH. simpl.
  unfold scroll_event in Hev. simpl in Hev.
  apply andb_prop in Hev as [_ Hev].
  destruct c as [| |[]| | |]; try done; by rewrite andb_false_r.
Qed.

Lemma runs_progressive_scroll (H : Z) (fuel : nat) :
  quiet env v -> constant_height env v H -> steps_needed H < fuel ->
  runs (progressive_scroll env fuel v) [].
Proof.
  intros Hq Hc Hf h.
  destruct (progressive_scroll_constant H h Hq Hc) as (t & x & Hrun & _ & Hev & _).
  exists tt, t. split; [by apply Hrun|]. by apply scroll_events_no_directive.
Qed.

Lemma nav_and_prepare_runs (H : Z) (fuel : nat) url wait insecure defloat
    hide_selectors isi_reached timeout_ms settle :
  quiet env v -> constant_height env v H -> steps_needed H < fuel ->
  runs (nav_and_prepare env fuel v url wait insecure defloat
          hide_selectors isi_reached timeout_ms settle)
       (enabled_directives defloat hide_selectors isi_reached settle).
Proof.
  intros Hq Hc Hf.
  assert (Hruns : runs (nav_and_prepare env fuel v url wait
                          insecure defloat hide_selectors isi_reached
                          timeout_ms settle)
    ([] ++ [] ++ (if settle then [] else [])
     ++ (if isi_reached then [MarkIsiReached] ++ [] else [])
     ++ (if settle then [MarkAllViewedAndFreeze] ++ [] else [])
     ++ (if negb (is_empty hide_selectors)
         then [HideSelectors hide_selectors] ++ [ClearBannerOffsets] ++ []
         else [])
     ++ (if defloat then [DefloatScript] ++ [ClearBannerOffsets] ++ [] else []))%list).
  { unfold nav_and_prepare, evaluate.
    apply runs_bind; [exact (runs_call (SetDefaultTimeout timeout_ms) Hq)|intros _].
    apply runs_bind; [by apply runs_goto|intros _].
    apply runs_bind; [apply runs_when; by eapply runs_progressive_scroll|intros _].
    apply runs_bind; [apply runs_when|intros _].
    { apply runs_bind; [exact (runs_call (Evaluate MarkIsiReached) Hq)|intros _].
      apply runs_ret. }
    apply runs_bind; [apply runs_when|intros _].
    { apply runs_bind; [exact (runs_call (Evaluate MarkAllViewedAndFreeze) Hq)|intros _].
      apply runs_ret. }
    apply runs_bind; [apply runs_when|intros _].
    { apply runs_bind; [exact (runs_call (Evaluate (HideSelectors _)) Hq)|intros _].
      apply runs_bind; [exact (runs_call (Evaluate ClearBannerOffsets) Hq)|intros _].
      apply runs_ret. }
    apply runs_when.
    apply runs_bind; [exact (runs_call (Evaluate DefloatScript) Hq)|intros _].
    apply runs_bind; [exact (runs_call (Evaluate ClearBannerOffsets) Hq)|intros _].
    apply runs_ret. }
  unfold enabled_directives.
  by destruct settle, isi_reached, (negb (is_empty hide_selectors)), defloat.
Qed.

End Prepare.

(** ** Modal capture and the order of the images *)

Section Capture.
Variable env : Env.

Ltac trace_between h' h :=
  lazymatch h' with
  | h => constr:(@nil Event)
  | ?e :: ?r => let t := trace_between r h in constr:(e :: t)
  end.

Ltac give_trace :=
  lazymatch goal with
  | |- exists t, ?h' = (t ++ ?h)%list /\ _ =>
      let t := trace_between h' h in exists t; split; [reflexivity|]
  end.

Ltac crunch :=
  repeat (simpl in *;
          match goal with
          | |- context [match env ?h ?v ?c with _ => _ end] =>
              destruct (env h v c) eqn:?
          | |- context [if ?b then _ else _] => destruct b eqn:?
          | |- context [match ?x with VNone => _ | _ => _ end] => destruct x
          | |- context [match ?e with PWError => _ | _ => _ end] => destruct e
          end).

Lemma modal_shot_trace (v : Viewport) (out_dir base_name : string)
    (no_modal_shot : bool) (h : History) :
  exists t,
    snd (modal_shot env v out_dir base_name no_modal_shot h) = (t ++ h)%list
    /\ Forall (fun ev => on_viewport v ev = true) t
    /\ has (full_shot_ok v) t = false
    /\ (has (is_close v) t = true -> has (popup_shot_ok v) t = true)
    /\ (forall imgs,
          fst (modal_shot env v out_dir base_name no_modal_shot h) = Done imgs ->
          imgs = if has (popup_shot_ok v) t
                 then [popup_png out_dir base_name v] else []).
Proof.
  destruct v;
    cbv [modal_shot try_capture_modal_only close_any_modal bind call evaluate
         try_except ret raise];
    crunch; simpl; give_trace;
    (split; [by repeat constructor|]); (split; [done|]); (split; [done|]);
    intros imgs Himgs; by inversion Himgs.
Qed.

Lemma prep_events_facts (v : Viewport) (t : list Event) :
  Forall (prep_always v) t ->
  Forall (fun ev => on_viewport v ev = true) t
  /\ has (is_close v) t = false
  /\ has (popup_shot_ok v) t = false
  /\ has (full_shot_ok v) t = false.
Proof.
  induction 1 as [|[[w c] o] t Hev _ (IH1 & IH2 & IH3 & IH4)];
    [by repeat split|].
  unfold prep_always, prep_event, on_viewport in Hev. simpl in Hev.
  apply andb_prop in Hev as [Hw Hc].
  split; [constructor; [exact Hw|exact IH1]|].
  unfold has in *. simpl. rewrite IH2, IH3, IH4.
  destruct c as [| |[]| |p [] [b|]|]; try done; by destruct o.
Qed.

Lemma has_app (P : Event -> bool) (t2 t1 : list Event) :
  has P (t2 ++ t1) = has P t2 || has P t1.
Proof. apply existsb_app. Qed.

Lemma other_viewport_silent (P : Viewport -> Event -> bool) (v w : Viewport)
    (t : list Event) :
  (forall ev, P w ev = true -> on_viewport w ev = true) ->
  viewport_eqb v w = false ->
  Forall (fun ev => on_viewport v ev = true) t ->
  has (P w) t = false.
Proof.
  intros HP Hvw. induction 1 as [|ev t Hev _ IH]; [done|].
  unfold has in *. simpl. rewrite IH, orb_false_r.
  destruct (P w ev) eqn:HPw; [|done]. apply HP in HPw.
  unfold on_viewport in *. by destruct (fst (fst ev)), v, w.
Qed.

Lemma popup_shot_on w ev : popup_shot_ok w ev = true -> on_viewport w ev = true.
Proof.
  unfold on_viewport. destruct ev as [[u c] o]. simpl.
  destruct c as [| | | |p fp cl|]; try done. by destruct fp, cl, o.
Qed.

Lemma full_shot_on w ev : full_shot_ok w ev = true -> on_viewport w ev = true.
Proof.
  unfold on_viewport. destruct ev as [[u c] o]. simpl.
  destruct c as [| | | |p fp cl|]; try done. by destruct fp, cl, o.
Qed.

Lemma close_on w ev : is_close w ev = true -> on_viewport w ev = true.
Proof.
  unfold on_viewport. destruct ev as [[u c] o]. simpl.
  destruct c as [| |s| | |]; try done. by destruct s.
Qed.

Lemma capture_viewport_trace (fuel : nat) (v : Viewport)
    (url out_dir : string) (insecure : bool) (nav_timeout_ms : Z)
    (defloat : bool) (hide_selectors : string) (isi_reached : bool)
    (base_name : string) (settle no_modal_shot : bool) (h : History) :
  exists t,
    snd (capture_viewport env fuel v url out_dir insecure nav_timeout_ms
           defloat hide_selectors isi_reached base_name settle no_modal_shot h)
    = (t ++ h)%list
    /\ Forall (fun ev => on_viewport v ev = true) t
    /\ (has (is_close v) t = true -> has (popup_shot_ok v) t = true)
    /\ (forall imgs,
          fst (capture_viewport env fuel v url out_dir insecure nav_timeout_ms
                 defloat hide_selectors isi_reached base_name settle
                 no_modal_shot h) = Done imgs ->
          imgs = images_of out_dir base_name v t
          /\ has (full_shot_ok v) t = true).
Proof.
  destruct (capture_viewport env fuel v url out_dir insecure nav_timeout_ms
              defloat hide_selectors isi_reached base_name settle
              no_modal_shot h) as [r h'] eqn:Hrun.
  simpl. unfold capture_viewport in Hrun.
  destruct (traced_nav_and_prepare env v fuel url "load" insecure defloat
              hide_selectors isi_reached nav_timeout_ms settle h)
    as (t1 & Hh1 & Ha1 & _).
  destruct (prep_events_facts v t1 Ha1) as (Hv1 & Hc1 & Hp1 & Hf1).
  unfold bind at 1 in Hrun.
  destruct (nav_and_prepare env fuel v url "load" insecure defloat
              hide_selectors isi_reached nav_timeout_ms settle h)
    as [[[]|e|] h1]; simpl in Hh1; subst h1.
  2,3: injection Hrun as <- <-; exists t1;
       (split; [done|]); (split; [done|]); split; [by rewrite Hc1|done].
  destruct (modal_shot_trace v out_dir base_name no_modal_shot (t1 ++ h)%list)
    as (t2 & Hh2 & Hv2 & Hf2 & Hcp2 & Himg2).
  unfold bind at 1 in Hrun.
  destruct (modal_shot env v out_dir base_name no_modal_shot (t1 ++ h)%list)
    as [[popup|e|] h2]; simpl in Hh2; subst h2.
  2,3: injection Hrun as <- <-; exists (t2 ++ t1)%list; rewrite app_assoc;
       (split; [done|]); (split; [by apply Forall_app|]);
       rewrite !has_app, Hc1, Hp1, !orb_false_r; by split.
  specialize (Himg2 popup eq_refl).
  cbv [take_fullpage_screenshot bind call ret] in Hrun.
  destruct (env (t2 ++ t1 ++ h)%list v
              (Screenshot (full_png out_dir base_name v) true None))
    as [x3|e3] eqn:E3; simpl in Hrun.
  - destruct (env ((v, Screenshot (full_png out_dir base_name v) true None,
                    Returns x3) :: t2 ++ t1 ++ h)%list v ContextClose)
      as [x4|e4] eqn:E4; simpl in Hrun; injection Hrun as <- <-.
    + exists ((v, ContextClose, Returns x4)
              :: (v, Screenshot (full_png out_dir base_name v) true None,
                  Returns x3) :: t2 ++ t1)%list.
      simpl. rewrite <- app_assoc. split; [done|].
      split.
      { repeat constructor; try by (unfold on_viewport; simpl; apply viewport_eqb_refl).
        by apply Forall_app. }
      unfold images_of, has in *. simpl.
      rewrite !existsb_app, Hc1, Hp1, !orb_false_r, viewport_eqb_refl.
      split; [done|]. intros imgs [= <-]. by rewrite Himg2.
    + exists ((v, ContextClose, Raises e4)
              :: (v, Screenshot (full_png out_dir base_name v) true None,
                  Returns x3) :: t2 ++ t1)%list.
      simpl. rewrite <- app_assoc. split; [done|].
      split.
      { repeat constructor; try by (unfold on_viewport; simpl; apply viewport_eqb_refl).
        by apply Forall_app. }
      unfold has in *. simpl.
      rewrite !existsb_app, Hc1, Hp1, !orb_false_r.
      split; done.
  - injection Hrun as <- <-.
    exists ((v, Screenshot (full_png out_dir base_name v) true None,
             Raises e3) :: t2 ++ t1)%list.
    simpl. rewrite <- app_assoc. split; [done|].
    split.
    { repeat constructor; try by (unfold on_viewport; simpl; apply viewport_eqb_refl).
      by apply Forall_app. }
    unfold has in *. simpl.
    rewrite !existsb_app, Hc1, Hp1, !orb_false_r.
    split; done.
Qed.

Lemma capture_single_url_trace (fuel : nat) (url out_dir : string)
    (insecure : bool) (nav_timeout_ms : Z) (defloat : bool)
    (hide_selectors : string) (isi_reached : bool) (base_name : string)
    (settle no_modal_shot : bool) (h : History) :
  exists t,
    snd (capture_single_url env fuel url out_dir insecure nav_timeout_ms
           defloat hide_selectors isi_reached base_name settle no_modal_shot h)
    = (t ++ h)%list
    /\ (forall v, has (is_close v) t = true -> has (popup_shot_ok v) t = true)
    /\ (forall imgs,
          fst (capture_single_url env fuel url out_dir insecure nav_timeout_ms
                 defloat hide_selectors isi_reached base_name settle
                 no_modal_shot h) = Done imgs ->
          imgs = (images_of out_dir base_name Desktop t
                  ++ images_of out_dir base_name Mobile t)%list
          /\ (forall v, has (popup_shot_ok v) t = false ->
                        has (is_close v) t = false)
          /\ (forall v, has (full_shot_ok v) t = true)).
Proof.
  destruct (capture_single_url env fuel url out_dir insecure nav_timeout_ms
              defloat hide_selectors isi_reached base_name settle
              no_modal_shot h) as [r h'] eqn:Hrun.
  simpl. unfold capture_single_url in Hrun.
  destruct (capture_viewport_trace fuel Desktop (ensure_scheme url) out_dir
              insecure nav_timeout_ms defloat hide_selectors isi_reached
              base_name settle no_modal_shot h)
    as (td & Hhd & Hvd & Hcd & Himgd).
  pose proof (other_viewport_silent is_close Desktop Mobile td
                (close_on Mobile) eq_refl Hvd) as Hcm_d.
  pose proof (other_viewport_silent popup_shot_ok Desktop Mobile td
                (popup_shot_on Mobile) eq_refl Hvd) as Hpm_d.
  unfold bind at 1 in Hrun.
  destruct (capture_viewport env fuel Desktop (ensure_scheme url) out_dir
              insecure nav_timeout_ms defloat hide_selectors isi_reached
              base_name settle no_modal_shot h)
    as [[dt|e|] h1]; simpl in Hhd; subst h1.
  2,3: injection Hrun as <- <-; exists td; (split; [done|]);
       split; [intros []; [done|by rewrite Hcm_d]|done].
  destruct (Himgd dt eq_refl) as [-> Hfd].
  destruct (capture_viewport_trace fuel Mobile (ensure_scheme url) out_dir
              insecure nav_timeout_ms defloat hide_selectors isi_reached
              base_name settle no_modal_shot (td ++ h)%list)
    as (tm & Hhm & Hvm & Hcm & Himgm).
  pose proof (other_viewport_silent is_close Mobile Desktop tm
                (close_on Desktop) eq_refl Hvm) as Hcd_m.
  pose proof (other_viewport_silent popup_shot_ok Mobile Desktop tm
                (popup_shot_on Desktop) eq_refl Hvm) as Hpd_m.
  assert (Hclose : forall v, has (is_close v) (tm ++ td) = true ->
                             has (popup_shot_ok v) (tm ++ td) = true).
  { intros []; rewrite !has_app.
    - rewrite Hcd_m, Hpd_m. exact Hcd.
    - rewrite Hcm_d, Hpm_d, !orb_false_r. exact Hcm. }
  unfold bind at 1 in Hrun.
  destruct (capture_viewport env fuel Mobile (ensure_scheme url) out_dir
              insecure nav_timeout_ms defloat hide_selectors isi_reached
              base_name settle no_modal_shot (td ++ h)%list)
    as [[mb|e|] h2]; simpl in Hhm; subst h2;
    injection Hrun as <- <-; exists (tm ++ td)%list; rewrite app_assoc;
    (split; [done|]); (split; [exact Hclose|]); [|done|done].
  destruct (Himgm mb eq_refl) as [-> Hfm].
  intros imgs [= <-]. split; [|split].
  - unfold images_of. by rewrite !has_app, Hpd_m, Hpm_d, orb_false_r.
  - intros v Hno. specialize (Hclose v).
    destruct (has (is_close v) (tm ++ td)); [|done].
    rewrite Hclose in Hno; done.
  - intros []; rewrite has_app; [by rewrite Hfd, orb_true_r|by rewrite Hfm].
Qed.

(** On a quiet page whose bounding-box script answers as written, the
    modal block completes. *)
Lemma modal_shot_completes (v : Viewport) (out_dir base_name : string)
    (no_modal_shot : bool) (h : History) :
  quiet env v -> bbox_answers env v ->
  exists imgs,
    fst (modal_shot env v out_dir base_name no_modal_shot h) = Done imgs.
Proof.
  intros Hq Hb.
  cbv [modal_shot try_capture_modal_only close_any_modal bind call evaluate
       try_except ret raise];
    crunch; simpl; try (eexists; reflexivity);
    try match goal with
        | E : env ?h' v (Evaluate ModalBbox) = _ |- _ =>
            destruct (Hb h') as [Hn|[? Hn]]; rewrite Hn in E; discriminate
        end;
    match goal with
    | E : env ?h' v ?c = Raises _ |- _ =>
        destruct (Hq h' c) as [? Hx]; rewrite Hx in E; discriminate
    end.
Qed.

Lemma capture_viewport_completes (H : Z) (fuel : nat) (v : Viewport)
    (url out_dir : string) (insecure : bool) (nav_timeout_ms : Z)
    (defloat : bool) (hide_selectors : string) (isi_reached : bool)
    (base_name : string) (settle no_modal_shot : bool) (h : History) :
  quiet env v -> bbox_answers env v -> constant_height env v H ->
  steps_needed H < fuel ->
  exists imgs,
    fst (capture_viewport env fuel v url out_dir insecure nav_timeout_ms
           defloat hide_selectors isi_reached base_name settle
           no_modal_shot h) = Done imgs.
Proof.
  intros Hq Hb Hc Hf. unfold capture_viewport.
  destruct (nav_and_prepare_runs env v H fuel url "load" insecure defloat
              hide_selectors isi_reached nav_timeout_ms settle Hq Hc Hf h)
    as ([] & t1 & Hnav & _).
  rewrite (bind_done _ _ _ _ _ Hnav).
  destruct (modal_shot_completes v out_dir base_name no_modal_shot
              (t1 ++ h)%list Hq Hb) as [popup Hpop].
  unfold bind at 1.
  destruct (modal_shot env v out_dir base_name no_modal_shot (t1 ++ h)%list)
    as [r2 h2]; simpl in Hpop; subst r2.
  unfold take_fullpage_screenshot.
  destruct (Hq h2 (Screenshot (full_png out_dir base_name v) true None))
    as [x3 H3].
  rewrite (bind_done _ _ _ _ _
             (bind_done _ _ _ _ _ (call_returns env _ _ _ _ H3))).
  unfold ret at 1.
  destruct (Hq ((v, Screenshot (full_png out_dir base_name v) true None,
                 Returns x3) :: h2) ContextClose) as [x4 H4].
  rewrite (bind_done _ _ _ _ _ (call_returns env _ _ _ _ H4)).
  by eexists.
Qed.

Lemma capture_single_url_completes (H : Z) (fuel : nat) (url out_dir : string)
    (insecure : bool) (nav_timeout_ms : Z) (defloat : bool)
    (hide_selectors : string) (isi_reached : bool) (base_name : string)
    (settle no_modal_shot : bool) (h : History) :
  (forall v, quiet env v) -> (forall v, bbox_answers env v) ->
  (forall v, constant_height env v H) -> steps_needed H < fuel ->
  exists imgs,
    fst (capture_single_url env fuel url out_dir insecure nav_timeout_ms
           defloat hide_selectors isi_reached base_name settle
           no_modal_shot h) = Done imgs.
Proof.
  intros Hq Hb Hc Hf. unfold capture_single_url.
  destruct (capture_viewport_completes H fuel Desktop (ensure_scheme url)
              out_dir insecure nav_timeout_ms defloat hide_selectors
              isi_reached base_name settle no_modal_shot h
              (Hq _) (Hb _) (Hc _) Hf) as [dt Hdt].
  unfold bind at 1.
  destruct (capture_viewport env fuel Desktop (ensure_scheme url) out_dir
              insecure nav_timeout_ms defloat hide_selectors isi_reached
              base_name settle no_modal_shot h) as [r1 h1];
    simpl in Hdt; subst r1.
  destruct (capture_viewport_completes H fuel Mobile (ensure_scheme url)
              out_dir insecure nav_timeout_ms defloat hide_selectors
              isi_reached base_name settle no_modal_shot h1
              (Hq _) (Hb _) (Hc _) Hf) as [mb Hmb].
  unfold bind at 1.
  destruct (capture_viewport env fuel Mobile (ensure_scheme url) out_dir
              insecure nav_timeout_ms defloat hide_selectors isi_reached
              base_name settle no_modal_shot h1) as [r2 h2];
    simpl in Hmb; subst r2.
  by eexists.
Qed.

End Capture.

Lemma quiet_scripted (x y : Value) (H : Z) (v : Viewport) :
  quiet (scripted (Returns x) (Returns y) H) v.
Proof.
  intros h c. unfold scripted.
  destruct c as [| |s| | |]; try by eexists. destruct s; by eexists.
Qed.

Lemma quiet_infinite_scroll (v : Viewport) : quiet infinite_scroll v.
Proof.
  intros h c. unfold infinite_scroll.
  destruct c as [| |s| | |]; try by eexists. destruct s; by eexists.
Qed.

(** C7. On a page whose scroll height is the same at every evaluation the
    settle loop ends: the positions scrolled to are 0, 800, 1600, ... up
    to the first one at or beyond the height, and one pause of 200 ms
    follows.  The loop has no cap: on a page whose height grows by 800 or
    more at each evaluation it yields no result, whatever the number of
    iterations allowed. *)
Theorem progressive_scroll_termination
    (env : Env) (v : Viewport) (H : Z) (h : History)
    (Hq : quiet env v) (Hc : constant_height env v H)
    (env' : Env) (g : nat -> Z) (h' : History)
    (Hq' : quiet env' v) (Hg : height_sequence env' v g)
    (Hg0 : (0 < g O)%Z) (Hgs : forall k, (g k + 800 <= g (S k))%Z) :
  (exists t x,
      (forall fuel, steps_needed H < fuel ->
         progressive_scroll env fuel v h = (Done tt, (t ++ h)%list))
      /\ scroll_positions v t
         = List.map (fun k => 800 * Z.of_nat k)%Z (seq 0 (S (steps_needed H)))
      /\ head t = Some (v, WaitForTimeout 200, Returns x)
      /\ (H <= 800 * Z.of_nat (steps_needed H))%Z
      /\ (forall k, k < steps_needed H -> (800 * Z.of_nat k < H)%Z))
  /\ (forall fuel, fst (progressive_scroll env' fuel v h') = OutOfFuel).
Proof.
  split.
  - destruct (progressive_scroll_constant env v H h Hq Hc)
      as (t & x & Hrun & Hpos & _ & Hhd).
    exists t, x. split; [done|]. split; [done|]. split; [done|].
    split; [apply steps_needed_reaches|apply steps_needed_least].
  - intros fuel. by eapply progressive_scroll_grows.
Qed.

Lemma progressive_scroll_termination_witness :
  (exists t x,
      (forall fuel, steps_needed 1600 < fuel ->
         progressive_scroll page_with_modal fuel Desktop []
         = (Done tt, (t ++ [])%list))
      /\ scroll_positions Desktop t
         = List.map (fun k => 800 * Z.of_nat k)%Z
             (seq 0 (S (steps_needed 1600)))
      /\ head t = Some (Desktop, WaitForTimeout 200, Returns x)
      /\ (1600 <= 800 * Z.of_nat (steps_needed 1600))%Z
      /\ (forall k, k < steps_needed 1600 -> (800 * Z.of_nat k < 1600)%Z))
  /\ (forall fuel,
        fst (progressive_scroll infinite_scroll fuel Desktop []) = OutOfFuel).
Proof.
  apply (progressive_scroll_termination page_with_modal Desktop 1600 []
           (quiet_scripted _ _ _ _) (fun _ => eq_refl)
           infinite_scroll (fun k => 1000 + 800 * Z.of_nat k)%Z []
           (quiet_infinite_scroll _) (fun _ => eq_refl)).
  - lia.
  - intros k. lia.
Defined.

(** ** Preparation on any page *)

Section AnyPage.
Variable env : Env.
Variable v : Viewport.
Variables url wait : string.

(** A call that stands in the way of the run. *)
Definition broken (ev : Event) : bool :=
  negb ((returned ev || retried_goto url wait ev) && height_ok ev).

Lemma unbroken_not_broken (t : list Event) :
  unbroken url wait t = true -> has broken t = false.
Proof.
  unfold unbroken, has, broken. induction t as [|ev t IH]; [done|].
  cbn [forallb existsb]. intros [H1 H2]%andb_prop. by rewrite H1, (IH H2).
Qed.

(** [steps m ds]: [m] makes no navigation; when it completes it has
    evaluated the normalization scripts [ds], and when it raises one of
    its calls failed. *)
Definition steps {A} (m : M A) (ds : list Script) : Prop :=
  forall h, exists t,
    snd (m h) = (t ++ h)%list
    /\ Forall (fun ev => is_goto ev = false) t
    /\ match fst (m h) with
       | Done _ => directives_run v t = ds
       | Raised _ => has broken t = true
       | OutOfFuel => True
       end.

Lemma steps_ret {A} (a : A) : steps (ret a) [].
Proof. intros h. exists []. cbn. by split. Qed.

Lemma steps_bind {A B} (m : M A) (f : A -> M B) d1 d2 :
  steps m d1 -> (forall a, steps (f a) d2) ->
  steps (bind m f) (d1 ++ d2)%list.
Proof.
  intros Hm Hf h. destruct (Hm h) as (t1 & Hh1 & Hg1 & Hr1).
  unfold bind. destruct (m h) as [[a|e|] h1]; cbn [fst snd] in *; subst h1.
  - destruct (Hf a (t1 ++ h)%list) as (t2 & Hh2 & Hg2 & Hr2).
    exists (t2 ++ t1)%list. rewrite Hh2, app_assoc.
    split; [done|]. split; [by apply Forall_app|].
    destruct (fst (f a (t1 ++ h)%list)).
    + by rewrite directives_run_app, Hr1, Hr2.
    + by rewrite has_app, Hr2.
    + done.
  - by exists t1.
  - by exists t1.
Qed.

Lemma steps_call (c : Call) :
  match c with Goto _ _ => False | _ => True end ->
  steps (call env v c)
        (match c with
         | Evaluate s => if directive s then [s] else []
         | _ => []
         end).
Proof.
  intros Hc h. exists [(v, c, env h v c)]. unfold call. cbn [fst snd].
  split; [done|]. split; [constructor; [by destruct c|done]|].
  destruct (env h v c) as [x|e].
  - unfold directives_run. cbn. rewrite viewport_eqb_refl.
    destruct c as [| |s| | |]; try done. cbn. by destruct (directive s).
  - unfold has, broken. cbn. by destruct c, e.
Qed.

Lemma steps_when (b : bool) (m : M unit) ds :
  steps m ds -> steps (when b m) (if b then ds else []).
Proof. destruct b; [done|]. intros _. apply steps_ret. Qed.

(** The reading of the height and the comparison that follows. *)
Lemma steps_height {A} (k : Z -> M A) :
  (forall n, steps (k n) []) ->
  steps (bind (evaluate env v ScrollHeight)
              (fun new_h => match as_number new_h with
                            | Some n => k n
                            | None => raise OtherError
                            end)) [].
Proof.
  intros Hk h. unfold bind, evaluate, call.
  destruct (env h v (Evaluate ScrollHeight)) as [x|e] eqn:E; cbn [fst snd].
  - destruct (as_number x) as [n|] eqn:En.
    + destruct (Hk n ((v, Evaluate ScrollHeight, Returns x) :: h))
        as (t & Hh & Hg & Hr).
      exists (t ++ [(v, Evaluate ScrollHeight, Returns x)])%list.
      rewrite Hh, <- app_assoc. split; [done|].
      split; [apply Forall_app; split; [done|by constructor]|].
      destruct (fst (k n _)).
      * rewrite directives_run_app, Hr. unfold directives_run. cbn.
        by rewrite andb_false_r.
      * by rewrite has_app, Hr.
      * done.
    + exists [(v, Evaluate ScrollHeight, Returns x)]. cbn.
      split; [done|]. split; [by constructor|].
      unfold has, broken. cbn. by rewrite En.
  - exists [(v, Evaluate ScrollHeight, Raises e)]. cbn.
    split; [done|]. split; [by constructor|].
    unfold has, broken. cbn. by destruct e.
Qed.

Lemma steps_scroll_loop (fuel : nat) (step pause_ms y : Z) :
  steps (scroll_loop env fuel v step pause_ms y) [].
Proof.
  revert y. induction fuel as [|fuel IH]; intros y.
  - intros h. exists []. cbn. by split.
  - cbn [scroll_loop].
    apply (steps_bind _ _ [] []);
      [exact (steps_call (Evaluate (ScrollTo y)) I)|intros _].
    apply (steps_bind _ _ [] []);
      [exact (steps_call (WaitForTimeout pause_ms) I)|intros _].
    apply (steps_height
             (fun n => if (y >=? n)%Z then ret tt
                       else scroll_loop env fuel v step pause_ms (y + step))).
    intros n. destruct (y >=? n)%Z; [apply steps_ret|apply IH].
Qed.

(** What [nav_and_prepare] does once the page is loaded. *)
Definition prepare_steps (fuel : nat) (defloat : bool)
    (hide_selectors : string) (isi_reached settle : bool) : M unit :=
  (when settle (progressive_scroll env fuel v) ;;;
   when isi_reached (evaluate env v MarkIsiReached ;;; ret tt) ;;;
   when settle (evaluate env v MarkAllViewedAndFreeze ;;; ret tt) ;;;
   when (negb (is_empty hide_selectors))
        (evaluate env v (HideSelectors hide_selectors) ;;;
         evaluate env v ClearBannerOffsets ;;; ret tt) ;;;
   when defloat
        (evaluate env v DefloatScript ;;;
         evaluate env v ClearBannerOffsets ;;; ret tt))%page.

Lemma steps_prepare fuel defloat hide_selectors isi_reached settle :
  steps (prepare_steps fuel defloat hide_selectors isi_reached settle)
        (enabled_directives defloat hide_selectors isi_reached settle).
Proof.
  assert (Hsteps : steps (prepare_steps fuel defloat hide_selectors
                            isi_reached settle)
    ((if settle then [] ++ [] ++ [] else [])
     ++ (if isi_reached then [MarkIsiReached] ++ [] else [])
     ++ (if settle then [MarkAllViewedAndFreeze] ++ [] else [])
     ++ (if negb (is_empty hide_selectors)
         then [HideSelectors hide_selectors] ++ [ClearBannerOffsets] ++ []
         else [])
     ++ (if defloat then [DefloatScript] ++ [ClearBannerOffsets] ++ [] else []))%list).
  { unfold prepare_steps, progressive_scroll, evaluate.
    apply steps_bind; [apply steps_when|intros _].
    { apply steps_bind; [apply steps_scroll_loop|intros _].
      apply steps_bind; [exact (steps_call (WaitForTimeout 200) I)|intros _].
      apply steps_ret. }
    apply steps_bind; [apply steps_when|intros _].
    { apply steps_bind; [exact (steps_call (Evaluate MarkIsiReached) I)|intros _].
      apply steps_ret. }
    apply steps_bind; [apply steps_when|intros _].
    { apply steps_bind;
        [exact (steps_call (Evaluate MarkAllViewedAndFreeze) I)|intros _].
      apply steps_ret. }
    apply steps_bind; [apply steps_when|intros _].
    { apply steps_bind;
        [exact (steps_call (Evaluate (HideSelectors _)) I)|intros _].
      apply steps_bind;
        [exact (steps_call (Evaluate ClearBannerOffsets) I)|intros _].
      apply steps_ret. }
    apply steps_when.
    apply steps_bind; [exact (steps_call (Evaluate DefloatScript) I)|intros _].
    apply steps_bind;
      [exact (steps_call (Evaluate ClearBannerOffsets) I)|intros _].
    apply steps_ret. }
  unfold enabled_directives.
  by destruct settle, isi_reached, (negb (is_empty hide_selectors)), defloat.
Qed.

(** The timeout, the navigation and its one retry, call by call. *)
Lemma nav_and_prepare_cases fuel insecure defloat hide_selectors isi_reached
    timeout_ms settle h :
  nav_and_prepare env fuel v url wait insecure defloat hide_selectors
    isi_reached timeout_ms settle h
  = match env h v (SetDefaultTimeout timeout_ms) with
    | Raises e => (Raised e, (v, SetDefaultTimeout timeout_ms, Raises e) :: h)
    | Returns x0 =>
        let h0 := (v, SetDefaultTimeout timeout_ms, Returns x0) :: h in
        match env h0 v (Goto url wait) with
        | Returns x1 =>
            prepare_steps fuel defloat hide_selectors isi_reached settle
              ((v, Goto url wait, Returns x1) :: h0)
        | Raises OtherError =>
            (Raised OtherError, (v, Goto url wait, Raises OtherError) :: h0)
        | Raises PWError =>
            let h1 := (v, Goto url wait, Raises PWError) :: h0 in
            match env h1 v (Goto url "domcontentloaded") with
            | Returns x2 =>
                prepare_steps fuel defloat hide_selectors isi_reached settle
                  ((v, Goto url "domcontentloaded", Returns x2) :: h1)
            | Raises e =>
                (Raised e, (v, Goto url "domcontentloaded", Raises e) :: h1)
            end
        end
    end.
Proof.
  change (nav_and_prepare env fuel v url wait insecure defloat hide_selectors
            isi_reached timeout_ms settle)
    with (call env v (SetDefaultTimeout timeout_ms) ;;;
          try_except_pw (call env v (Goto url wait))
                        (call env v (Goto url "domcontentloaded")) ;;;
          prepare_steps fuel defloat hide_selectors isi_reached settle)%page.
  unfold bind, try_except_pw, call. cbv zeta.
  destruct (env h v (SetDefaultTimeout timeout_ms)) as [x0|e0]; [|done].
  destruct (env _ v (Goto url wait)) as [x1|[]]; [done| |done].
  by destruct (env _ v (Goto url "domcontentloaded")).
Qed.

(** A run in which a navigation attempt returned and no call stood in the
    way has completed and has evaluated the enabled scripts, in order. *)
Lemma nav_and_prepare_unbroken fuel insecure defloat hide_selectors
    isi_reached timeout_ms settle h t :
  snd (nav_and_prepare env fuel v url wait insecure defloat hide_selectors
         isi_reached timeout_ms settle h) = (t ++ h)%list ->
  fst (nav_and_prepare env fuel v url wait insecure defloat hide_selectors
         isi_reached timeout_ms settle h) <> OutOfFuel ->
  unbroken url wait t = true -> has navigated t = true ->
  nav_and_prepare env fuel v url wait insecure defloat hide_selectors
    isi_reached timeout_ms settle h = (Done tt, (t ++ h)%list)
  /\ directives_run v t
     = enabled_directives defloat hide_selectors isi_reached settle.
Proof.
  rewrite nav_and_prepare_cases. cbv zeta.
  intros Hh Hfuel Hun%unbroken_not_broken Hnav.
  assert (Hrest : forall pre,
    snd (prepare_steps fuel defloat hide_selectors isi_reached settle
           (pre ++ h)%list) = (t ++ h)%list ->
    fst (prepare_steps fuel defloat hide_selectors isi_reached settle
           (pre ++ h)%list) <> OutOfFuel ->
    directives_run v pre = [] ->
    prepare_steps fuel defloat hide_selectors isi_reached settle
      (pre ++ h)%list = (Done tt, (t ++ h)%list)
    /\ directives_run v t
       = enabled_directives defloat hide_selectors isi_reached settle).
  { intros pre Hs Hf Hpre.
    destruct (steps_prepare fuel defloat hide_selectors isi_reached settle
                (pre ++ h)%list) as (t' & Ht' & _ & Hr).
    rewrite Ht', app_assoc in Hs. apply app_inv_tail in Hs. subst t.
    destruct (prepare_steps fuel defloat hide_selectors isi_reached settle
                (pre ++ h)%list) as [[[]|e|] h'] eqn:Hp;
      cbn [fst snd] in *.
    - split; [by rewrite Ht', app_assoc|].
      by rewrite directives_run_app, Hpre, Hr.
    - rewrite has_app, Hr in Hun. discriminate Hun.
    - done. }
  destruct (env h v (SetDefaultTimeout timeout_ms)) as [x0|e0].
  2:{ cbn [snd] in Hh.
      apply (app_inv_tail h [_] t) in Hh. subst t. by destruct e0. }
  destruct (env _ v (Goto url wait)) as [x1|[]].
  - apply (Hrest [(v, Goto url wait, Returns x1);
                  (v, SetDefaultTimeout timeout_ms, Returns x0)]); done.
  - destruct (env _ v (Goto url "domcontentloaded")) as [x2|e2].
    + apply (Hrest [(v, Goto url "domcontentloaded", Returns x2);
                    (v, Goto url wait, Raises PWError);
                    (v, SetDefaultTimeout timeout_ms, Returns x0)]);
        done.
    + cbn [snd] in Hh.
      apply (app_inv_tail h [_; _; _] t) in Hh. subst t. done.
  - cbn [snd] in Hh.
    apply (app_inv_tail h [_; _] t) in Hh. subst t.
    unfold has, broken in Hun. cbn in Hun. discriminate Hun.
Qed.

(** ** More fuel changes nothing once the loop has ended *)

Definition extends {A} (m1 m2 : M A) : Prop :=
  forall h, fst (m1 h) <> OutOfFuel -> m2 h = m1 h.

Lemma extends_refl {A} (m : M A) : extends m m.
Proof. by intros h _. Qed.

Lemma extends_bind {A B} (m1 m2 : M A) (f1 f2 : A -> M B) :
  extends m1 m2 -> (forall a, extends (f1 a) (f2 a)) ->
  extends (bind m1 f1) (bind m2 f2).
Proof.
  intros Hm Hf h. unfold bind. intros Hne.
  destruct (m1 h) as [[a|e|] h1] eqn:H1; cbn [fst] in Hne; [| |done].
  - rewrite (Hm h) by (by rewrite H1). rewrite H1. by apply Hf.
  - rewrite (Hm h) by (by rewrite H1). by rewrite H1.
Qed.

Lemma extends_when (b : bool) (m1 m2 : M unit) :
  extends m1 m2 -> extends (when b m1) (when b m2).
Proof. destruct b; [done|]. intros _. apply extends_refl. Qed.

Lemma extends_scroll_loop (fuel k : nat) (step pause_ms y : Z) :
  extends (scroll_loop env fuel v step pause_ms y)
          (scroll_loop env (fuel + k) v step pause_ms y).
Proof.
  revert y. induction fuel as [|fuel IH]; intros y; [by intros h []|].
  cbn [Nat.add scroll_loop].
  apply extends_bind; [apply extends_refl|intros _].
  apply extends_bind; [apply extends_refl|intros _].
  apply extends_bind; [apply extends_refl|intros new_h].
  destruct (as_number new_h) as [n|]; [|apply extends_refl].
  destruct (y >=? n)%Z; [apply extends_refl|apply IH].
Qed.

Lemma nav_and_prepare_more_fuel fuel k insecure defloat hide_selectors
    isi_reached timeout_ms settle :
  extends (nav_and_prepare env fuel v url wait insecure defloat
             hide_selectors isi_reached timeout_ms settle)
          (nav_and_prepare env (fuel + k) v url wait insecure defloat
             hide_selectors isi_reached timeout_ms settle).
Proof.
  unfold nav_and_prepare, progressive_scroll.
  apply extends_bind; [apply extends_refl|intros _].
  apply extends_bind; [apply extends_refl|intros _].
  apply extends_bind; [|intros _; apply extends_refl].
  apply extends_when.
  apply extends_bind; [apply extends_scroll_loop|intros _; apply extends_refl].
Qed.

(** The navigations of a run: the first attempt, and the retry exactly
    when that attempt failed with the library's error. *)
Lemma nav_and_prepare_navigations fuel insecure defloat hide_selectors
    isi_reached timeout_ms settle h :
  exists t,
    snd (nav_and_prepare env fuel v url wait insecure defloat hide_selectors
           isi_reached timeout_ms settle h) = (t ++ h)%list
    /\ ((exists e,
           t = [(v, SetDefaultTimeout timeout_ms, Raises e)]
           /\ fst (nav_and_prepare env fuel v url wait insecure defloat
                     hide_selectors isi_reached timeout_ms settle h)
              = Raised e)
        \/ (exists o,
              navigations v t = [(url, wait, o)]
              /\ o <> Raises PWError
              /\ forall e, o = Raises e ->
                   fst (nav_and_prepare env fuel v url wait insecure defloat
                          hide_selectors isi_reached timeout_ms settle h)
                   = Raised e
                   /\ has is_evaluation t = false)
        \/ (exists o,
              navigations v t
              = [(url, wait, Raises PWError); (url, "domcontentloaded", o)]
              /\ forall e, o = Raises e ->
                   fst (nav_and_prepare env fuel v url wait insecure defloat
                          hide_selectors isi_reached timeout_ms settle h)
                   = Raised e
                   /\ has is_evaluation t = false)).
Proof.
  rewrite nav_and_prepare_cases. cbv zeta.
  assert (Hnone : forall t', Forall (fun ev => is_goto ev = false) t' ->
                             navigations v t' = []).
  { intros t' Ht'. unfold navigations. rewrite <- (rev_involutive t') in Ht'.
    apply Forall_rev in Ht'. rewrite rev_involutive in Ht'.
    induction Ht' as [|[[w c] o] l Hev _ IH]; [done|].
    cbn [flat_map]. rewrite IH. by destruct c. }
  assert (Happ : forall t2 t1,
             navigations v (t2 ++ t1)
             = (navigations v t1 ++ navigations v t2)%list).
  { intros t2 t1. unfold navigations. by rewrite rev_app_distr, flat_map_app. }
  destruct (env h v (SetDefaultTimeout timeout_ms)) as [x0|e0].
  2:{ exists [(v, SetDefaultTimeout timeout_ms, Raises e0)].
      split; [done|]. left. by exists e0. }
  destruct (env _ v (Goto url wait)) as [x1|[]].
  - destruct (steps_prepare fuel defloat hide_selectors isi_reached settle
                ((v, Goto url wait, Returns x1)
                 :: (v, SetDefaultTimeout timeout_ms, Returns x0) :: h))
      as (t' & Ht' & Hg & _).
    exists (t' ++ [(v, Goto url wait, Returns x1);
                   (v, SetDefaultTimeout timeout_ms, Returns x0)])%list.
    split; [by rewrite Ht', <- app_assoc|]. right. left.
    exists (Returns x1). rewrite Happ, (Hnone t' Hg).
    split; [unfold navigations; cbn; by rewrite viewport_eqb_refl|].
    split; [done|]. intros e He. discriminate He.
  - destruct (env _ v (Goto url "domcontentloaded")) as [x2|e2].
    + destruct (steps_prepare fuel defloat hide_selectors isi_reached settle
                  ((v, Goto url "domcontentloaded", Returns x2)
                   :: (v, Goto url wait, Raises PWError)
                   :: (v, SetDefaultTimeout timeout_ms, Returns x0) :: h))
        as (t' & Ht' & Hg & _).
      exists (t' ++ [(v, Goto url "domcontentloaded", Returns x2);
                     (v, Goto url wait, Raises PWError);
                     (v, SetDefaultTimeout timeout_ms, Returns x0)])%list.
      split; [by rewrite Ht', <- app_assoc|]. right. right.
      exists (Returns x2). rewrite Happ, (Hnone t' Hg).
      split; [unfold navigations; cbn; by rewrite viewport_eqb_refl|].
      intros e He. discriminate He.
    + exists [(v, Goto url "domcontentloaded", Raises e2);
              (v, Goto url wait, Raises PWError);
              (v, SetDefaultTimeout timeout_ms, Returns x0)].
      split; [done|]. right. right. exists (Raises e2).
      split; [unfold navigations; cbn; by rewrite viewport_eqb_refl|].
      intros e [= <-]. done.
  - exists [(v, Goto url wait, Raises OtherError);
            (v, SetDefaultTimeout timeout_ms, Returns x0)].
    split; [done|]. right. left. exists (Raises OtherError).
    split; [unfold navigations; cbn; by rewrite viewport_eqb_refl|].
    split; [done|]. intros e [= <-]. done.
Qed.

End AnyPage.

(** ** Page preparation *)

(** C5, as the code has it.  A preparation in which a navigation attempt
    returns (the first one, or the retry after the library's error), no
    other call on the page fails, every height read is a number and the
    settle loop ends, completes, and has evaluated exactly the enabled
    normalization scripts, in order; more iterations allowed change
    nothing.  No evaluation failure is caught: whenever [nav_and_prepare]
    completes, none of its evaluations has raised. *)
Theorem nav_and_prepare_evaluations
    (env : Env) (v : Viewport) (fuel0 : nat) (h : History) (t : list Event)
    (url wait : string) (insecure defloat : bool) (hide_selectors : string)
    (isi_reached : bool) (timeout_ms : Z) (settle : bool)
    (Hrun : snd (nav_and_prepare env fuel0 v url wait insecure defloat
                   hide_selectors isi_reached timeout_ms settle h)
            = (t ++ h)%list)
    (Hends : fst (nav_and_prepare env fuel0 v url wait insecure defloat
                    hide_selectors isi_reached timeout_ms settle h)
             <> OutOfFuel)
    (Hcalls : unbroken url wait t = true)
    (Hnav : has navigated t = true)
    (env2 : Env) (fuel2 : nat) (h2 : History)
    (Hdone : is_done (fst (nav_and_prepare env2 fuel2 v url wait insecure
                             defloat hide_selectors isi_reached timeout_ms
                             settle h2)) = true) :
  (forall fuel, fuel0 <= fuel ->
     nav_and_prepare env fuel v url wait insecure defloat hide_selectors
       isi_reached timeout_ms settle h = (Done tt, (t ++ h)%list))
  /\ directives_run v t
     = enabled_directives defloat hide_selectors isi_reached settle
  /\ (exists t2,
        snd (nav_and_prepare env2 fuel2 v url wait insecure defloat
               hide_selectors isi_reached timeout_ms settle h2)
        = (t2 ++ h2)%list
        /\ Forall (fun ev => eval_raised ev = false) t2).
Proof.
  destruct (nav_and_prepare_unbroken env v url wait fuel0 insecure defloat
              hide_selectors isi_reached timeout_ms settle h t Hrun Hends
              Hcalls Hnav) as [Hdone0 Hds].
  split; [|split; [exact Hds|]].
  - intros fuel Hle. replace fuel with (fuel0 + (fuel - fuel0)) by lia.
    rewrite <- Hdone0.
    apply (nav_and_prepare_more_fuel env v url wait fuel0 (fuel - fuel0)).
    exact Hends.
  - destruct (traced_nav_and_prepare env2 v fuel2 url wait insecure defloat
                hide_selectors isi_reached timeout_ms settle h2)
      as (t2 & Hh & _ & Hd).
    exists t2. split; [done|]. by apply Hd.
Qed.

Lemma nav_and_prepare_evaluations_witness :
  (forall fuel, 4 <= fuel ->
     nav_and_prepare page_slow_start fuel Desktop "https://x.com/" "load"
       false true ".banner" true 60000 true []
     = (Done tt,
        (snd (nav_and_prepare page_slow_start 4 Desktop "https://x.com/"
                "load" false true ".banner" true 60000 true []) ++ [])%list))
  /\ directives_run Desktop
       (snd (nav_and_prepare page_slow_start 4 Desktop "https://x.com/"
               "load" false true ".banner" true 60000 true []))
     = enabled_directives true ".banner" true true
  /\ (exists t2,
        snd (nav_and_prepare page_without_modal 3 Desktop "https://x.com/"
               "load" false true ".banner" true 60000 true [])
        = (t2 ++ [])%list
        /\ Forall (fun ev => eval_raised ev = false) t2).
Proof.
  apply (nav_and_prepare_evaluations page_slow_start Desktop 4 []
           (snd (nav_and_prepare page_slow_start 4 Desktop "https://x.com/"
                   "load" false true ".banner" true 60000 true []))
           "https://x.com/" "load" false true ".banner" true 60000 true
           (eq_sym (app_nil_r _))
           ltac:(vm_compute; discriminate)
           ltac:(vm_compute; reflexivity)
           ltac:(vm_compute; reflexivity)
           page_without_modal 3 []).
  reflexivity.
Defined.

(** C5 as stated fails: after a successful navigation the ISI evaluation
    raises; [nav_and_prepare] raises with it, the freeze and defloat steps
    that were enabled do not run, and the capture of the target takes no
    screenshot. *)
Lemma nav_and_prepare_counterexample :
  fst (nav_and_prepare page_isi_raises 3 Desktop "https://x.com/" "load"
         false true "" true 60000 true []) = Raised PWError
  /\ directives_run Desktop
       (snd (nav_and_prepare page_isi_raises 3 Desktop "https://x.com/" "load"
               false true "" true 60000 true [])) = [MarkIsiReached]
  /\ enabled_directives true "" true true
     = [MarkIsiReached; MarkAllViewedAndFreeze; DefloatScript;
        ClearBannerOffsets]
  /\ fst (capture_single_url page_isi_raises 3 "https://x.com/" "out" false
            60000 true "" true "home" true false []) = Raised PWError
  /\ has (fun ev => full_shot_ok Desktop ev || full_shot_ok Mobile ev
                    || popup_shot_ok Desktop ev || popup_shot_ok Mobile ev)
       (snd (capture_single_url page_isi_raises 3 "https://x.com/" "out"
               false 60000 true "" true "home" true false [])) = false.
Proof. by vm_compute. Qed.

(** ** Modal capture *)

(** C4 at a page on which the modal is detected and the evaluation of the
    bounding-box script then raises: [try_capture_modal_only] raises, and
    the capture of the target with it.  A modal that is not detected, a
    detection that raises, a bounding-box script that finds no box and a
    region screenshot that raises all give [None]. *)
Theorem try_capture_modal_only_bbox_error :
  fst (try_capture_modal_only page_bbox_raises Desktop
         "out/desktop/home_popup_dt.png" []) = Raised PWError
  /\ fst (capture_single_url page_bbox_raises 3 "https://x.com/" "out" false
            60000 false "" false "home" true false []) = Raised PWError
  /\ fst (try_capture_modal_only page_without_modal Desktop
            "out/desktop/home_popup_dt.png" []) = Done None
  /\ fst (try_capture_modal_only page_detect_raises Desktop
            "out/desktop/home_popup_dt.png" []) = Done None
  /\ fst (try_capture_modal_only page_bbox_null Desktop
            "out/desktop/home_popup_dt.png" []) = Done None
  /\ fst (try_capture_modal_only page_shot_raises Desktop
            "out/desktop/home_popup_dt.png" []) = Done None.
Proof. by vm_compute. Qed.

(** C1. The images [capture_single_url] returns are, in order, the popup
    image of the desktop page when its region screenshot succeeded, the
    desktop full page, the popup image of the mobile page when its region
    screenshot succeeded, and the mobile full page: four images when both
    popups were captured, two when neither was.  On pages where no call
    fails the function does return such a list. *)
Theorem capture_single_url_order
    (env : Env) (H : Z) (fuel : nat) (h : History)
    (url out_dir : string) (insecure : bool) (nav_timeout_ms : Z)
    (defloat : bool) (hide_selectors : string) (isi_reached : bool)
    (base_name : string) (settle no_modal_shot : bool)
    (Hq : forall v, quiet env v) (Hb : forall v, bbox_answers env v)
    (Hc : forall v, constant_height env v H) (Hfuel : steps_needed H < fuel)
    (env2 : Env) (fuel2 : nat) (h2 : History) (imgs2 : list string)
    (Hrun2 : fst (capture_single_url env2 fuel2 url out_dir insecure
                    nav_timeout_ms defloat hide_selectors isi_reached
                    base_name settle no_modal_shot h2) = Done imgs2) :
  (exists imgs t,
      capture_single_url env fuel url out_dir insecure nav_timeout_ms defloat
        hide_selectors isi_reached base_name settle no_modal_shot h
      = (Done imgs, (t ++ h)%list)
      /\ imgs = (images_of out_dir base_name Desktop t
                 ++ images_of out_dir base_name Mobile t)%list)
  /\ (exists t2,
        snd (capture_single_url env2 fuel2 url out_dir insecure nav_timeout_ms
               defloat hide_selectors isi_reached base_name settle
               no_modal_shot h2) = (t2 ++ h2)%list
        /\ imgs2 = (images_of out_dir base_name Desktop t2
                    ++ images_of out_dir base_name Mobile t2)%list
        /\ (has (popup_shot_ok Desktop) t2 = true ->
            has (popup_shot_ok Mobile) t2 = true ->
            imgs2 = [popup_png out_dir base_name Desktop;
                     full_png out_dir base_name Desktop;
                     popup_png out_dir base_name Mobile;
                     full_png out_dir base_name Mobile])
        /\ (has (popup_shot_ok Desktop) t2 = false ->
            has (popup_shot_ok Mobile) t2 = false ->
            imgs2 = [full_png out_dir base_name Desktop;
                     full_png out_dir base_name Mobile])).
Proof.
  split.
  - destruct (capture_single_url_completes env H fuel url out_dir insecure
                nav_timeout_ms defloat hide_selectors isi_reached base_name
                settle no_modal_shot h Hq Hb Hc Hfuel) as [imgs Himgs].
    destruct (capture_single_url_trace env fuel url out_dir insecure
                nav_timeout_ms defloat hide_selectors isi_reached base_name
                settle no_modal_shot h) as (t & Hh & _ & Hshape).
    destruct (Hshape imgs Himgs) as [-> _].
    exists (images_of out_dir base_name Desktop t
            ++ images_of out_dir base_name Mobile t)%list, t.
    split; [|done]. rewrite <- Hh, <- Himgs. apply surjective_pairing.
  - destruct (capture_single_url_trace env2 fuel2 url out_dir insecure
                nav_timeout_ms defloat hide_selectors isi_reached base_name
                settle no_modal_shot h2) as (t2 & Hh & _ & Hshape).
    destruct (Hshape imgs2 Hrun2) as [-> _].
    exists t2. split; [done|]. split; [done|].
    unfold images_of. split; intros -> ->; reflexivity.
Qed.

Lemma capture_single_url_order_witness :
  fst (capture_single_url page_with_modal 3 "x.com" "out" false 60000 true ""
         false "home" true false [])
  = Done ["out/desktop/home_popup_dt.png"; "out/desktop/home_dt.png";
          "out/mobile/home_popup_mb.png"; "out/mobile/home_mb.png"]
  /\ fst (capture_single_url page_without_modal 3 "x.com" "out" false 60000
            true "" false "home" true false [])
     = Done ["out/desktop/home_dt.png"; "out/mobile/home_mb.png"].
Proof.
  destruct (capture_single_url_order page_with_modal 1600 3 [] "x.com" "out"
              false 60000 true "" false "home" true false
              (fun v => quiet_scripted _ _ _ v)
              (fun v h => or_intror (ex_intro _ (mkBox 10 200 400 300) eq_refl))
              (fun _ _ => eq_refl) ltac:(vm_compute; lia)
              page_without_modal 3 []
              ["out/desktop/home_dt.png"; "out/mobile/home_mb.png"]
              ltac:(vm_compute; reflexivity))
    as [(imgs & t & Hrun & Himgs) (t2 & Hh2 & Himgs2 & _)].
  split.
  - pose proof Hrun as Hc. vm_compute in Hc. injection Hc as Hi _.
    rewrite Hrun. cbn [fst]. rewrite <- Hi. reflexivity.
  - vm_compute. reflexivity.
Defined.

(** C10 at a page on which a modal is detected and the evaluation of the
    bounding-box script then raises: the popup capture gives no image and
    no close is evaluated, but no full-page screenshot is taken either, on
    any viewport: the error leaves [capture_single_url].  For the rest the
    code does what the claim says: the close script is evaluated on a
    viewport only when the popup image of that viewport was captured, and
    a capture that completes without the popup image of a viewport
    (capture disabled, no box, or the region screenshot failed) evaluated
    no close there and took the full-page screenshot all the same. *)
Theorem close_only_after_popup
    (env : Env) (fuel : nat) (h : History)
    (url out_dir : string) (insecure : bool) (nav_timeout_ms : Z)
    (defloat : bool) (hide_selectors : string) (isi_reached : bool)
    (base_name : string) (settle no_modal_shot : bool) (v : Viewport)
    (r : Result (list string)) (h' : History)
    (Hrun : capture_single_url env fuel url out_dir insecure nav_timeout_ms
              defloat hide_selectors isi_reached base_name settle
              no_modal_shot h = (r, h')) :
  (fst bbox_error_run = Raised PWError
   /\ has (modal_detected Desktop) (snd bbox_error_run) = true
   /\ has (bbox_raised Desktop) (snd bbox_error_run) = true
   /\ has (popup_shot_ok Desktop) (snd bbox_error_run) = false
   /\ has (is_close Desktop) (snd bbox_error_run) = false
   /\ has (full_shot_ok Desktop) (snd bbox_error_run) = false
   /\ has (full_shot_ok Mobile) (snd bbox_error_run) = false)
  /\ exists t,
       h' = (t ++ h)%list
       /\ (has (is_close v) t = true -> has (popup_shot_ok v) t = true)
       /\ (is_done r = true -> has (popup_shot_ok v) t = false ->
           has (is_close v) t = false /\ has (full_shot_ok v) t = true).
Proof.
  split; [by vm_compute|].
  destruct (capture_single_url_trace env fuel url out_dir insecure
              nav_timeout_ms defloat hide_selectors isi_reached base_name
              settle no_modal_shot h) as (t & Hh & Hclose & Hshape).
  rewrite Hrun in Hh, Hshape. simpl in Hh, Hshape.
  exists t. split; [done|]. split; [by apply Hclose|].
  intros Hdone Hno. destruct r as [imgs| |]; try done.
  destruct (Hshape imgs eq_refl) as (_ & Hnc & Hfull).
  split; [by apply Hnc|done].
Qed.

Lemma close_only_after_popup_witness :
  exists t,
    snd (capture_single_url page_bbox_null 3 "x.com" "out" false 60000 false
           "" false "home" true false []) = (t ++ [])%list
    /\ has (modal_detected Desktop) t = true
    /\ has (is_close Desktop) t = false
    /\ has (full_shot_ok Desktop) t = true.
Proof.
  destruct (close_only_after_popup page_bbox_null 3 [] "x.com" "out" false
              60000 false "" false "home" true false Desktop _ _
              (surjective_pairing _)) as (_ & t & Hh & _ & Hno).
  exists t. split; [exact Hh|].
  rewrite app_nil_r in Hh. subst t.
  split; [vm_compute; reflexivity|].
  apply Hno; vm_compute; reflexivity.
Defined.

(** ** The defloat script *)

Module DefloatFacts.
Import Defloat.

Lemma lookup_update_eq (i : nat) (f : Element -> Element) (p : Page) :
  update i f p !! i = f <$> p !! i.
Proof.
  unfold update. destruct (p !! i) as [e|] eqn:He; simpl.
  - apply list_lookup_insert_eq. by eapply lookup_lt_Some.
  - by rewrite He.
Qed.

Lemma lookup_update_ne (i j : nat) (f : Element -> Element) (p : Page) :
  i <> j -> update i f p !! j = p !! j.
Proof.
  intros Hne. unfold update. destruct (p !! i); [|done].
  by apply list_lookup_insert_ne.
Qed.

Lemma length_update (i : nat) (f : Element -> Element) (p : Page) :
  length (update i f p) = length p.
Proof. unfold update. destruct (p !! i); [|done]. apply length_insert. Qed.

Section Idempotence.
Variable E : Engine.
Hypothesis Hwins : inline_position_wins E.
Hypothesis Hlocal : position_local E.

Lemma makeAbsolute_spec (i : nat) (p : Page) (seen : gset nat) (e : Element) :
  i ∉ seen -> p !! i = Some e ->
  length (fst (makeAbsolute E i (p, seen))) = length p
  /\ (forall j, i <> j -> fst (makeAbsolute E i (p, seen)) !! j = p !! j)
  /\ (exists e', fst (makeAbsolute E i (p, seen)) !! i = Some e'
                 /\ style_position e' = Some PosAbsolute)
  /\ snd (makeAbsolute E i (p, seen)) = {[i]} ∪ seen.
Proof.
  intros Hi He. unfold makeAbsolute. rewrite decide_False by done.
  cbv zeta.
  repeat match goal with
         | |- context [match ?x with Some _ => _ | None => _ end] =>
             destruct x as [[]|] eqn:?
         | |- context [match ?x with Some _ => _ | None => _ end] =>
             destruct x eqn:?
         end; simpl;
    (split; [by rewrite !length_update|]);
    (split; [by intros j Hj; rewrite !lookup_update_ne|]);
    (split; [|done]);
    rewrite !lookup_update_eq, He; simpl; by eexists.
Qed.

Lemma visit_spec (i : nat) (p : Page) (seen : gset nat) (e : Element) :
  i ∉ seen -> p !! i = Some e ->
  length (fst (visit E (p, seen) i)) = length p
  /\ (forall j, i <> j -> fst (visit E (p, seen) i) !! j = p !! j)
  /\ settled E (fst (visit E (p, seen) i)) i
  /\ snd (visit E (p, seen) i) ⊆ {[i]} ∪ seen.
Proof.
  intros Hi He. unfold visit.
  destruct (decide (computed_position E (fst (p, seen)) i = PosFixed)) as [Hf|Hf].
  - destruct (makeAbsolute_spec i p seen e Hi He)
      as (Hlen & Hoth & (e' & He' & Hpos) & Hseen).
    pose proof (Hwins _ _ _ _ He' Hpos) as Hcp.
    rewrite decide_False by (rewrite Hcp; done).
    split; [done|]. split; [done|].
    split; [unfold settled; rewrite Hcp; done|].
    rewrite Hseen. set_solver.
  - simpl in *.
    destruct (decide (computed_position E p i = PosSticky)) as [Hs|Hs]; simpl.
    + split; [by rewrite !length_update|].
      split; [by intros j Hj; rewrite !lookup_update_ne|].
      split; [|set_solver].
      assert (Hcp : computed_position E
                (update i (set_top LenAuto)
                   (update i (set_position PosStatic)
                      (update i (set_attr "data-desticky" "1") p))) i
              = PosStatic).
      { eapply Hwins.
        - rewrite !lookup_update_eq, He. reflexivity.
        - reflexivity. }
      unfold settled. rewrite Hcp. done.
    + split; [done|]. split; [done|]. split; [done|set_solver].
Qed.

Lemma visit_settled (i : nat) (p : Page) (seen : gset nat) :
  settled E p i -> visit E (p, seen) i = (p, seen).
Proof.
  intros [Hf Hs]. unfold visit. cbn [fst snd].
  destruct (decide (computed_position E p i = PosFixed)); [done|].
  cbn [fst snd].
  destruct (decide (computed_position E p i = PosSticky)); done.
Qed.

Lemma settled_local (p p' : Page) (j : nat) :
  p' !! j = p !! j -> settled E p j -> settled E p' j.
Proof.
  intros Heq. unfold settled. by rewrite (Hlocal p' p j Heq).
Qed.

(** Visiting the elements [k], [k+1], ... in turn settles each of them
    and keeps the earlier ones settled. *)
Lemma foldl_visit_settles (m k : nat) (p : Page) (seen : gset nat) :
  (forall x, x ∈ seen -> x < k) ->
  k + m = length p ->
  (forall j, j < k -> settled E p j) ->
  length (fst (foldl (visit E) (p, seen) (seq k m))) = length p
  /\ forall j, j < k + m ->
               settled E (fst (foldl (visit E) (p, seen) (seq k m))) j.
Proof.
  revert k p seen. induction m as [|m IH]; intros k p seen Hseen Hlen Hset.
  - simpl. split; [done|]. intros j Hj. apply Hset. lia.
  - simpl.
    destruct (lookup_lt_is_Some_2 p k ltac:(lia)) as [e He].
    assert (Hk : k ∉ seen) by (intros Hin; apply Hseen in Hin; lia).
    destruct (visit_spec k p seen e Hk He) as (Hl1 & Hoth & Hsk & Hs1).
    destruct (visit E (p, seen) k) as [p1 seen1] eqn:Hv. simpl in *.
    destruct (IH (S k) p1 seen1) as [Hl2 Hall].
    + intros x Hx. apply Hs1 in Hx. apply elem_of_union in Hx as [Hx|Hx].
      * apply elem_of_singleton in Hx. lia.
      * apply Hseen in Hx. lia.
    + lia.
    + intros j Hj. destruct (decide (j = k)) as [->|Hne]; [done|].
      apply (settled_local p); [by apply Hoth|]. apply Hset. lia.
    + split; [lia|]. intros j Hj. apply Hall. lia.
Qed.

Lemma foldl_visit_fixpoint (l : list nat) (p : Page) (seen : gset nat) :
  (forall j, j ∈ l -> settled E p j) ->
  foldl (visit E) (p, seen) l = (p, seen).
Proof.
  induction l as [|i l IH]; intros Hall; [done|]. simpl.
  rewrite visit_settled by (apply Hall; left).
  apply IH. intros j Hj. apply Hall. by right.
Qed.

Lemma defloat_twice (p : Page) : defloat E (defloat E p) = defloat E p.
Proof.
  unfold defloat at 1.
  destruct (foldl_visit_settles (length p) 0 p ∅) as [Hlen Hall].
  - set_solver.
  - done.
  - intros j Hj. lia.
  - fold (defloat E p) in Hlen, Hall.
    rewrite foldl_visit_fixpoint; [done|].
    intros j Hj. apply Hall. apply elem_of_seq in Hj. lia.
Qed.

End Idempotence.

Lemma plain_cascade_wins : inline_position_wins plain_cascade.
Proof. intros p i e q He Hq. simpl. by rewrite He; simpl; rewrite Hq. Qed.

Lemma plain_cascade_local : position_local plain_cascade.
Proof. intros p p' i Heq. simpl. by rewrite Heq. Qed.

(** C9, as the code has it.  When the inline position the first run writes
    takes effect (it is the computed position, and an element's computed
    position depends on that element alone), a second run of the defloat
    script meets no fixed or sticky element and changes nothing: no
    attribute and no inline style of any element. *)
Theorem defloat_idempotent (E : Engine) (p : Page)
    (Hwins : inline_position_wins E) (Hlocal : position_local E) :
  defloat E (defloat E p) = defloat E p.
Proof. by apply defloat_twice. Qed.

Lemma defloat_idempotent_witness :
  defloat plain_cascade (defloat plain_cascade [blank 0; blank 1; blank 2])
  = defloat plain_cascade [blank 0; blank 1; blank 2].
Proof.
  apply (defloat_idempotent plain_cascade [blank 0; blank 1; blank 2]
           plain_cascade_wins plain_cascade_local).
Defined.

(** C9 as stated fails: under a style sheet rule that keeps an element
    fixed whatever its inline position, the second run processes the
    element again and moves its inline [top] from 100 to 200 pixels. *)
Lemma defloat_counterexample :
  style_top <$> defloat important_fixed [blank 1] !! 0 = Some (LenPx 100)
  /\ style_top <$> defloat important_fixed
                     (defloat important_fixed [blank 1]) !! 0
     = Some (LenPx 200)
  /\ defloat important_fixed (defloat important_fixed [blank 1])
     <> defloat important_fixed [blank 1].
Proof.
  split; [by vm_compute|]. split; [by vm_compute|].
  intros Heq. apply (f_equal (fun p => style_top <$> p !! 0)) in Heq.
  vm_compute in Heq. discriminate.
Qed.

End DefloatFacts.

(** * Further properties *)

(** ** Text lemmas *)

Section TextFacts.
Implicit Types (p q : ascii -> bool) (s : string) (c : ascii).

Lemma all_chars_app q s1 s2 :
  all_chars q (s1 +:+ s2) = all_chars q s1 && all_chars q s2.
Proof. induction s1 as [|c s1 IH]; simpl; [done|]. by rewrite IH, andb_assoc. Qed.

Lemma is_empty_app s1 s2 : is_empty (s1 +:+ s2) = is_empty s1 && is_empty s2.
Proof. by destruct s1. Qed.

Lemma all_chars_lstrip q p s :
  all_chars q s = true -> all_chars q (lstrip_by p s) = true.
Proof.
  induction s as [|c s IH]; simpl; [done|]. intros H.
  apply andb_prop in H as [Hc Hs]. destruct (p c); [by apply IH|].
  simpl. by rewrite Hc, Hs.
Qed.

Lemma all_chars_rstrip q p s :
  all_chars q s = true -> all_chars q (rstrip_by p s) = true.
Proof.
  induction s as [|c s IH]; simpl; [done|]. intros H.
  apply andb_prop in H as [Hc Hs]. specialize (IH Hs).
  destruct (rstrip_by p s) as [|d r]; [destruct (p c); simpl; by rewrite ?Hc|].
  simpl in *. by rewrite Hc, IH.
Qed.

Lemma all_chars_sub_runs q p b s :
  q "-"%char = true -> all_chars q s = true ->
  all_chars q (sub_runs p b s) = true.
Proof.
  intros Hq. revert b. induction s as [|c s IH]; intros b; simpl; [done|].
  intros H. apply andb_prop in H as [Hc Hs].
  destruct (p c); [destruct b|]; simpl; rewrite ?Hq, ?Hc; by apply IH.
Qed.

Lemma sub_runs_replaces q p b s :
  q "-"%char = true -> (forall c, p c = false -> q c = true) ->
  all_chars q (sub_runs p b s) = true.
Proof.
  intros Hq Hp. revert b. induction s as [|c s IH]; intros b; simpl; [done|].
  destruct (p c) eqn:Hc; [destruct b|]; simpl; rewrite ?Hq, ?(Hp c Hc); by apply IH.
Qed.

Lemma sub_runs_not_empty p b s :
  b = false -> is_empty s = false -> is_empty (sub_runs p b s) = false.
Proof. intros ->. destruct s as [|c s]; [done|]. simpl. by destruct (p c). Qed.

Lemma sub_runs_id p b s :
  all_chars (fun c => negb (p c)) s = true -> sub_runs p b s = s.
Proof.
  revert b. induction s as [|c s IH]; intros b; simpl; [done|].
  intros H. apply andb_prop in H as [Hc Hs].
  destruct (p c); [done|]. by rewrite IH.
Qed.

Lemma lstrip_first p s :
  match lstrip_by p s with "" => True | String c _ => p c = false end.
Proof.
  induction s as [|c s IH]; simpl; [done|]. by destruct (p c) eqn:Hc.
Qed.

Lemma rstrip_first p s :
  match s with "" => True | String c _ => p c = false end ->
  match rstrip_by p s with "" => True | String c _ => p c = false end.
Proof.
  destruct s as [|c s]; simpl; [done|]. intros Hc.
  destruct (rstrip_by p s); [by rewrite Hc|done].
Qed.

Lemma rstrip_last p s d :
  p d = true -> endswith (rstrip_by p s) (String d "") = false.
Proof.
  intros Hd. induction s as [|c s IH]; simpl; [done|].
  destruct (rstrip_by p s) as [|e r] eqn:Hr.
  - destruct (p c) eqn:Hc; [done|]. simpl.
    destruct (Ascii.eqb c d) eqn:Hcd; [|done].
    apply Ascii.eqb_eq in Hcd. congruence.
  - change (endswith (String c (String e r)) (String d ""))
      with (if String.eqb (String c (String e r)) (String d "")
            then true else endswith (String e r) (String d "")).
    replace (String.eqb (String c (String e r)) (String d "")) with false;
      [exact IH|].
    simpl. by destruct (Ascii.eqb c d).
Qed.

Lemma lstrip_id p s :
  match s with "" => True | String c _ => p c = false end ->
  lstrip_by p s = s.
Proof. destruct s as [|c s]; simpl; [done|]. by intros ->. Qed.

Lemma rstrip_id p s d :
  (forall c, p c = true -> c = d) ->
  endswith s (String d "") = false -> rstrip_by p s = s.
Proof.
  intros Hp. induction s as [|c s IH]; [done|].
  change (endswith (String c s) (String d ""))
    with (if String.eqb (String c s) (String d "")
          then true else endswith s (String d "")).
  destruct (String.eqb (String c s) (String d "")) eqn:He; [done|].
  intros Hend. simpl. destruct s as [|e r].
  - simpl. destruct (p c) eqn:Hc; [|done].
    apply Hp in Hc as ->. simpl in He. by rewrite Ascii.eqb_refl in He.
  - by rewrite (IH Hend).
Qed.

Lemma rstrip_id_all p s :
  all_chars (fun c => negb (p c)) s = true -> rstrip_by p s = s.
Proof.
  induction s as [|c s IH]; simpl; [done|]. intros H.
  apply andb_prop in H as [Hc Hs]. rewrite (IH Hs).
  destruct s; [|done]. by destruct (p c).
Qed.

Lemma lstrip_id_all p s :
  all_chars (fun c => negb (p c)) s = true -> lstrip_by p s = s.
Proof. destruct s as [|c s]; simpl; [done|]. by destruct (p c). Qed.

Lemma no_double_tail c s :
  no_double_hyphen (String c s) = true -> no_double_hyphen s = true.
Proof. destruct s; [done|]. simpl. by intros [_ ?]%andb_prop. Qed.

Lemma no_double_lstrip p s :
  no_double_hyphen s = true -> no_double_hyphen (lstrip_by p s) = true.
Proof.
  induction s as [|c s IH]; [done|]. intros H. simpl.
  destruct (p c); [|done]. apply IH. by eapply no_double_tail.
Qed.

Lemma rstrip_prefix p s : exists t, s = rstrip_by p s +:+ t.
Proof.
  induction s as [|c s [t IH]]; [by exists ""|]. simpl.
  destruct (rstrip_by p s) as [|e r].
  - destruct (p c); [by eexists|]. exists s. done.
  - exists t. rewrite IH at 1. reflexivity.
Qed.

Lemma no_double_app_l s1 s2 :
  no_double_hyphen (s1 +:+ s2) = true -> no_double_hyphen s1 = true.
Proof.
  induction s1 as [|a s1 IH]; [done|]. intros H.
  destruct s1 as [|b s1]; [done|].
  change (negb (is_char "-" a && is_char "-" b)
          && no_double_hyphen (String b s1 +:+ s2) = true) in H.
  apply andb_prop in H as [H1 H2].
  change (negb (is_char "-" a && is_char "-" b)
          && no_double_hyphen (String b s1) = true).
  by rewrite H1, (IH H2).
Qed.

Lemma no_double_rstrip p s :
  no_double_hyphen s = true -> no_double_hyphen (rstrip_by p s) = true.
Proof.
  destruct (rstrip_prefix p s) as [t Ht]. intros H. rewrite Ht in H.
  by eapply no_double_app_l.
Qed.

Lemma no_double_cons2 a b s :
  no_double_hyphen (String a (String b s))
  = negb (is_char "-" a && is_char "-" b) && no_double_hyphen (String b s).
Proof. reflexivity. Qed.

Lemma startswith_hyphen c s : startswith (String c s) "-" = is_char "-" c.
Proof.
  unfold startswith, is_char. cbn [String.prefix].
  destruct (ascii_dec "-" c) as [<-|Hne]; [by destruct s|].
  symmetry. apply Ascii.eqb_neq. congruence.
Qed.

Lemma sub_runs_hyphen_shape b s :
  no_double_hyphen (sub_runs (is_char "-") b s) = true
  /\ (b = true -> startswith (sub_runs (is_char "-") b s) "-" = false).
Proof.
  revert b. induction s as [|c s IH]; intros b; [by destruct b|].
  simpl. destruct (is_char "-" c) eqn:Hc.
  - destruct b; [apply IH|].
    destruct (IH true) as [Hnd Hst]. split; [|done].
    specialize (Hst eq_refl).
    destruct (sub_runs (is_char "-") true s) as [|e r]; [done|].
    rewrite no_double_cons2, Hnd. rewrite startswith_hyphen in Hst.
    by rewrite Hst, andb_false_r.
  - destruct (IH false) as [Hnd _]. split.
    + destruct (sub_runs (is_char "-") false s) as [|e r]; [done|].
      by rewrite no_double_cons2, Hnd, Hc.
    + intros _. by rewrite startswith_hyphen.
Qed.

Lemma sub_runs_hyphen_id b s :
  no_double_hyphen s = true ->
  (b = true -> startswith s "-" = false) ->
  sub_runs (is_char "-") b s = s.
Proof.
  revert b. induction s as [|c s IH]; intros b Hnd Hb; [done|].
  simpl. rewrite startswith_hyphen in Hb.
  destruct (is_char "-" c) eqn:Hc.
  - destruct b; [by specialize (Hb eq_refl)|].
    unfold is_char in Hc. apply Ascii.eqb_eq in Hc. subst c.
    f_equal. apply IH; [by eapply no_double_tail|]. intros _.
    destruct s as [|e r]; [done|].
    rewrite no_double_cons2 in Hnd. apply andb_prop in Hnd as [Hne _].
    rewrite startswith_hyphen. by destruct (is_char "-" e).
  - f_equal. apply IH; [by eapply no_double_tail|done].
Qed.

Lemma slug_char_lower c : slug_char c = true -> lower_char c = c.
Proof. destruct c as [[] [] [] [] [] [] [] []]; by vm_compute. Qed.

Lemma slug_char_not_space c : slug_char c = true -> is_space c = false.
Proof. destruct c as [[] [] [] [] [] [] [] []]; by vm_compute. Qed.

Lemma slug_char_not_dot c : slug_char c = true -> Ascii.eqb c "." = false.
Proof. destruct c as [[] [] [] [] [] [] [] []]; by vm_compute. Qed.

Lemma lower_id s : all_chars slug_char s = true -> lower s = s.
Proof.
  induction s as [|c s IH]; simpl; [done|]. intros H.
  apply andb_prop in H as [Hc Hs]. by rewrite (slug_char_lower c Hc), IH.
Qed.

Lemma all_chars_impl p q s :
  (forall c, p c = true -> q c = true) ->
  all_chars p s = true -> all_chars q s = true.
Proof.
  intros Hpq. induction s as [|c s IH]; simpl; [done|]. intros H.
  apply andb_prop in H as [Hc Hs]. by rewrite (Hpq c Hc), IH.
Qed.

Lemma strip_page_suffix_id s :
  all_chars slug_char s = true -> strip_page_suffix s = s.
Proof.
  induction s as [|c s IH]; [done|]. intros H.
  pose proof H as H'. simpl in H'. apply andb_prop in H' as [Hc Hs].
  simpl. rewrite (slug_char_lower c Hc), (slug_char_not_dot c Hc), IH; done.
Qed.

End TextFacts.

(** ** Shape of slugs *)

Lemma slug_char_hyphen : slug_char "-" = true.
Proof. reflexivity. Qed.

Lemma slugify_segment_well_formed (s : string) :
  well_formed_segment (_slugify_segment s) = true.
Proof.
  unfold _slugify_segment.
  set (a := strip_page_suffix (lower (strip s))).
  set (b := sub_runs (fun c => negb (slug_char c)) false a).
  set (d := sub_runs (is_char "-") false b).
  assert (Hb : all_chars slug_char b = true).
  { apply sub_runs_replaces; [done|]. intros c Hc. by destruct (slug_char c). }
  assert (Hd : all_chars slug_char d = true) by by apply all_chars_sub_runs.
  destruct (sub_runs_hyphen_shape false b) as [Hnd _]. fold d in Hnd.
  unfold strip_by, or_default.
  pose proof (lstrip_first (is_char "-") d) as Hfirst.
  apply (rstrip_first (is_char "-")) in Hfirst.
  pose proof (rstrip_last (is_char "-") (lstrip_by (is_char "-") d) "-" eq_refl)
    as Hlast.
  assert (Hall : all_chars slug_char
                   (rstrip_by (is_char "-") (lstrip_by (is_char "-") d)) = true)
    by by apply all_chars_rstrip, all_chars_lstrip.
  assert (Hnd' : no_double_hyphen
                   (rstrip_by (is_char "-") (lstrip_by (is_char "-") d)) = true)
    by by apply no_double_rstrip, no_double_lstrip.
  destruct (rstrip_by (is_char "-") (lstrip_by (is_char "-") d)) as [|c r];
    [reflexivity|].
  unfold well_formed_segment. cbn [is_empty negb andb].
  by rewrite Hall, Hnd', Hlast, startswith_hyphen, Hfirst.
Qed.

Lemma well_formed_segment_fixed (r : string) :
  well_formed_segment r = true -> _slugify_segment r = r.
Proof.
  unfold well_formed_segment. intros H.
  apply andb_prop in H as [H Hnd]. apply andb_prop in H as [H Hend].
  apply andb_prop in H as [H Hst]. apply andb_prop in H as [Hne Hall].
  apply negb_true_iff in Hst, Hend, Hne.
  assert (Hsp : all_chars (fun c => negb (is_space c)) r = true).
  { eapply all_chars_impl; [|exact Hall]. intros c Hc.
    by rewrite (slug_char_not_space c Hc). }
  unfold _slugify_segment, strip, strip_by.
  rewrite (lstrip_id_all _ _ Hsp), (rstrip_id_all _ _ Hsp).
  rewrite (lower_id _ Hall), (strip_page_suffix_id _ Hall).
  rewrite (sub_runs_id (fun c => negb (slug_char c)) false r).
  2:{ eapply all_chars_impl; [|exact Hall]. intros c ->. done. }
  rewrite (sub_runs_hyphen_id false r Hnd) by done.
  rewrite lstrip_id.
  2:{ destruct r as [|c r]; [done|]. rewrite startswith_hyphen in Hst. done. }
  rewrite (rstrip_id _ r "-").
  - unfold or_default. by rewrite Hne.
  - intros c Hc. by apply Ascii.eqb_eq in Hc.
  - exact Hend.
Qed.

(** A slug segment is not empty, holds only lowercase letters, digits,
    hyphens and underscores, has no hyphen at either end and no two
    hyphens in a row; slugifying it again changes nothing. *)
Theorem slugify_segment_shape (s : string) :
  well_formed_segment (_slugify_segment s) = true
  /\ _slugify_segment (_slugify_segment s) = _slugify_segment s.
Proof.
  split; [apply slugify_segment_well_formed|].
  apply well_formed_segment_fixed, slugify_segment_well_formed.
Qed.

Lemma pretty_N_char_digit (x : N) : is_digit (pretty_N_char x) = true.
Proof. unfold pretty_N_char. by repeat case_match. Qed.

Lemma pretty_N_go_digits (x : N) (s : string) :
  all_chars is_digit s = true -> all_chars is_digit (pretty_N_go x s) = true.
Proof.
  revert s. induction (N.lt_wf_0 x) as [x _ IH]; intros s Hs.
  assert (x = 0 \/ 0 < x)%N as [->|Hx] by lia; [done|].
  rewrite pretty_N_go_step by done. apply IH; [by apply N.div_lt|].
  simpl. by rewrite pretty_N_char_digit, Hs.
Qed.

Lemma pretty_nat_digits (n : nat) : all_chars is_digit (pretty n) = true.
Proof.
  unfold pretty, pretty_nat, pretty, pretty_N.
  case_decide; [done|]. by apply pretty_N_go_digits.
Qed.

Lemma pretty_N_go_not_empty (x : N) (s : string) :
  is_empty s = false -> is_empty (pretty_N_go x s) = false.
Proof.
  revert s. induction (N.lt_wf_0 x) as [x _ IH]; intros s Hs.
  assert (x = 0 \/ 0 < x)%N as [->|Hx] by lia; [done|].
  rewrite pretty_N_go_step by done. apply IH; [by apply N.div_lt|done].
Qed.

Lemma pretty_nat_not_empty (n : nat) : is_empty (pretty n) = false.
Proof.
  unfold pretty, pretty_nat, pretty, pretty_N.
  case_decide as Hn; [done|].
  rewrite pretty_N_go_step by lia. by apply pretty_N_go_not_empty.
Qed.

Lemma numbered_slug_form (base : string) (used : gset string)
    (fuel n : nat) (s : string) :
  numbered_slug base used fuel n = Some s -> exists k, s = numbered base k.
Proof.
  revert n. induction fuel as [|fuel IH]; intros n; simpl;
    fold (numbered base n); case_decide; try done;
    try (intros [= <-]; by eexists). apply IH.
Qed.

Lemma well_formed_file_safe (s : string) :
  well_formed_segment s = true -> file_safe s = true.
Proof.
  unfold well_formed_segment, file_safe. intros H.
  apply andb_prop in H as [H _]. apply andb_prop in H as [H _].
  by apply andb_prop in H as [H _].
Qed.

Lemma file_safe_app (s1 s2 : string) :
  file_safe s1 = true -> all_chars slug_char s2 = true ->
  file_safe (s1 +:+ s2) = true.
Proof.
  unfold file_safe. intros [H1 H2]%andb_prop H3.
  rewrite is_empty_app, all_chars_app, H2, H3.
  apply negb_true_iff in H1. by rewrite H1.
Qed.

Lemma slug_base_parent_safe (p : Url.ParseResult) :
  file_safe (fst (slug_base_parent p)) = true
  /\ (is_empty (snd (slug_base_parent p)) = true
      \/ file_safe (snd (slug_base_parent p)) = true).
Proof.
  unfold slug_base_parent.
  destruct (nonempty_segments (or_default (Url.path p) "/")) as [|x l];
    [by split; [|left]|].
  cbn [fst snd]. split.
  - apply well_formed_file_safe, slugify_segment_well_formed.
  - destruct (second_last (x :: l)); [right|by left].
    apply well_formed_file_safe, slugify_segment_well_formed.
Qed.

(** Every slug [unique_slug_for_url] returns is usable in a file name: it
    is not empty and holds only lowercase letters, digits, hyphens and
    underscores. *)
Theorem unique_slug_file_safe (u : string) (used used' : gset string)
    (s : string) (Hs : unique_slug_for_url u used = Some (s, used')) :
  file_safe s = true.
Proof.
  unfold unique_slug_for_url in Hs.
  destruct (Url.urlparse u) as [p|]; [|done].
  destruct (slug_base_parent_safe p) as [Hbase Hparent].
  destruct (slug_base_parent p) as [base parent]. cbn [fst snd] in *.
  destruct (choose_slug base parent used) as [s0|] eqn:Hc; [|done].
  injection Hs as -> _. unfold choose_slug in Hc.
  destruct (negb (is_empty base) && bool_decide (base ∉ used));
    [by injection Hc as <-|].
  assert (Hdigits : forall k : nat, all_chars slug_char (pretty k) = true).
  { intros k. eapply all_chars_impl; [|apply pretty_nat_digits].
    intros c Hc'. unfold slug_char. by rewrite Hc', orb_true_r. }
  destruct (negb (is_empty parent)
            && bool_decide (parent +:+ "-" +:+ base ∉ used)) eqn:Hp.
  - injection Hc as <-. apply andb_prop in Hp as [Hp _].
    apply negb_true_iff in Hp. destruct Hparent as [He|Hsafe]; [congruence|].
    apply file_safe_app; [done|]. rewrite all_chars_app.
    unfold file_safe in Hbase. by apply andb_prop in Hbase as [_ ->].
  - apply numbered_slug_form in Hc as [k ->]. unfold numbered.
    apply file_safe_app; [done|]. by rewrite all_chars_app, Hdigits.
Qed.

Lemma unique_slug_file_safe_witness :
  file_safe "b-index" = true.
Proof.
  apply (unique_slug_file_safe "https://x.com/b/index.html" {["index"]}
           ({["b-index"]} ∪ {["index"]}) "b-index").
  vm_compute. reflexivity.
Defined.

(** The slug of the single-URL mode is usable in a file name as well. *)
Theorem slug_from_url_file_safe (u s : string)
    (Hs : slug_from_url u = Some s) :
  file_safe s = true.
Proof.
  unfold slug_from_url in Hs. destruct (Url.urlparse u) as [p|]; [|done].
  injection Hs as <-. unfold file_safe.
  rewrite sub_runs_replaces; [|done|intros c Hc; by destruct (slug_char c)].
  rewrite sub_runs_not_empty; [done|done|].
  unfold or_default. by destruct (is_empty (lower (strip _))) eqn:He.
Qed.

Lemma slug_from_url_file_safe_witness :
  file_safe "about-us" = true.
Proof.
  apply (slug_from_url_file_safe "https://x.com/docs/About Us.HTML" "about-us").
  vm_compute. reflexivity.
Defined.

(** ** The filter of a batch *)

Lemma mem_In (s : string) (l : list string) :
  Url.mem s l = true <-> In s l.
Proof.
  unfold Url.mem. rewrite existsb_exists. split.
  - intros (x & Hx & He). apply String.eqb_eq in He. by subst.
  - intros H. exists s. split; [done|]. apply String.eqb_refl.
Qed.

Lemma filter_urls_kept (urls kept : list string) (inc : bool) :
  filter_urls urls inc = Some kept ->
  kept = List.filter (kept_by inc) urls
  /\ Forall (fun u => kept_by inc u = negb (skipped_by inc u)) urls.
Proof.
  revert kept. induction urls as [|u urls IH]; intros kept H.
  - injection H as <-. by split.
  - cbn [filter_urls] in H.
    destruct (should_skip_url u inc) as [skip|] eqn:Hs; [|done].
    destruct (filter_urls urls inc) as [kept'|]; [|done].
    destruct (IH kept' eq_refl) as [-> Hall]. injection H as <-.
    assert (Hk : kept_by inc u = negb skip)
      by (unfold kept_by; rewrite Hs; by destruct skip).
    assert (Hsk : skipped_by inc u = skip)
      by (unfold skipped_by; rewrite Hs; by destruct skip).
    split.
    + cbn [List.filter]. rewrite Hk. by destruct skip.
    + constructor; [by rewrite Hk, Hsk|done].
Qed.

Lemma filter_complement_length {A} (f : A -> bool) (l : list A) :
  length (List.filter f l) + length (List.filter (fun x => negb (f x)) l)
  = length l.
Proof.
  induction l as [|x l IH]; simpl; [done|]. destruct (f x); simpl; lia.
Qed.

(** Every input URL of a batch is either kept, in input order, or
    reported as skipped, in input order; none is lost and none is in
    both lists. *)
Theorem filter_urls_partition (urls kept : list string) (inc : bool)
    (Hf : filter_urls urls inc = Some kept) :
  kept = List.filter (kept_by inc) urls
  /\ skipped_urls urls kept = List.filter (skipped_by inc) urls
  /\ length kept + length (skipped_urls urls kept) = length urls
  /\ (forall u, In u kept -> ~ In u (skipped_urls urls kept)).
Proof.
  destruct (filter_urls_kept urls kept inc Hf) as [-> Hall].
  assert (Hsk : skipped_urls urls (List.filter (kept_by inc) urls)
                = List.filter (fun u => negb (kept_by inc u)) urls).
  { unfold skipped_urls. apply filter_ext_in. intros u Hu. f_equal.
    destruct (kept_by inc u) eqn:Hk.
    - apply mem_In, filter_In. by split.
    - apply not_true_is_false. intros Hm. apply mem_In, filter_In in Hm.
      destruct Hm. congruence. }
  split; [done|]. rewrite Hsk. split; [|split].
  - apply filter_ext_in. intros u Hu.
    rewrite Forall_forall in Hall.
    rewrite (Hall u); [by rewrite negb_involutive|].
    by apply list_elem_of_In.
  - apply filter_complement_length.
  - intros u Hk Hs. apply filter_In in Hk as [_ Hk], Hs as [_ Hs].
    by rewrite Hk in Hs.
Qed.

Lemma filter_urls_partition_witness :
  skipped_urls
    ["https://x.com/report.pdf"; "https://x.com/page"; "ftp://x.com/file"]
    ["https://x.com/page"]
  = List.filter (skipped_by false)
      ["https://x.com/report.pdf"; "https://x.com/page"; "ftp://x.com/file"].
Proof.
  apply (filter_urls_partition
           ["https://x.com/report.pdf"; "https://x.com/page"; "ftp://x.com/file"]
           ["https://x.com/page"] false).
  vm_compute. reflexivity.
Defined.

(** With the override unset, the URLs the filter keeps are all accepted by
    [urlparse], so the slug allocation that follows in [run_list] gives
    every kept URL a slug and cannot raise. *)
Theorem filtered_urls_get_slugs (urls kept : list string)
    (Hf : filter_urls urls false = Some kept) :
  exists slugs used,
    allocate_slugs kept ∅ = Some (slugs, used)
    /\ length slugs = length kept
    /\ NoDup slugs.
Proof.
  destruct (filter_urls_kept urls kept false Hf) as [-> _].
  destruct (allocate_slugs_spec (List.filter (kept_by false) urls) ∅)
    as (slugs & used & Ha & Hlen & Hnd & _).
  - apply Forall_forall. intros u Hu. apply list_elem_of_In, filter_In in Hu.
    destruct Hu as [_ Hk]. unfold kept_by, should_skip_url in Hk.
    unfold parses. by destruct (Url.urlparse u).
  - by exists slugs, used.
Qed.

Lemma filtered_urls_get_slugs_witness :
  exists slugs used,
    allocate_slugs ["https://x.com/page"] ∅ = Some (slugs, used)
    /\ length slugs = length ["https://x.com/page"]
    /\ NoDup slugs.
Proof.
  apply (filtered_urls_get_slugs
           ["https://x.com/report.pdf"; "https://x.com/page"; "ftp://x.com/file"]
           ["https://x.com/page"]).
  vm_compute. reflexivity.
Defined.

(** ** [ensure_scheme] *)

Lemma prefix_nil (s : string) : String.prefix "" s = true.
Proof. by destruct s. Qed.

Lemma ensure_scheme_has_web_scheme (u : string) :
  has_web_scheme (ensure_scheme u) = true.
Proof.
  unfold ensure_scheme. fold (has_web_scheme u).
  destruct (has_web_scheme u) eqn:Hu; [done|].
  unfold has_web_scheme, startswith. apply orb_true_iff. right.
  cbn. repeat (destruct (ascii_dec _ _); [|done]). apply prefix_nil.
Qed.

Lemma has_web_scheme_fixed (w : string) :
  has_web_scheme w = true -> ensure_scheme w = w.
Proof. unfold ensure_scheme. fold (has_web_scheme w). by intros ->. Qed.

(** Applying [ensure_scheme] to its own result changes nothing. *)
Theorem ensure_scheme_idempotent (u : string) :
  ensure_scheme (ensure_scheme u) = ensure_scheme u.
Proof. apply has_web_scheme_fixed, ensure_scheme_has_web_scheme. Qed.





(** ** Plain URL lists: the entries *)

Section Splitting.
Variable p : ascii -> bool.

Lemma re_split_runs_chars (b : bool) (s : string) :
  Forall (fun t => all_chars (fun c => negb (p c)) t = true)
         (re_split_runs p b s).
Proof.
  revert b. induction s as [|c s IH]; intros b; simpl.
  - by constructor.
  - destruct (p c) eqn:Hc.
    + destruct b; [apply IH|]. constructor; [done|apply IH].
    + specialize (IH false).
      destruct (re_split_runs p false s) as [|h t].
      * constructor; [|done]. simpl. by rewrite Hc.
      * apply Forall_cons in IH as [Hh Ht]. constructor; [|done].
        simpl. by rewrite Hc, Hh.
Qed.

Lemma re_split_runs_in_run (s : string) :
  List.filter nonempty (re_split_runs p true s)
  = List.filter nonempty (re_split_runs p false s).
Proof. destruct s as [|c s]; simpl; [done|]. by destruct (p c). Qed.

(** A piece followed by a separator: the pieces of the first text, then
    those of the second. *)
Lemma re_split_runs_app (sep : ascii) (a b : string) :
  p sep = true ->
  (exists h t t',
      re_split_runs p false (a +:+ String sep b) = h :: t
      /\ re_split_runs p false a = h :: t'
      /\ List.filter nonempty t
         = (List.filter nonempty t'
            ++ List.filter nonempty (re_split_runs p true b))%list)
  /\ List.filter nonempty (re_split_runs p true (a +:+ String sep b))
     = (List.filter nonempty (re_split_runs p true a)
        ++ List.filter nonempty (re_split_runs p true b))%list.
Proof.
  intros Hsep. induction a as [|c a [(h & t & t' & E1 & E2 & E3) IHt]].
  - change ("" +:+ String sep b) with (String sep b).
    cbn [re_split_runs]. rewrite Hsep. split; [|done].
    by exists "", (re_split_runs p true b), [].
  - change (String c a +:+ String sep b) with (String c (a +:+ String sep b)).
    cbn [re_split_runs]. destruct (p c) eqn:Hc.
    + split; [|exact IHt].
      exists "", (re_split_runs p true (a +:+ String sep b)),
             (re_split_runs p true a). by repeat split.
    + rewrite E1, E2. split.
      * exists (String c h), t, t'. by repeat split.
      * cbn. by rewrite E3.
Qed.

End Splitting.

Lemma replace_cr_split (b : bool) (s : string) :
  re_split_runs is_separator b (replace_cr s) = re_split_runs is_separator b s.
Proof.
  revert b. induction s as [|c s IH]; intros b; [done|].
  cbn [replace_cr re_split_runs]. destruct (is_char CR c) eqn:Hc.
  - unfold is_char in Hc. apply Ascii.eqb_eq in Hc. subst c.
    change (is_separator LF) with true. change (is_separator CR) with true.
    cbn. by rewrite !IH.
  - by rewrite !IH.
Qed.

Lemma replace_crlf_cons2 (c d : ascii) (s : string) :
  replace_crlf (String c (String d s))
  = if is_char CR c && is_char LF d then String LF (replace_crlf s)
    else String c (replace_crlf (String d s)).
Proof. reflexivity. Qed.

Lemma re_split_runs_cons (p : ascii -> bool) (b : bool) (c : ascii)
    (s : string) :
  re_split_runs p b (String c s)
  = if p c then
      if b then re_split_runs p true s else "" :: re_split_runs p true s
    else match re_split_runs p false s with
         | h :: t => String c h :: t
         | [] => [String c ""]
         end.
Proof. reflexivity. Qed.

Lemma replace_crlf_split (s : string) :
  (forall b, re_split_runs is_separator b (replace_crlf s)
             = re_split_runs is_separator b s)
  /\ (forall c b, re_split_runs is_separator b (replace_crlf (String c s))
                  = re_split_runs is_separator b (String c s)).
Proof.
  induction s as [|d s [IH1 IH2]].
  - split; [done|]. intros c b. reflexivity.
  - split; [intros b; apply IH2|]. intros c b.
    rewrite replace_crlf_cons2.
    destruct (is_char CR c && is_char LF d) eqn:Hcd.
    + apply andb_prop in Hcd as [Hc Hd]. unfold is_char in Hc, Hd.
      apply Ascii.eqb_eq in Hc, Hd. subst c d.
      rewrite !re_split_runs_cons. change (is_separator LF) with true.
      change (is_separator CR) with true. cbn iota.
      rewrite IH1. by destruct b.
    + rewrite (re_split_runs_cons _ b c (replace_crlf (String d s))).
      rewrite (re_split_runs_cons _ b c (String d s)).
      by rewrite !IH2.
Qed.

Lemma strip_token (t : string) :
  all_chars (fun c => negb (is_separator c)) t = true -> strip t = t.
Proof.
  intros H.
  assert (Hsp : all_chars (fun c => negb (is_space c)) t = true).
  { eapply all_chars_impl; [|exact H]. intros c Hc. unfold is_separator in Hc.
    by destruct (is_space c). }
  unfold strip, strip_by. by rewrite (lstrip_id_all _ _ Hsp), (rstrip_id_all _ _ Hsp).
Qed.

(** The line-ending replacements and the [strip] of each token change
    nothing: the result is the non-empty pieces of the text as read, less
    those that start with [#]. *)
Lemma parse_url_list_file_tokens (raw : string) :
  parse_url_list_file raw = List.filter not_comment (tokens_of raw).
Proof.
  unfold parse_url_list_file, tokens_of.
  rewrite replace_cr_split, (proj1 (replace_crlf_split raw)).
  pose proof (re_split_runs_chars is_separator false raw) as Hall.
  induction (re_split_runs is_separator false raw) as [|t l IH]; [done|].
  apply Forall_cons in Hall as [Ht Hl]. cbn [List.map List.filter].
  rewrite (strip_token t Ht), (IH Hl). unfold keep_token, nonempty.
  destruct (is_empty t); [done|]. cbn [negb andb List.filter].
  reflexivity.
Qed.

(** Every entry [parse_url_list_file] returns is non-empty, holds no
    whitespace, comma, semicolon or pipe, and does not start with [#]. *)
Theorem parse_url_list_file_entries (raw t : string)
    (Ht : In t (parse_url_list_file raw)) :
  is_empty t = false
  /\ all_chars (fun c => negb (is_separator c)) t = true
  /\ startswith t "#" = false.
Proof.
  rewrite parse_url_list_file_tokens in Ht. unfold tokens_of in Ht.
  apply filter_In in Ht as [Ht Hc]. apply filter_In in Ht as [Ht Hne].
  split; [by apply negb_true_iff|]. split; [|by apply negb_true_iff].
  pose proof (re_split_runs_chars is_separator false raw) as Hall.
  rewrite Forall_forall in Hall. apply Hall. by apply list_elem_of_In.
Qed.

Lemma parse_url_list_file_entries_witness :
  is_empty "https://b.com" = false
  /\ all_chars (fun c => negb (is_separator c)) "https://b.com" = true
  /\ startswith "https://b.com" "#" = false.
Proof.
  apply (parse_url_list_file_entries
           ("https://a.com, https://b.com;" +:+ String LF "#c https://d.com")
           "https://b.com").
  vm_compute. auto.
Defined.

Lemma url_list_app (a b : string) (sep : ascii) :
  is_separator sep = true ->
  parse_url_list_file (a +:+ String sep b)
  = (parse_url_list_file a ++ parse_url_list_file b)%list.
Proof.
  intros Hsep.
  rewrite !parse_url_list_file_tokens. unfold tokens_of.
  destruct (re_split_runs_app is_separator sep a b Hsep)
    as [(h & t & t' & E1 & E2 & E3) _].
  rewrite E1, E2. cbn [List.filter].
  rewrite <- (re_split_runs_in_run is_separator b), E3.
  destruct (nonempty h); rewrite ?app_comm_cons, List.filter_app; reflexivity.
Qed.

(** Two lists joined by a separator character parse to the entries of the
    first followed by the entries of the second. *)
Theorem parse_url_list_file_app (a b : string) (sep : ascii)
    (Hsep : is_separator sep = true) :
  parse_url_list_file (a +:+ String sep b)
  = (parse_url_list_file a ++ parse_url_list_file b)%list.
Proof. by apply url_list_app. Qed.

Lemma parse_url_list_file_app_witness :
  parse_url_list_file ("https://a.com" +:+ String LF "#x y")
  = (parse_url_list_file "https://a.com" ++ parse_url_list_file "#x y")%list.
Proof. apply (parse_url_list_file_app "https://a.com" "#x y" LF). reflexivity. Defined.

(** ** Navigation and the modal helpers *)

Ltac trace_from h' h :=
  lazymatch h' with
  | h => constr:(@nil Event)
  | ?e :: ?r => let t := trace_from r h in constr:(e :: t)
  end.

Ltac cases_on env :=
  repeat (simpl in *;
          match goal with
          | |- context [match env ?h ?v ?c with _ => _ end] =>
              destruct (env h v c) eqn:?
          | |- context [if ?b then _ else _] => destruct b eqn:?
          | |- context [match ?x with VNone => _ | _ => _ end] => destruct x
          | |- context [match ?e with PWError => _ | _ => _ end] => destruct e
          end);
  simpl in *.

(** On any page the navigations of [nav_and_prepare] are the first
    attempt alone, or the first attempt failing with the library's error
    followed by one retry waiting for [domcontentloaded]: a navigation
    that returned is never followed by another, and an attempt that fails
    for good (any other error of the first, any error of the retry)
    leaves [nav_and_prepare] with that error before any script is
    evaluated.  No navigation is made only when setting the timeout
    fails. *)
Theorem navigation_retry (env : Env) (fuel : nat) (v : Viewport)
    (url wait : string) (insecure defloat : bool) (hide_selectors : string)
    (isi_reached : bool) (timeout_ms : Z) (settle : bool) (h : History) :
  exists t,
    snd (nav_and_prepare env fuel v url wait insecure defloat hide_selectors
           isi_reached timeout_ms settle h) = (t ++ h)%list
    /\ ((exists e,
           t = [(v, SetDefaultTimeout timeout_ms, Raises e)]
           /\ fst (nav_and_prepare env fuel v url wait insecure defloat
                     hide_selectors isi_reached timeout_ms settle h)
              = Raised e)
        \/ (exists o,
              navigations v t = [(url, wait, o)]
              /\ o <> Raises PWError
              /\ forall e, o = Raises e ->
                   fst (nav_and_prepare env fuel v url wait insecure defloat
                          hide_selectors isi_reached timeout_ms settle h)
                   = Raised e
                   /\ has is_evaluation t = false)
        \/ (exists o,
              navigations v t
              = [(url, wait, Raises PWError); (url, "domcontentloaded", o)]
              /\ forall e, o = Raises e ->
                   fst (nav_and_prepare env fuel v url wait insecure defloat
                          hide_selectors isi_reached timeout_ms settle h)
                   = Raised e
                   /\ has is_evaluation t = false)).
Proof. apply nav_and_prepare_navigations. Qed.

(** [close_any_modal] completes whatever the close script does, returning
    or raising, as long as the pause after it succeeds: one evaluation of
    the close script, then one pause of 200 ms. *)
Theorem close_any_modal_swallows (env : Env) (v : Viewport) (h : History)
    (x : Value)
    (Hw : env ((v, Evaluate CloseAnyModal, env h v (Evaluate CloseAnyModal))
               :: h) v (WaitForTimeout 200) = Returns x) :
  close_any_modal env v h
  = (Done tt,
     (v, WaitForTimeout 200, Returns x)
     :: (v, Evaluate CloseAnyModal, env h v (Evaluate CloseAnyModal)) :: h).
Proof.
  unfold close_any_modal, bind, try_except, evaluate, call, ret.
  destruct (env h v (Evaluate CloseAnyModal)); by rewrite Hw.
Qed.

Lemma close_any_modal_swallows_witness :
  close_any_modal page_close_raises Desktop []
  = (Done tt,
     [(Desktop, WaitForTimeout 200, Returns VNone);
      (Desktop, Evaluate CloseAnyModal, Raises PWError)]).
Proof.
  apply (close_any_modal_swallows page_close_raises Desktop [] VNone eq_refl).
Defined.

(** When [try_capture_modal_only] returns a path, it is the path it was
    given, and the calls it made are exactly: the detection (answering
    true), the bounding box (a box), a scroll to 20 pixels above the box
    and never above the top of the page, a pause of 100 ms, and one region
    screenshot whose clip is that box. *)
Theorem try_capture_modal_only_success (env : Env) (v : Viewport)
    (out_path : string) (h h' : History) (p : string)
    (Hrun : try_capture_modal_only env v out_path h = (Done (Some p), h')) :
  p = out_path
  /\ exists x b x1 x2 x3,
      truthy x = true
      /\ (0 <= Z.max 0 (box_y b - 20))%Z
      /\ h' = ([(v, Screenshot out_path false (Some b), Returns x3);
                (v, WaitForTimeout 100, Returns x2);
                (v, Evaluate (ScrollToArg (Z.max 0 (box_y b - 20))), Returns x1);
                (v, Evaluate ModalBbox, Returns (VBox b));
                (v, Evaluate FindAnyModal, Returns x)] ++ h)%list.
Proof.
  revert Hrun.
  cbv [try_capture_modal_only bind call evaluate try_except ret raise].
  cases_on env; intros Hrun; try discriminate Hrun.
  injection Hrun as <- <-. split; [done|].
  do 5 eexists. split; [|split; [|reflexivity]]; [|lia].
  by apply negb_false_iff.
Qed.

Lemma try_capture_modal_only_success_witness :
  "out/desktop/home_popup_dt.png" = "out/desktop/home_popup_dt.png"
  /\ exists x b x1 x2 x3,
      truthy x = true
      /\ (0 <= Z.max 0 (box_y b - 20))%Z
      /\ snd (try_capture_modal_only page_with_modal Desktop
                "out/desktop/home_popup_dt.png" [])
         = ([(Desktop, Screenshot "out/desktop/home_popup_dt.png" false (Some b),
              Returns x3);
             (Desktop, WaitForTimeout 100, Returns x2);
             (Desktop, Evaluate (ScrollToArg (Z.max 0 (box_y b - 20))),
              Returns x1);
             (Desktop, Evaluate ModalBbox, Returns (VBox b));
             (Desktop, Evaluate FindAnyModal, Returns x)] ++ [])%list.
Proof.
  apply (try_capture_modal_only_success page_with_modal Desktop
           "out/desktop/home_popup_dt.png" []).
  vm_compute. reflexivity.
Defined.

(** No screenshot is attempted by [try_capture_modal_only] unless the
    detection answered true and the bounding-box script gave a box, and
    none of its calls closes the modal. *)
Theorem try_capture_modal_only_guarded (env : Env) (v : Viewport)
    (out_path : string) (h : History) :
  exists t,
    snd (try_capture_modal_only env v out_path h) = (t ++ h)%list
    /\ has (is_close v) t = false
    /\ (has (fun ev => match ev with
                       | (_, Screenshot _ _ _, _) => true
                       | _ => false
                       end) t = true ->
        has (modal_detected v) t = true
        /\ exists b o, In (v, Evaluate ModalBbox, Returns (VBox b)) t
                       /\ In (v, Screenshot out_path false (Some b), o) t).
Proof.
  destruct v;
    cbv [try_capture_modal_only bind call evaluate try_except ret raise];
    cases_on env.
  all: lazymatch goal with
       | |- exists t, ?h' = (t ++ ?h)%list /\ _ =>
           let t := trace_from h' h in exists t; split; [reflexivity|]
       end.
  all: split; [reflexivity|].
  all: simpl; intros Hs; try discriminate Hs.
  all: split;
       [rewrite orb_false_r;
        match goal with
        | H : negb (truthy ?x) = false |- truthy ?x = true =>
            by apply negb_false_iff
        end|].
  all: do 2 eexists; split; [do 3 right; left; reflexivity|left; reflexivity].
Qed.

(** ** One target: contexts, count and names of the images *)

Lemma modal_shot_no_close (env : Env) (v : Viewport)
    (out_dir base_name : string) (no_modal_shot : bool) (h : History) :
  exists t,
    snd (modal_shot env v out_dir base_name no_modal_shot h) = (t ++ h)%list
    /\ has (is_context_close v) t = false
    /\ (no_modal_shot = true -> t = []).
Proof.
  destruct v, no_modal_shot;
    cbv [modal_shot try_capture_modal_only close_any_modal bind call evaluate
         try_except ret raise];
    cases_on env.
  all: lazymatch goal with
       | |- exists t, ?h' = (t ++ ?h)%list /\ _ =>
           let t := trace_from h' h in exists t; split; [reflexivity|]
       end.
  all: split; [reflexivity|]; by intros.
Qed.

Lemma prep_events_no_context_close (v : Viewport) (t : list Event) :
  Forall (prep_always v) t -> has (is_context_close v) t = false.
Proof.
  induction 1 as [|[[w c] o] t Hev _ IH]; [done|].
  unfold prep_always, prep_event in Hev. simpl in Hev.
  apply andb_prop in Hev as [_ Hc]. unfold has in *. simpl. rewrite IH.
  by destruct c.
Qed.

Lemma capture_viewport_contexts (env : Env) (fuel : nat) (v : Viewport)
    (url out_dir : string) (insecure : bool) (nav_timeout_ms : Z)
    (defloat : bool) (hide_selectors : string) (isi_reached : bool)
    (base_name : string) (settle no_modal_shot : bool) (h : History) :
  exists t,
    snd (capture_viewport env fuel v url out_dir insecure nav_timeout_ms
           defloat hide_selectors isi_reached base_name settle no_modal_shot h)
    = (t ++ h)%list
    /\ Forall (fun ev => on_viewport v ev = true) t
    /\ (is_done (fst (capture_viewport env fuel v url out_dir insecure
                        nav_timeout_ms defloat hide_selectors isi_reached
                        base_name settle no_modal_shot h)) = true ->
        has (context_closed v) t = true)
    /\ (is_done (fst (capture_viewport env fuel v url out_dir insecure
                        nav_timeout_ms defloat hide_selectors isi_reached
                        base_name settle no_modal_shot h)) = false ->
        has (context_closed v) t = false)
    /\ (has (is_context_close v) t = true -> has (full_shot_ok v) t = true)
    /\ (no_modal_shot = true -> has (popup_shot_ok v) t = false).
Proof.
  destruct (capture_viewport env fuel v url out_dir insecure nav_timeout_ms
              defloat hide_selectors isi_reached base_name settle
              no_modal_shot h) as [r h'] eqn:Hrun.
  cbn [fst snd]. unfold capture_viewport in Hrun.
  destruct (traced_nav_and_prepare env v fuel url "load" insecure defloat
              hide_selectors isi_reached nav_timeout_ms settle h)
    as (t1 & Hh1 & Ha1 & _).
  destruct (prep_events_facts v t1 Ha1) as (Hv1 & _ & Hp1 & _).
  pose proof (prep_events_no_context_close v t1 Ha1) as Hx1.
  assert (Hcc1 : has (context_closed v) t1 = false).
  { clear -Hx1. induction t1 as [|[[w c] o] t IH]; [done|].
    unfold has in *. simpl in *. apply orb_false_iff in Hx1 as [Hc Ht].
    rewrite (IH Ht), orb_false_r. destruct c; try done. by destruct o. }
  unfold bind at 1 in Hrun.
  destruct (nav_and_prepare env fuel v url "load" insecure defloat
              hide_selectors isi_reached nav_timeout_ms settle h)
    as [[[]|e|] h1]; cbn [snd] in Hh1; subst h1.
  2,3: injection Hrun as <- <-; exists t1;
       (split; [done|]); (split; [done|]); (split; [done|]);
       (split; [done|]); split; [by rewrite Hx1|done].
  destruct (modal_shot_trace env v out_dir base_name no_modal_shot
              (t1 ++ h)%list) as (t2 & Hh2 & Hv2 & _ & _ & _).
  destruct (modal_shot_no_close env v out_dir base_name no_modal_shot
              (t1 ++ h)%list) as (t2' & Hh2' & Hx2 & Hnms).
  assert (t2' = t2) as ->.
  { rewrite Hh2 in Hh2'. by apply app_inv_tail in Hh2'. }
  assert (Hcc2 : has (context_closed v) t2 = false).
  { clear -Hx2. induction t2 as [|[[w c] o] t IH]; [done|].
    unfold has in *. simpl in *. apply orb_false_iff in Hx2 as [Hc Ht].
    rewrite (IH Ht), orb_false_r. destruct c; try done. by destruct o. }
  assert (Hpop : no_modal_shot = true ->
                 has (popup_shot_ok v) (t2 ++ t1) = false).
  { intros Hn. rewrite (Hnms Hn). exact Hp1. }
  unfold bind at 1 in Hrun.
  destruct (modal_shot env v out_dir base_name no_modal_shot (t1 ++ h)%list)
    as [[popup|e|] h2]; cbn [snd] in Hh2; subst h2.
  2,3: injection Hrun as <- <-; exists (t2 ++ t1)%list; rewrite app_assoc;
       (split; [done|]); (split; [by apply Forall_app|]);
       (split; [done|]);
       (split; [intros _; by rewrite has_app, Hcc1, Hcc2|]);
       split; [by rewrite has_app, Hx1, Hx2|exact Hpop].
  cbv [take_fullpage_screenshot bind call ret] in Hrun.
  destruct (env (t2 ++ t1 ++ h)%list v
              (Screenshot (full_png out_dir base_name v) true None))
    as [x3|e3] eqn:E3; cbn [fst snd] in Hrun.
  - destruct (env ((v, Screenshot (full_png out_dir base_name v) true None,
                    Returns x3) :: t2 ++ t1 ++ h)%list v ContextClose)
      as [x4|e4] eqn:E4; cbn [fst snd] in Hrun; injection Hrun as <- <-.
    + exists ((v, ContextClose, Returns x4)
              :: (v, Screenshot (full_png out_dir base_name v) true None,
                  Returns x3) :: t2 ++ t1)%list.
      cbn [app]. rewrite <- app_assoc. split; [done|].
      split.
      { repeat constructor;
          try by (unfold on_viewport; cbn; apply viewport_eqb_refl).
        by apply Forall_app. }
      unfold has in *. cbn [existsb context_closed is_context_close
                            full_shot_ok popup_shot_ok is_done].
      rewrite viewport_eqb_refl. cbn [orb]. by repeat split.
    + exists ((v, ContextClose, Raises e4)
              :: (v, Screenshot (full_png out_dir base_name v) true None,
                  Returns x3) :: t2 ++ t1)%list.
      cbn [app]. rewrite <- app_assoc. split; [done|].
      split.
      { repeat constructor;
          try by (unfold on_viewport; cbn; apply viewport_eqb_refl).
        by apply Forall_app. }
      unfold has in *. cbn [existsb context_closed is_context_close
                            full_shot_ok popup_shot_ok is_done].
      rewrite viewport_eqb_refl. cbn [orb].
      rewrite !existsb_app in *. rewrite Hcc1, Hcc2. by repeat split.
  - injection Hrun as <- <-.
    exists ((v, Screenshot (full_png out_dir base_name v) true None,
             Raises e3) :: t2 ++ t1)%list.
    cbn [app]. rewrite <- app_assoc. split; [done|].
    split.
    { repeat constructor;
        try by (unfold on_viewport; cbn; apply viewport_eqb_refl).
      by apply Forall_app. }
    unfold has in *. cbn [existsb context_closed is_context_close
                          full_shot_ok popup_shot_ok is_done orb].
    rewrite !existsb_app in *. rewrite Hcc1, Hcc2, Hx1, Hx2.
    by repeat split.
Qed.

Lemma capture_contexts (env : Env) (fuel : nat) (h : History)
    (url out_dir : string) (insecure : bool) (nav_timeout_ms : Z)
    (defloat : bool) (hide_selectors : string) (isi_reached : bool)
    (base_name : string) (settle no_modal_shot : bool) :
  exists td tm,
    snd (capture_single_url env fuel url out_dir insecure nav_timeout_ms
           defloat hide_selectors isi_reached base_name settle no_modal_shot h)
    = (tm ++ td ++ h)%list
    /\ Forall (fun ev => on_viewport Desktop ev = true) td
    /\ Forall (fun ev => on_viewport Mobile ev = true) tm
    /\ (has (context_closed Desktop) td = false -> tm = [])
    /\ (has (is_context_close Desktop) td = true ->
        has (full_shot_ok Desktop) td = true)
    /\ (has (is_context_close Mobile) tm = true ->
        has (full_shot_ok Mobile) tm = true)
    /\ (no_modal_shot = true ->
        has (popup_shot_ok Desktop) td = false
        /\ has (popup_shot_ok Mobile) tm = false).
Proof.
  destruct (capture_single_url env fuel url out_dir insecure nav_timeout_ms
              defloat hide_selectors isi_reached base_name settle
              no_modal_shot h) as [r h'] eqn:Hrun.
  cbn [snd]. unfold capture_single_url in Hrun.
  destruct (capture_viewport_contexts env fuel Desktop (ensure_scheme url)
              out_dir insecure nav_timeout_ms defloat hide_selectors
              isi_reached base_name settle no_modal_shot h)
    as (td & Hhd & Hvd & Hdone & Hfail & Hcd & Hpd).
  unfold bind at 1 in Hrun.
  destruct (capture_viewport env fuel Desktop (ensure_scheme url) out_dir
              insecure nav_timeout_ms defloat hide_selectors isi_reached
              base_name settle no_modal_shot h)
    as [[dt|e|] h1]; cbn [fst snd is_done] in *; subst h1.
  2,3: injection Hrun as <- <-; exists td, [];
       (split; [done|]); (split; [done|]); (split; [done|]);
       (split; [done|]); (split; [done|]); (split; [done|]);
       intros Hn; split; [by apply Hpd|done].
  destruct (capture_viewport_contexts env fuel Mobile (ensure_scheme url)
              out_dir insecure nav_timeout_ms defloat hide_selectors
              isi_reached base_name settle no_modal_shot (td ++ h)%list)
    as (tm & Hhm & Hvm & _ & _ & Hcm & Hpm).
  exists td, tm.
  assert (h' = (tm ++ td ++ h)%list) as ->.
  { unfold bind in Hrun.
    destruct (capture_viewport env fuel Mobile (ensure_scheme url) out_dir
                insecure nav_timeout_ms defloat hide_selectors isi_reached
                base_name settle no_modal_shot (td ++ h)%list)
      as [[mb|e|] h2]; cbn [snd] in Hhm; subst h2; by injection Hrun as _ <-. }
  split; [done|]. split; [done|]. split; [done|].
  split; [intros Hno; by rewrite Hdone in Hno|].
  split; [done|]. split; [done|]. intros Hn. split; [by apply Hpd|by apply Hpm].
Qed.

(** In one capture every call on the desktop page comes before every
    call on the mobile page; the mobile page is opened only after the
    desktop context was closed; and a context is closed only after its
    full-page screenshot succeeded, so a capture that fails before that
    point leaves the context open. *)
Theorem desktop_before_mobile (env : Env) (fuel : nat) (h : History)
    (url out_dir : string) (insecure : bool) (nav_timeout_ms : Z)
    (defloat : bool) (hide_selectors : string) (isi_reached : bool)
    (base_name : string) (settle no_modal_shot : bool) :
  exists td tm,
    snd (capture_single_url env fuel url out_dir insecure nav_timeout_ms
           defloat hide_selectors isi_reached base_name settle no_modal_shot h)
    = (tm ++ td ++ h)%list
    /\ Forall (fun ev => on_viewport Desktop ev = true) td
    /\ Forall (fun ev => on_viewport Mobile ev = true) tm
    /\ (has (context_closed Desktop) td = false -> tm = [])
    /\ (has (is_context_close Desktop) td = true ->
        has (full_shot_ok Desktop) td = true)
    /\ (has (is_context_close Mobile) tm = true ->
        has (full_shot_ok Mobile) tm = true)
    /\ (no_modal_shot = true ->
        has (popup_shot_ok Desktop) td = false
        /\ has (popup_shot_ok Mobile) tm = false).
Proof.
  apply capture_contexts.
Qed.

Lemma names_distinct (out_dir base_name : string) :
  NoDup [popup_png out_dir base_name Desktop; full_png out_dir base_name Desktop;
         popup_png out_dir base_name Mobile; full_png out_dir base_name Mobile].
Proof.
  assert (Hcut : forall a b : string,
             out_dir +:+ "/" +:+ a = out_dir +:+ "/" +:+ b -> a = b).
  { intros a b H. apply (inj (String.app out_dir)) in H.
    by apply (inj (String.app "/")) in H. }
  assert (Hcut2 : forall (s : string) (a b : string),
             s +:+ "/" +:+ base_name +:+ a = s +:+ "/" +:+ base_name +:+ b ->
             a = b).
  { intros s a b H. apply (inj (String.app s)) in H.
    apply (inj (String.app "/")) in H.
    by apply (inj (String.app base_name)) in H. }
  unfold popup_png, full_png.
  repeat constructor; rewrite ?elem_of_cons, ?elem_of_nil;
    intros H; repeat destruct H as [H|H]; try done;
    apply Hcut in H; try discriminate H; apply Hcut2 in H; discriminate H.
Qed.

Lemma images_of_sublist (out_dir base_name : string) (v : Viewport)
    (t : list Event) :
  images_of out_dir base_name v t
  = [popup_png out_dir base_name v; full_png out_dir base_name v]
  \/ images_of out_dir base_name v t = [full_png out_dir base_name v].
Proof. unfold images_of. destruct (has _ t); [by left|by right]. Qed.

Lemma capture_images_count (env : Env) (fuel : nat) (h : History)
    (url out_dir : string) (insecure : bool) (nav_timeout_ms : Z)
    (defloat : bool) (hide_selectors : string) (isi_reached : bool)
    (base_name : string) (settle no_modal_shot : bool) (imgs : list string)
    (Hrun : fst (capture_single_url env fuel url out_dir insecure
                   nav_timeout_ms defloat hide_selectors isi_reached
                   base_name settle no_modal_shot h) = Done imgs) :
  2 <= length imgs <= 4
  /\ NoDup imgs
  /\ (no_modal_shot = true -> imgs = full_pages out_dir base_name).
Proof.
  destruct (capture_single_url_trace env fuel url out_dir insecure
              nav_timeout_ms defloat hide_selectors isi_reached base_name
              settle no_modal_shot h) as (t & Hh & _ & Hshape).
  destruct (Hshape imgs Hrun) as (-> & _ & _).
  pose proof (names_distinct out_dir base_name) as Hnd.
  split; [|split].
  - destruct (images_of_sublist out_dir base_name Desktop t) as [-> | ->],
             (images_of_sublist out_dir base_name Mobile t) as [-> | ->];
      simpl; lia.
  - apply (sublist_NoDup _ _ Hnd).
    destruct (images_of_sublist out_dir base_name Desktop t) as [-> | ->],
             (images_of_sublist out_dir base_name Mobile t) as [-> | ->];
      cbn [app]; repeat first [apply sublist_skip | apply sublist_cons];
      try apply sublist_nil.
  - intros Hn.
    destruct (capture_contexts env fuel h url out_dir insecure
                nav_timeout_ms defloat hide_selectors isi_reached base_name
                settle no_modal_shot)
      as (td & tm & Hh' & Hvd & Hvm & _ & _ & _ & Hpop).
    destruct (Hpop Hn) as [Hpd Hpm].
    assert (t = (tm ++ td)%list) as ->.
    { rewrite Hh, app_assoc in Hh'. by apply app_inv_tail in Hh'. }
    unfold images_of, full_pages. rewrite !has_app, Hpd, Hpm.
    rewrite (other_viewport_silent popup_shot_ok Mobile Desktop tm
               (popup_shot_on Desktop) eq_refl Hvm).
    rewrite (other_viewport_silent popup_shot_ok Desktop Mobile td
               (popup_shot_on Mobile) eq_refl Hvd).
    reflexivity.
Qed.

(** A capture that completes returns two, three or four images, all with
    different paths; with the modal capture disabled it returns exactly
    the desktop and the mobile full page. *)
Theorem capture_single_url_count (env : Env) (fuel : nat) (h : History)
    (url out_dir : string) (insecure : bool) (nav_timeout_ms : Z)
    (defloat : bool) (hide_selectors : string) (isi_reached : bool)
    (base_name : string) (settle no_modal_shot : bool) (imgs : list string)
    (Hrun : fst (capture_single_url env fuel url out_dir insecure
                   nav_timeout_ms defloat hide_selectors isi_reached
                   base_name settle no_modal_shot h) = Done imgs) :
  2 <= length imgs <= 4
  /\ NoDup imgs
  /\ (no_modal_shot = true -> imgs = full_pages out_dir base_name).
Proof.
  exact (capture_images_count env fuel h url out_dir insecure nav_timeout_ms
           defloat hide_selectors isi_reached base_name settle no_modal_shot
           imgs Hrun).
Qed.

Lemma capture_single_url_count_witness :
  2 <= length ["out/desktop/home_dt.png"; "out/mobile/home_mb.png"] <= 4
  /\ NoDup ["out/desktop/home_dt.png"; "out/mobile/home_mb.png"]
  /\ (true = true ->
      ["out/desktop/home_dt.png"; "out/mobile/home_mb.png"]
      = full_pages "out" "home").
Proof.
  apply (capture_single_url_count page_with_modal 3 [] "x.com" "out" false
           60000 true "" false "home" true true).
  vm_compute. reflexivity.
Defined.

Lemma append_assoc (a b c : string) : (a +:+ b) +:+ c = a +:+ b +:+ c.
Proof.
  induction a as [|x a IH]; [done|].
  change (String x ((a +:+ b) +:+ c) = String x (a +:+ b +:+ c)).
  by rewrite IH.
Qed.

(** The popup image of a slug has the path of the full-page image of the
    slug followed by [_popup], and one run can allocate both slugs: image
    paths of different targets are not kept apart by the slugs being
    different. *)
Theorem popup_path_is_full_path (out_dir slug : string) (v : Viewport) :
  popup_png out_dir slug v = full_png out_dir (slug +:+ "_popup") v
  /\ fst <$> allocate_slugs ["https://x.com/a"; "https://x.com/a_popup"] ∅
     = Some ["a"; "a_popup"].
Proof.
  split; [|by vm_compute].
  unfold popup_png, full_png. rewrite (append_assoc slug "_popup"). reflexivity.
Qed.

(** ** The batch *)

Lemma length_append (a b : string) :
  String.length (a +:+ b) = String.length a + String.length b.
Proof.
  induction a as [|x a IH]; [done|].
  change (S (String.length (a +:+ b)) = S (String.length a + String.length b)).
  by rewrite IH.
Qed.

Lemma append_inj_r (a b c : string) : a +:+ c = b +:+ c -> a = b.
Proof.
  revert b. induction a as [|x a IH]; intros [|y b] H.
  - done.
  - apply (f_equal String.length) in H. rewrite !length_append in H.
    cbn [String.length] in H. lia.
  - apply (f_equal String.length) in H. rewrite !length_append in H.
    cbn [String.length] in H. lia.
  - change (String x (a +:+ c) = String y (b +:+ c)) in H.
    injection H as -> H. by rewrite (IH b H).
Qed.

Lemma full_png_inj (out_dir a b : string) (v w : Viewport) :
  full_png out_dir a v = full_png out_dir b w -> a = b /\ v = w.
Proof.
  unfold full_png. intros H.
  apply (inj (String.app out_dir)) in H. apply (inj (String.app "/")) in H.
  destruct v, w; try discriminate H; split; try done.
  - apply (inj (String.app "desktop")) in H. apply (inj (String.app "/")) in H.
    by apply append_inj_r in H.
  - apply (inj (String.app "mobile")) in H. apply (inj (String.app "/")) in H.
    by apply append_inj_r in H.
Qed.

Lemma full_pages_distinct (out_dir : string) (slugs : list string) :
  NoDup slugs -> NoDup (flat_map (full_pages out_dir) slugs).
Proof.
  induction 1 as [|s slugs Hs _ IH]; [constructor|].
  cbn [flat_map full_pages app]. constructor; [|constructor; [|exact IH]].
  - rewrite elem_of_cons. intros [H|H].
    + by apply full_png_inj in H as [_ ?].
    + apply list_elem_of_In, in_flat_map in H as (s' & Hin & H).
      apply list_elem_of_In in Hin. unfold full_pages in H.
      destruct H as [H|[H|[]]]; apply full_png_inj in H as [-> _]; done.
  - intros H. apply list_elem_of_In, in_flat_map in H as (s' & Hin & H).
    apply list_elem_of_In in Hin. unfold full_pages in H.
    destruct H as [H|[H|[]]]; apply full_png_inj in H as [-> _]; done.
Qed.

Lemma allocate_slugs_inv (targets : list string) (used used' : gset string)
    (slugs : list string) :
  allocate_slugs targets used = Some (slugs, used') ->
  NoDup slugs /\ (forall s, s ∈ slugs -> s ∉ used) /\ used ⊆ used'
  /\ length slugs = length targets.
Proof.
  revert used slugs. induction targets as [|u rest IH]; intros used slugs H.
  - injection H as <- <-. split; [constructor|]. split; [set_solver|done].
  - cbn [allocate_slugs] in H.
    destruct (unique_slug_for_url u used) as [[s used1]|] eqn:Hu; [|done].
    destruct (allocate_slugs rest used1) as [[slugs1 used2]|] eqn:Ha; [|done].
    injection H as <- <-.
    apply unique_slug_for_url_inv in Hu as [Hs ->].
    destruct (IH _ _ Ha) as (Hnd & Hfresh & Hsub & Hlen).
    split; [|split; [|split]].
    + constructor; [|done]. intros Hin. apply Hfresh in Hin. set_solver.
    + intros x Hx. apply elem_of_cons in Hx as [->|Hx]; [done|].
      apply Hfresh in Hx. set_solver.
    + set_solver.
    + simpl. lia.
Qed.

Lemma run_targets_spec (envs : nat -> Env) (fuel k : nat)
    (targets : list string) (used : gset string) (out_dir : string)
    (insecure : bool) (nav_timeout_ms : Z) (defloat : bool)
    (hide_selectors : string) (isi_reached settle no_modal_shot : bool)
    (imgs : list string) :
  run_targets envs fuel k targets used out_dir insecure nav_timeout_ms
    defloat hide_selectors isi_reached settle no_modal_shot = Done imgs ->
  exists slugs used',
    allocate_slugs targets used = Some (slugs, used')
    /\ 2 * length targets <= length imgs <= 4 * length targets
    /\ (no_modal_shot = true -> imgs = flat_map (full_pages out_dir) slugs).
Proof.
  revert k used imgs. induction targets as [|u rest IH]; intros k used imgs H.
  - injection H as <-. exists [], used. split; [done|]. split; [simpl; lia|done].
  - cbn [run_targets allocate_slugs] in *.
    destruct (unique_slug_for_url u used) as [[s used1]|]; [|done].
    destruct (fst (capture_single_url (envs k) fuel u out_dir insecure
                     nav_timeout_ms defloat hide_selectors isi_reached s
                     settle no_modal_shot [])) as [imgs1| |] eqn:Hc;
      [|done|done].
    destruct (run_targets envs fuel (S k) rest used1 out_dir insecure
                nav_timeout_ms defloat hide_selectors isi_reached settle
                no_modal_shot) as [more| |] eqn:Hr; [|done|done].
    injection H as <-.
    destruct (IH _ _ _ Hr) as (slugs & used' & -> & Hlen & Hn).
    destruct (capture_images_count _ _ _ _ _ _ _ _ _ _ _ _ _ _ Hc)
      as (Hl1 & _ & Hn1).
    exists (s :: slugs), used'. split; [done|]. split.
    + rewrite length_app. simpl. lia.
    + intros Hnms. cbn [flat_map]. by rewrite (Hn1 Hnms), (Hn Hnms).
Qed.

(** A batch that completes kept at least one URL, returns between two and
    four images per kept URL, in the order of the kept URLs, and reports
    the other URLs as skipped.  With the modal capture disabled the images
    are exactly the desktop and mobile full pages of each slug in turn,
    and no two of them have the same path. *)
Theorem run_list_images (envs : nat -> Env) (fuel : nat)
    (urls : list string) (out_dir : string) (insecure : bool)
    (nav_timeout_ms : Z) (defloat : bool) (hide_selectors : string)
    (isi_reached include_nonhtml settle no_modal_shot : bool)
    (imgs skipped : list string)
    (Hrun : run_list envs fuel urls out_dir insecure nav_timeout_ms defloat
              hide_selectors isi_reached include_nonhtml settle no_modal_shot
            = Done (imgs, skipped)) :
  exists kept slugs used,
    filter_urls urls include_nonhtml = Some kept
    /\ kept <> []
    /\ skipped = skipped_urls urls kept
    /\ allocate_slugs kept ∅ = Some (slugs, used)
    /\ 2 * length kept <= length imgs <= 4 * length kept
    /\ (no_modal_shot = true ->
        imgs = flat_map (full_pages out_dir) slugs /\ NoDup imgs).
Proof.
  unfold run_list in Hrun.
  destruct (filter_urls urls include_nonhtml) as [kept|]; [|done].
  destruct (run_targets envs fuel 0 kept ∅ out_dir insecure nav_timeout_ms
              defloat hide_selectors isi_reached settle no_modal_shot)
    as [[|i imgs']| |] eqn:Hr; try done.
  injection Hrun as <- <-.
  destruct (run_targets_spec _ _ _ _ _ _ _ _ _ _ _ _ _ _ Hr)
    as (slugs & used & Ha & Hlen & Hn).
  exists kept, slugs, used. split; [done|]. split.
  { intros ->. simpl in Hlen. lia. }
  split; [done|]. split; [done|]. split; [done|].
  intros Hnms. split; [by apply Hn|]. rewrite (Hn Hnms).
  apply full_pages_distinct. by apply allocate_slugs_inv in Ha as [? _].
Qed.

Lemma run_list_images_witness :
  exists kept slugs used,
    filter_urls ["https://x.com/a"; "https://x.com/report.pdf";
                 "https://x.com/b/a"] false = Some kept
    /\ kept <> []
    /\ ["https://x.com/report.pdf"]
       = skipped_urls ["https://x.com/a"; "https://x.com/report.pdf";
                       "https://x.com/b/a"] kept
    /\ allocate_slugs kept ∅ = Some (slugs, used)
    /\ 2 * length kept
       <= length ["out/desktop/a_dt.png"; "out/mobile/a_mb.png";
                  "out/desktop/b-a_dt.png"; "out/mobile/b-a_mb.png"]
       <= 4 * length kept
    /\ (true = true ->
        ["out/desktop/a_dt.png"; "out/mobile/a_mb.png";
         "out/desktop/b-a_dt.png"; "out/mobile/b-a_mb.png"]
        = flat_map (full_pages "out") slugs
        /\ NoDup ["out/desktop/a_dt.png"; "out/mobile/a_mb.png";
                  "out/desktop/b-a_dt.png"; "out/mobile/b-a_mb.png"]).
Proof.
  apply (run_list_images (fun _ => page_with_modal) 3
           ["https://x.com/a"; "https://x.com/report.pdf"; "https://x.com/b/a"]
           "out" false 60000 true "" false false true true).
  vm_compute. reflexivity.
Defined.

Lemma filter_urls_all_skipped (urls : list string) :
  Forall (fun u => should_skip_url u false = Some true) urls ->
  filter_urls urls false = Some [].
Proof.
  induction 1 as [|u urls Hu _ IH]; [reflexivity|].
  cbn [filter_urls]. by rewrite Hu, IH.
Qed.

(** A batch in which the filter skips every URL (the override unset), the
    empty batch included, ends with the error of the document assembly on
    an empty list of images instead of returning, whatever the pages
    would answer. *)
Theorem run_list_nothing_kept (envs : nat -> Env) (fuel : nat)
    (urls : list string) (out_dir : string) (insecure : bool)
    (nav_timeout_ms : Z) (defloat : bool) (hide_selectors : string)
    (isi_reached settle no_modal_shot : bool)
    (Hskipped : Forall (fun u => should_skip_url u false = Some true) urls) :
  run_list envs fuel urls out_dir insecure nav_timeout_ms defloat
    hide_selectors isi_reached false settle no_modal_shot
  = Raised OtherError.
Proof. unfold run_list. by rewrite (filter_urls_all_skipped urls Hskipped). Qed.

Lemma run_list_nothing_kept_witness :
  run_list (fun _ => page_with_modal) 3
    ["https://x.com/report.pdf"; "ftp://x.com/file"] "out" false 60000 false
    "" false false true false
  = Raised OtherError.
Proof.
  apply (run_list_nothing_kept (fun _ => page_with_modal) 3
           ["https://x.com/report.pdf"; "ftp://x.com/file"]).
  repeat constructor.
Defined.

(** ** The defloat script: what a run changes *)

Module DefloatMore.
Import Defloat DefloatFacts.

Lemma seq_split_at (i n : nat) :
  i < n -> seq 0 n = (seq 0 i ++ i :: seq (S i) (n - S i))%list.
Proof.
  intros H. replace n with (i + S (n - S i)) at 1 by lia.
  rewrite seq_app. reflexivity.
Qed.

Section Frame.
Variable E : Engine.

Lemma makeAbsolute_frame (i : nat) (st : Page * gset nat) :
  length (fst (makeAbsolute E i st)) = length (fst st)
  /\ (forall j, i <> j -> fst (makeAbsolute E i st) !! j = fst st !! j)
  /\ snd (makeAbsolute E i st) ⊆ {[i]} ∪ snd st.
Proof.
  destruct st as [p seen]. unfold makeAbsolute.
  destruct (decide (i ∈ seen)); [cbn [fst snd]; split; [done|]; split; [done|set_solver]|].
  cbv zeta.
  repeat match goal with
         | |- context [match ?x with Some _ => _ | None => _ end] =>
             destruct x as [[]|] eqn:?
         | |- context [match ?x with Some _ => _ | None => _ end] =>
             destruct x eqn:?
         end; cbn [fst snd];
    (split; [by rewrite !length_update|]);
    (split; [by intros j Hj; rewrite !lookup_update_ne|done]).
Qed.

Lemma visit_frame (i : nat) (st : Page * gset nat) :
  length (fst (visit E st i)) = length (fst st)
  /\ (forall j, i <> j -> fst (visit E st i) !! j = fst st !! j)
  /\ snd (visit E st i) ⊆ {[i]} ∪ snd st.
Proof.
  unfold visit.
  destruct (makeAbsolute_frame i st) as (Hl & Ho & Hs).
  destruct (decide (computed_position E (fst st) i = PosFixed)).
  - destruct (decide (computed_position E (fst (makeAbsolute E i st)) i
                      = PosSticky)); cbn [fst snd].
    + rewrite !length_update. split; [done|].
      split; [|done]. intros j Hj. rewrite !lookup_update_ne by done.
      by apply Ho.
    + done.
  - destruct (decide (computed_position E (fst st) i = PosSticky));
      cbn [fst snd].
    + rewrite !length_update. split; [done|].
      split; [|set_solver]. intros j Hj. by rewrite !lookup_update_ne.
    + split; [done|]. split; [done|set_solver].
Qed.

Lemma foldl_visit_frame (l : list nat) (st : Page * gset nat) :
  length (fst (foldl (visit E) st l)) = length (fst st)
  /\ (forall j, j ∉ l -> fst (foldl (visit E) st l) !! j = fst st !! j)
  /\ snd (foldl (visit E) st l) ⊆ list_to_set l ∪ snd st.
Proof.
  revert st. induction l as [|i l IH]; intros st; cbn [foldl].
  - split; [done|]. split; [done|set_solver].
  - destruct (IH (visit E st i)) as (Hl & Ho & Hs).
    destruct (visit_frame i st) as (Hl1 & Ho1 & Hs1).
    split; [by rewrite Hl|]. split.
    + intros j Hj. rewrite Ho by set_solver. apply Ho1. set_solver.
    + cbn [list_to_set]. set_solver.
Qed.

Hypothesis Hlocal : position_local E.

Lemma foldl_visit_static (l : list nat) (st : Page * gset nat) (i : nat)
    (e : Element) :
  fst st !! i = Some e -> settled E (fst st) i ->
  fst (foldl (visit E) st l) !! i = Some e.
Proof.
  revert st. induction l as [|k l IH]; intros st He Hs; [done|].
  cbn [foldl]. destruct (decide (k = i)) as [->|Hne].
  - destruct st as [p seen]. rewrite visit_settled by done. by apply IH.
  - destruct (visit_frame k st) as (_ & Ho & _).
    apply IH; [by rewrite Ho|].
    apply (settled_local E Hlocal (fst st)); [by apply Ho|done].
Qed.

(** The state in which element [i] is visited: the element is as it was
    and has not been seen. *)
Lemma defloat_at (p : Page) (i : nat) (e : Element) :
  p !! i = Some e ->
  exists st,
    fst st !! i = Some e /\ (i ∉ snd st)
    /\ defloat E p !! i = fst (visit E st i) !! i.
Proof.
  intros He. assert (Hi : i < length p) by by eapply lookup_lt_Some.
  unfold defloat. rewrite (seq_split_at i (length p) Hi).
  rewrite foldl_app. cbn [foldl].
  set (st := foldl (visit E) (p, ∅) (seq 0 i)).
  destruct (foldl_visit_frame (seq 0 i) (p, ∅)) as (_ & Ho & Hs).
  fold st in Ho, Hs. cbn [fst snd] in Ho, Hs.
  assert (Hnot : forall k, i ∉ seq 0 k -> True) by done.
  assert (Hout : i ∉ seq 0 i) by (rewrite elem_of_seq; lia).
  exists st. split; [by rewrite Ho|]. split.
  - intros Hin. apply Hs in Hin. rewrite elem_of_union in Hin.
    destruct Hin as [Hin|Hin]; [|set_solver].
    apply elem_of_list_to_set in Hin. done.
  - destruct (foldl_visit_frame (seq (S i) (length p - S i)) (visit E st i))
      as (_ & Ho2 & _).
    apply Ho2. rewrite elem_of_seq. lia.
Qed.

End Frame.

(** A run of the defloat script keeps the number of elements, and leaves
    untouched every element that is neither fixed nor sticky (when an
    element's computed position depends on that element alone). *)
Theorem defloat_leaves_static (E : Engine) (p : Page) (i : nat) (e : Element)
    (Hlocal : position_local E) (He : p !! i = Some e)
    (Hs : settled E p i) :
  length (defloat E p) = length p /\ defloat E p !! i = Some e.
Proof.
  unfold defloat. split.
  - by destruct (foldl_visit_frame E (seq 0 (length p)) (p, ∅)) as [? _].
  - by apply foldl_visit_static.
Qed.

Lemma defloat_leaves_static_witness :
  length (defloat plain_cascade [blank 0; blank 1; blank 2])
  = length [blank 0; blank 1; blank 2]
  /\ defloat plain_cascade [blank 0; blank 1; blank 2] !! 0 = Some (blank 0).
Proof.
  apply (defloat_leaves_static plain_cascade [blank 0; blank 1; blank 2] 0
           (blank 0) plain_cascade_local eq_refl).
  split; discriminate.
Defined.



(** A sticky element comes out of a run marked [data-desticky], with the
    inline position [static] and the inline [top] set to [auto], and
    nothing else of it changed (when an element's computed position
    depends on that element alone). *)
Theorem defloat_sticky_element (E : Engine) (p : Page) (i : nat) (e : Element)
    (Hlocal : position_local E)
    (He : p !! i = Some e) (Hsticky : computed_position E p i = PosSticky) :
  defloat E p !! i
  = Some (set_top LenAuto
            (set_position PosStatic (set_attr "data-desticky" "1" e))).
Proof.
  destruct (defloat_at E Hlocal p i e He) as ([q seen] & Hq & Hseen & ->).
  cbn [fst snd] in Hq, Hseen.
  assert (Hsq : computed_position E q i = PosSticky).
  { rewrite <- Hsticky. apply Hlocal. by rewrite Hq, He. }
  unfold visit. cbn [fst].
  destruct (decide (computed_position E q i = PosFixed)) as [Hf|_];
    [congruence|].
  cbn [fst snd].
  destruct (decide (computed_position E q i = PosSticky)) as [_|Hn]; [|done].
  cbn [fst]. by rewrite !lookup_update_eq, Hq.
Qed.

Lemma defloat_sticky_element_witness :
  defloat plain_cascade [blank 0; blank 1; blank 2] !! 2
  = Some (set_top LenAuto
            (set_position PosStatic (set_attr "data-desticky" "1" (blank 2)))).
Proof.
  apply (defloat_sticky_element plain_cascade [blank 0; blank 1; blank 2] 2
           (blank 2) plain_cascade_local eq_refl eq_refl).
Defined.

End DefloatMore.

(** ** The modal scripts *)

Module ModalFacts.
Import ModalScripts.

(** The filter of the bounding-box script is [isVisible]. *)
Lemma shown_isVisible (el : Node) : shown el = isVisible el.
Proof.
  unfold shown, isVisible.
  by destruct (display_none el), (visibility_hidden el), (opacity_zero el).
Qed.

Lemma isVisible_size (el : Node) :
  isVisible el = true ->
  (50 < box_width (rect el))%Z /\ (50 < box_height (rect el))%Z.
Proof.
  unfold isVisible.
  destruct (_ || _); [discriminate|].
  intros [Hw Hh]%andb_true_iff. split; by apply Z.ltb_lt.
Qed.

Lemma candidates_In (d : Document) (el : Node) :
  In el (candidates d)
  <-> In el d /\ matches_any el = true /\ isVisible el = true.
Proof.
  unfold candidates, querySelectorAll.
  rewrite !filter_In, shown_isVisible. tauto.
Qed.

Lemma candidate_area (d : Document) (el : Node) :
  In el (candidates d) -> (0 < area el)%Z.
Proof.
  intros (_ & _ & Hv)%candidates_In.
  apply isVisible_size in Hv. unfold area. nia.
Qed.

(** The loop keeps the first element of the largest area above the
    starting area, or the starting pair when there is none. *)
Lemma fold_larger (l : list Node) (c : Node) (a : Z) :
  (fold_left larger l (c, a) = (c, a)
   /\ forall x, In x l -> (area x <= a)%Z)
  \/ exists l1 el l2,
       l = (l1 ++ el :: l2)%list
       /\ fold_left larger l (c, a) = (el, area el)
       /\ (a < area el)%Z
       /\ (forall x, In x l1 -> (area x < area el)%Z)
       /\ (forall x, In x l2 -> (area x <= area el)%Z).
Proof.
  revert c a. induction l as [|x l IH]; intros c a.
  - left. split; [reflexivity|]. intros ? [].
  - cbn [fold_left].
    assert (larger (c, a) x
            = if (a <? area x)%Z then (x, area x) else (c, a)) as ->
      by reflexivity.
    destruct (a <? area x)%Z eqn:Hlt.
    + apply Z.ltb_lt in Hlt.
      destruct (IH x (area x)) as [[Hr Hle]|(l1 & el & l2 & -> & Hr & Hgt & H1 & H2)].
      * right. exists [], x, l.
        split; [reflexivity|]. split; [exact Hr|]. split; [exact Hlt|].
        split; [intros ? []|exact Hle].
      * right. exists (x :: l1), el, l2.
        split; [reflexivity|]. split; [exact Hr|]. split; [lia|].
        split; [|exact H2].
        intros y [<-|Hy]; [lia|by apply H1].
    + apply Z.ltb_ge in Hlt.
      destruct (IH c a) as [[Hr Hle]|(l1 & el & l2 & -> & Hr & Hgt & H1 & H2)].
      * left. split; [exact Hr|]. intros y [<-|Hy]; [lia|by apply Hle].
      * right. exists (x :: l1), el, l2.
        split; [reflexivity|]. split; [exact Hr|]. split; [lia|].
        split; [|exact H2].
        intros y [<-|Hy]; [lia|by apply H1].
Qed.

Lemma modal_bbox_best (d : Document) :
  match modal_bbox d with
  | None => candidates d = []
  | Some b =>
      exists l1 el l2,
        candidates d = (l1 ++ el :: l2)%list
        /\ b = clamp (rect el)
        /\ (forall x, In x l1 -> (area x < area el)%Z)
        /\ (forall x, In x l2 -> (area x <= area el)%Z)
  end.
Proof.
  unfold modal_bbox.
  destruct (candidates d) as [|c l] eqn:Hc; [reflexivity|].
  destruct (fold_larger (c :: l) c 0)
    as [[_ Hle]|(l1 & el & l2 & Hl & Hr & _ & H1 & H2)].
  - assert (0 < area c)%Z
      by (apply (candidate_area d); rewrite Hc; by left).
    specialize (Hle c (or_introl eq_refl)). lia.
  - exists l1, el, l2. rewrite Hr. by repeat split.
Qed.

Lemma detection_candidate (d : Document) :
  find_any_modal d = true ->
  exists el s, In el (candidates d) /\ querySelector s d = Some el.
Proof.
  unfold find_any_modal. intros (s & _ & Hs)%existsb_exists.
  destruct (querySelector s d) as [el|] eqn:Hq; [|discriminate].
  exists el, s. split; [|exact Hq].
  apply find_some in Hq as [Hin Hm].
  apply candidates_In. split; [exact Hin|]. split; [|exact Hs].
  unfold matches_any. apply existsb_exists. exists s.
  split; [|exact Hm]. destruct s; cbn; tauto.
Qed.

Lemma clamp_facts (r : Box) :
  (0 <= box_x (clamp r))%Z /\ (0 <= box_y (clamp r))%Z
  /\ box_width (clamp r) = box_width r
  /\ box_height (clamp r) = box_height r.
Proof. unfold clamp. cbn. repeat split; lia. Qed.

Lemma detection_box (d : Document) :
  find_any_modal d = true ->
  exists b,
    modal_bbox d = Some b
    /\ (50 < box_width b)%Z /\ (50 < box_height b)%Z
    /\ (0 <= box_x b)%Z /\ (0 <= box_y b)%Z.
Proof.
  intros (el & s & Hin & _)%detection_candidate.
  pose proof (modal_bbox_best d) as Hb.
  destruct (modal_bbox d) as [b|]; [|rewrite Hb in Hin; destruct Hin].
  destruct Hb as (l1 & best & l2 & Hc & -> & _).
  exists (clamp (rect best)). split; [reflexivity|].
  assert (In best (candidates d)) as (_ & _ & Hv)%candidates_In
    by (rewrite Hc; apply in_elt).
  apply isVisible_size in Hv.
  destruct (clamp_facts (rect best)) as (? & ? & -> & ->). tauto.
Qed.

(** When the detection script answers true on a document, the
    bounding-box script run on the same document does not answer null:
    it returns a box wider and taller than 50 pixels whose corner is not
    left of or above the viewport. *)
Theorem detection_implies_box (d : Document)
    (Hfound : find_any_modal d = true) :
  exists b,
    modal_bbox d = Some b
    /\ (50 < box_width b)%Z /\ (50 < box_height b)%Z
    /\ (0 <= box_x b)%Z /\ (0 <= box_y b)%Z.
Proof. by apply detection_box. Qed.

Lemma detection_implies_box_witness :
  exists b,
    modal_bbox [open_dialog; stale_dialog] = Some b
    /\ (50 < box_width b)%Z /\ (50 < box_height b)%Z
    /\ (0 <= box_x b)%Z /\ (0 <= box_y b)%Z.
Proof. apply (detection_implies_box [open_dialog; stale_dialog]). reflexivity. Defined.

(** The box the bounding-box script returns is the rectangle, with
    negative x and y raised to 0, of an element of the document that
    matches one of the ten selectors and is visible; no such element has
    a larger area, and those before it in document order have a smaller
    one. *)
Theorem bbox_is_largest_candidate (d : Document) (b : Box)
    (Hbox : modal_bbox d = Some b) :
  exists l1 el l2,
    candidates d = (l1 ++ el :: l2)%list
    /\ b = clamp (rect el)
    /\ In el d /\ matches_any el = true /\ isVisible el = true
    /\ (forall x, In x l1 -> (area x < area el)%Z)
    /\ (forall x, In x l2 -> (area x <= area el)%Z).
Proof.
  pose proof (modal_bbox_best d) as Hb. rewrite Hbox in Hb.
  destruct Hb as (l1 & el & l2 & Hc & -> & H1 & H2).
  exists l1, el, l2.
  assert (In el (candidates d)) as (? & ? & ?)%candidates_In
    by (rewrite Hc; apply in_elt).
  by repeat split.
Qed.

Lemma bbox_is_largest_candidate_witness :
  exists l1 el l2,
    candidates [stale_dialog; open_dialog] = (l1 ++ el :: l2)%list
    /\ mkBox 0 100 600 400 = clamp (rect el)
    /\ In el [stale_dialog; open_dialog]
    /\ matches_any el = true /\ isVisible el = true
    /\ (forall x, In x l1 -> (area x < area el)%Z)
    /\ (forall x, In x l2 -> (area x <= area el)%Z).
Proof.
  apply (bbox_is_largest_candidate [stale_dialog; open_dialog]). reflexivity.
Defined.

(** The detection script looks only at the first match of each
    selector: an element that is not visible, put in front of a document
    and matching every selector an element of the document matches, makes
    detection answer false, while the bounding-box script answers as
    before. *)
Theorem hidden_first_match_blinds (hidden : Node) (d : Document)
    (Hmatch : forall el s, In el d -> matches el s = true ->
                           matches hidden s = true)
    (Hhidden : isVisible hidden = false) :
  find_any_modal (hidden :: d) = false
  /\ modal_bbox (hidden :: d) = modal_bbox d.
Proof.
  split.
  - destruct (find_any_modal (hidden :: d)) eqn:Hf; [|reflexivity].
    unfold find_any_modal in Hf.
    apply existsb_exists in Hf as (s & _ & Hs).
    unfold querySelector in Hs. cbn [List.find] in Hs.
    destruct (matches hidden s) eqn:Hm; [congruence|].
    destruct (List.find _ d) as [el|] eqn:Hq; [|discriminate].
    apply find_some in Hq as [Hin Hel].
    rewrite (Hmatch el s Hin Hel) in Hm. discriminate.
  - assert (candidates (hidden :: d) = candidates d) as Hc.
    { unfold candidates, querySelectorAll. cbn [List.filter].
      destruct (matches_any hidden); [|reflexivity].
      cbn [List.filter]. by rewrite shown_isVisible, Hhidden. }
    unfold modal_bbox. by rewrite Hc.
Qed.

Lemma hidden_first_match_blinds_witness :
  find_any_modal [stale_dialog; open_dialog] = false
  /\ modal_bbox [stale_dialog; open_dialog] = modal_bbox [open_dialog].
Proof.
  apply (hidden_first_match_blinds stale_dialog [open_dialog]).
  - intros el s [<-|[]] Hs. exact Hs.
  - reflexivity.
Defined.

(** On a page whose document is the same for the detection script
    and the bounding-box script, [try_capture_modal_only] never gives up
    for want of a box: when detection answers false it returns None
    after that one evaluation; when it answers true, the box evaluation
    returns a box wider and taller than 50 pixels, the scroll to the box
    follows, and None is returned only after a screenshot that raised. *)
Theorem static_document_capture (d : Document) (rest : Env) (v : Viewport)
    (out_path : string) (h : History) :
  let run := try_capture_modal_only (document_page d rest) v out_path h in
  if find_any_modal d then
    exists b t o,
      modal_bbox d = Some b
      /\ (50 < box_width b)%Z /\ (50 < box_height b)%Z
      /\ snd run
         = (t ++ [(v, Evaluate (ScrollToArg (Z.max 0 (box_y b - 20))), o);
                  (v, Evaluate ModalBbox, Returns (VBox b));
                  (v, Evaluate FindAnyModal, Returns (VBool true))] ++ h)%list
      /\ (fst run = Done None ->
          exists e x,
            t = [(v, Screenshot out_path false (Some b), Raises e);
                 (v, WaitForTimeout 100, Returns x)])
  else
    run = (Done None, [(v, Evaluate FindAnyModal, Returns (VBool false))] ++ h)%list.
Proof.
  cbv zeta.
  destruct (find_any_modal d) eqn:Hf.
  - destruct (detection_box d Hf) as (b & Hb & Hw & Hh & _).
    exists b.
    cbv [try_capture_modal_only bind call evaluate try_except ret raise
         document_page bbox_value].
    rewrite Hf, Hb. cbn [truthy negb].
    destruct (rest _ v (Evaluate (ScrollToArg _))) as [x1|e1] eqn:H1.
    + destruct (rest _ v (WaitForTimeout 100)) as [x2|e2] eqn:H2.
      * destruct (rest _ v (Screenshot _ _ _)) as [x3|e3] eqn:H3.
        -- eexists [_; _], _. cbn [fst snd]. cbn.
           repeat split; try done.
        -- eexists [_; _], _. cbn [fst snd]. cbn.
           repeat split; try done. intros _. by do 2 eexists.
      * eexists [_], _. cbn [fst snd]. cbn.
        repeat split; try done.
    + eexists [], _. cbn [fst snd]. cbn.
      repeat split; try done.
  - cbv [try_capture_modal_only bind call evaluate try_except ret raise
         document_page].
    rewrite Hf. reflexivity.
Qed.

End ModalFacts.

(** ** Reading back a written list *)

Lemma re_split_runs_token (p : ascii -> bool) (t : string) :
  all_chars (fun c => negb (p c)) t = true -> re_split_runs p false t = [t].
Proof.
  induction t as [|c t IH]; [done|]. cbn [all_chars re_split_runs].
  intros [Hc Ht]%andb_prop. apply negb_true_iff in Hc. rewrite Hc, (IH Ht).
  reflexivity.
Qed.

Lemma url_token_alone (t : string) :
  url_token t = true -> parse_url_list_file t = [t].
Proof.
  unfold url_token. intros [[Hne Hall]%andb_prop Hc]%andb_prop.
  rewrite parse_url_list_file_tokens. unfold tokens_of.
  rewrite (re_split_runs_token _ _ Hall). cbn [List.filter].
  unfold nonempty. rewrite Hne. cbn [List.filter].
  unfold not_comment. by rewrite Hc.
Qed.

Lemma join_cons2 (d x y : string) (l : list string) :
  join d (x :: y :: l) = x +:+ d +:+ join d (y :: l).
Proof. reflexivity. Qed.

Lemma url_list_lines (sep : ascii) (lines : list string) :
  is_separator sep = true ->
  Forall (fun t => url_token t = true) lines ->
  parse_url_list_file (join (String sep "") lines) = lines.
Proof.
  intros Hsep Hall. induction Hall as [|x l Hx Hl IH]; [reflexivity|].
  destruct l as [|y l]; [by apply url_token_alone|].
  rewrite join_cons2.
  change (x +:+ String sep "" +:+ join (String sep "") (y :: l))
    with (x +:+ String sep (join (String sep "") (y :: l))).
  by rewrite (url_list_app _ _ _ Hsep), IH, (url_token_alone x Hx).
Qed.

(** A list of URLs written one after the other with a separator character
    between them (a line feed, a space, a comma, ...) is read back by
    [parse_url_list_file] as it was written, when every URL is non-empty,
    holds no separator character and does not start with [#]. *)
Theorem url_list_round_trip (sep : ascii) (lines : list string)
    (Hsep : is_separator sep = true)
    (Hlines : Forall (fun t => url_token t = true) lines) :
  parse_url_list_file (join (String sep "") lines) = lines.
Proof. by apply url_list_lines. Qed.

Lemma url_list_round_trip_witness :
  parse_url_list_file
    (join (String LF "") ["https://a.com/x"; "b.com/y?q=1#top"; "c.com"])
  = ["https://a.com/x"; "b.com/y?q=1#top"; "c.com"].
Proof.
  apply (url_list_round_trip LF
           ["https://a.com/x"; "b.com/y?q=1#top"; "c.com"]).
  - reflexivity.
  - repeat constructor.
Defined.

Section Lines.
Implicit Types (p q : ascii -> bool) (s : string) (c : ascii).

Lemma rstrip_idem p s : rstrip_by p (rstrip_by p s) = rstrip_by p s.
Proof.
  induction s as [|c s IH]; [done|]. cbn [rstrip_by].
  destruct (rstrip_by p s) as [|e r] eqn:Hr.
  - destruct (p c) eqn:Hc; [done|]. cbn. by rewrite Hc.
  - cbn [rstrip_by] in *. by rewrite IH.
Qed.

Lemma rstrip_app_fixed p a b :
  is_empty b = false -> rstrip_by p b = b ->
  rstrip_by p (a +:+ b) = a +:+ b.
Proof.
  intros Hne Hb. induction a as [|c a IH]; [exact Hb|].
  change (String c a +:+ b) with (String c (a +:+ b)).
  cbn [rstrip_by]. rewrite IH.
  destruct (a +:+ b) eqn:Hab; [|done].
  assert (is_empty (a +:+ b) = true) as He by (by rewrite Hab).
  rewrite is_empty_app, Hne, andb_false_r in He. discriminate.
Qed.

Lemma stripped_line s :
  is_empty s = false -> strip s = s ->
  match s with "" => True | String c _ => is_space c = false end
  /\ rstrip_by is_space s = s.
Proof.
  intros Hne Hs. unfold strip, strip_by in Hs. split.
  - rewrite <- Hs. apply rstrip_first, lstrip_first.
  - rewrite <- Hs at 1. rewrite rstrip_idem. exact Hs.
Qed.

Lemma split_on_line d s :
  all_chars (fun c => negb (is_char d c)) s = true -> split_on d s = [s].
Proof.
  induction s as [|c s IH]; [done|]. cbn [all_chars split_on].
  intros [Hc Hs]%andb_prop. apply negb_true_iff in Hc. by rewrite Hc, (IH Hs).
Qed.

Lemma split_on_app d a b :
  all_chars (fun c => negb (is_char d c)) a = true ->
  split_on d (a +:+ String d b) = a :: split_on d b.
Proof.
  induction a as [|c a IH].
  - intros _. change ("" +:+ String d b) with (String d b).
    cbn [split_on]. unfold is_char. by rewrite Ascii.eqb_refl.
  - cbn [all_chars]. intros [Hc Ha]%andb_prop. apply negb_true_iff in Hc.
    change (String c a +:+ String d b) with (String c (a +:+ String d b)).
    cbn [split_on]. by rewrite Hc, (IH Ha).
Qed.

Lemma split_on_join d (l : list string) :
  l <> [] ->
  Forall (fun s => all_chars (fun c => negb (is_char d c)) s = true) l ->
  split_on d (join (String d "") l) = l.
Proof.
  intros Hne Hall. induction Hall as [|x l Hx Hl IH]; [done|].
  destruct l as [|y l]; [by apply split_on_line|].
  rewrite join_cons2.
  change (x +:+ String d "" +:+ join (String d "") (y :: l))
    with (x +:+ String d (join (String d "") (y :: l))).
  by rewrite (split_on_app _ _ _ Hx), IH.
Qed.

Lemma all_chars_join q d (l : list string) :
  q d = true ->
  Forall (fun s => all_chars q s = true) l ->
  all_chars q (join (String d "") l) = true.
Proof.
  intros Hd Hall. induction Hall as [|x l Hx Hl IH]; [done|].
  destruct l as [|y l]; [exact Hx|].
  rewrite join_cons2, !all_chars_app, Hx, IH. cbn. by rewrite Hd.
Qed.

Lemma replace_cr_id s :
  all_chars (fun c => negb (is_char CR c)) s = true -> replace_cr s = s.
Proof.
  induction s as [|c s IH]; [done|]. cbn [all_chars replace_cr].
  intros [Hc Hs]%andb_prop. apply negb_true_iff in Hc. by rewrite Hc, (IH Hs).
Qed.

Lemma replace_crlf_id s :
  all_chars (fun c => negb (is_char CR c)) s = true -> replace_crlf s = s.
Proof.
  induction s as [|c s IH]; [done|]. intros H.
  destruct s as [|d s]; [done|]. rewrite replace_crlf_cons2.
  cbn [all_chars] in H. apply andb_prop in H as [Hc Hs].
  apply negb_true_iff in Hc. rewrite Hc. cbn [andb]. by rewrite (IH Hs).
Qed.

Lemma join_first (d : string) (x : string) (l : list string) :
  is_empty x = false ->
  match join d (x :: l), x with
  | String a _, String b _ => a = b
  | _, _ => False
  end.
Proof.
  intros Hx. destruct x as [|b x]; [done|].
  destruct l as [|y l]; [done|]. by rewrite join_cons2.
Qed.

End Lines.

Lemma boundary_free_cr (c : ascii) :
  negb (line_boundary c) = true -> negb (is_char CR c) = true.
Proof.
  unfold is_char. destruct (Ascii.eqb c CR) eqn:Hc; [|done].
  apply Ascii.eqb_eq in Hc. by subst c.
Qed.

Lemma boundary_free_lf (c : ascii) :
  negb (line_boundary c) = true -> negb (is_char LF c) = true.
Proof.
  unfold is_char. destruct (Ascii.eqb c LF) eqn:Hc; [|done].
  apply Ascii.eqb_eq in Hc. by subst c.
Qed.

Lemma plain_line_facts (l : string) :
  plain_line l = true ->
  is_empty l = false /\ strip l = l
  /\ all_chars (fun c => negb (line_boundary c)) l = true
  /\ keep_token l = true.
Proof.
  unfold plain_line, keep_token.
  intros [[[Hne Hs]%andb_prop Hb]%andb_prop Hc]%andb_prop.
  apply String.eqb_eq in Hs. rewrite Hne, Hc.
  apply negb_true_iff in Hne. done.
Qed.

Lemma rstrip_join (lines : list string) :
  Forall (fun l => plain_line l = true) lines ->
  rstrip_by is_space (join (String LF "") lines) = join (String LF "") lines.
Proof.
  intros Hall. induction Hall as [|y l Hy Hl IH]; [reflexivity|].
  destruct (plain_line_facts y Hy) as (Hne & Hs & _).
  destruct (stripped_line y Hne Hs) as [_ Hr].
  destruct l as [|z l]; [exact Hr|].
  rewrite join_cons2, <- append_assoc.
  apply rstrip_app_fixed; [|exact IH].
  inversion Hl as [|? ? Hz _]; subst.
  destruct (plain_line_facts z Hz) as (Hz' & _).
  pose proof (join_first (String LF "") z l Hz') as Hj.
  by destruct (join (String LF "") (z :: l)).
Qed.

Lemma stripped_join (lines : list string) :
  Forall (fun l => plain_line l = true) lines ->
  strip (join (String LF "") lines) = join (String LF "") lines.
Proof.
  intros Hall. unfold strip, strip_by.
  rewrite lstrip_id; [by apply rstrip_join|].
  destruct lines as [|x l]; [done|].
  assert (Hx : plain_line x = true) by (by inversion Hall).
  destruct (plain_line_facts x Hx) as (Hne & Hs & _).
  destruct (stripped_line x Hne Hs) as [Hfirst _].
  pose proof (join_first (String LF "") x l Hne) as Hj.
  destruct (join (String LF "") (x :: l)) as [|a r]; [done|].
  destruct x as [|b x]; [done|]. by subst a.
Qed.

Lemma sitemap_lines (lines : list string) :
  Forall (fun l => plain_line l = true) lines ->
  sitemap_plain_fallback (join (String LF "") lines) = lines.
Proof.
  intros Hall. unfold sitemap_plain_fallback.
  rewrite (stripped_join lines Hall).
  assert (Hb : Forall (fun l => all_chars (fun c => negb (line_boundary c)) l
                                = true) lines).
  { eapply Forall_impl; [exact Hall|]. intros l Hl.
    by destruct (plain_line_facts l Hl) as (_ & _ & ? & _). }
  assert (Hcr : all_chars (fun c => negb (is_char CR c))
                  (join (String LF "") lines) = true).
  { apply all_chars_join; [reflexivity|].
    eapply Forall_impl; [exact Hb|]. intros l Hl.
    eapply all_chars_impl; [|exact Hl]. apply boundary_free_cr. }
  rewrite (replace_crlf_id _ Hcr), (replace_cr_id _ Hcr).
  destruct lines as [|x l]; [reflexivity|].
  rewrite split_on_join; [|done|].
  2:{ eapply Forall_impl; [exact Hb|]. intros y Hy.
      eapply all_chars_impl; [|exact Hy]. apply boundary_free_lf. }
  clear Hb Hcr. induction Hall as [|y l' Hy Hl IH]; [reflexivity|].
  destruct (plain_line_facts y Hy) as (_ & Hs & _ & Hk).
  cbn [List.map List.filter]. by rewrite Hs, Hk, IH.
Qed.

(** Lines written one per line are read back by the plain-text fallback of
    [parse_sitemap_file] as they were written, spaces inside a line
    included, when every line is non-empty, has no whitespace at either
    end, holds no line boundary and does not start with [#]. *)
Theorem sitemap_fallback_round_trip (lines : list string)
    (Hlines : Forall (fun l => plain_line l = true) lines) :
  sitemap_plain_fallback (join (String LF "") lines) = lines.
Proof. by apply sitemap_lines. Qed.

Lemma sitemap_fallback_round_trip_witness :
  sitemap_plain_fallback
    (join (String LF "") ["https://a.com/x"; "b.com/my page"; "c.com"])
  = ["https://a.com/x"; "b.com/my page"; "c.com"].
Proof.
  apply (sitemap_fallback_round_trip
           ["https://a.com/x"; "b.com/my page"; "c.com"]).
  repeat constructor.
Defined.

(** ** The settle loop on any page *)

Lemma scroll_positions_app (v : Viewport) (t1 t2 : list Event) :
  scroll_positions v (t2 ++ t1)
  = (scroll_positions v t1 ++ scroll_positions v t2)%list.
Proof. unfold scroll_positions. by rewrite rev_app_distr, flat_map_app. Qed.

Lemma heights_read_app (v : Viewport) (t1 t2 : list Event) :
  heights_read v (t2 ++ t1) = (heights_read v t1 ++ heights_read v t2)%list.
Proof. unfold heights_read. by rewrite rev_app_distr, flat_map_app. Qed.

Lemma scroll_loop_done (env : Env) (v : Viewport) (step pause : Z) :
  forall fuel y h h',
    scroll_loop env fuel v step pause y h = (Done tt, h') ->
    exists t n,
      h' = (t ++ h)%list /\ n < fuel
      /\ length t = 3 * S n
      /\ scroll_positions v t
         = List.map (fun k => y + step * Z.of_nat k)%Z (seq 0 (S n))
      /\ length (heights_read v t) = S n
      /\ (forall k, k < n ->
            (y + step * Z.of_nat k < nth k (heights_read v t) 0)%Z)
      /\ (nth n (heights_read v t) 0 <= y + step * Z.of_nat n)%Z.
Proof.
  induction fuel as [|fuel IH]; intros y h h' Hrun; [discriminate Hrun|].
  cbn [scroll_loop] in Hrun.
  cbv [bind evaluate call ret raise] in Hrun.
  destruct (env h v (Evaluate (ScrollTo y))) as [x1|] eqn:E1;
    [|discriminate Hrun].
  destruct (env _ v (WaitForTimeout pause)) as [x2|] eqn:E2;
    [|discriminate Hrun].
  destruct (env _ v (Evaluate ScrollHeight)) as [x3|] eqn:E3;
    [|discriminate Hrun].
  destruct (as_number x3) as [n0|] eqn:En; [|discriminate Hrun].
  assert (Hp : scroll_positions v
                 [(v, Evaluate ScrollHeight, Returns x3);
                  (v, WaitForTimeout pause, Returns x2);
                  (v, Evaluate (ScrollTo y), Returns x1)] = [y]).
  { unfold scroll_positions. cbn. by rewrite viewport_eqb_refl. }
  assert (Hh : heights_read v
                 [(v, Evaluate ScrollHeight, Returns x3);
                  (v, WaitForTimeout pause, Returns x2);
                  (v, Evaluate (ScrollTo y), Returns x1)] = [n0]).
  { unfold heights_read. cbn. by rewrite viewport_eqb_refl, En. }
  destruct (y >=? n0)%Z eqn:Hy.
  - injection Hrun as <-.
    exists [(v, Evaluate ScrollHeight, Returns x3);
            (v, WaitForTimeout pause, Returns x2);
            (v, Evaluate (ScrollTo y), Returns x1)], 0.
    rewrite Hp, Hh. cbn [seq List.map length nth].
    split; [reflexivity|]. split; [lia|]. split; [reflexivity|].
    split; [f_equal; lia|]. split; [reflexivity|].
    split; [intros k Hk; lia|]. apply Z.geb_le in Hy. lia.
  - apply IH in Hrun
      as (t & n & -> & Hn & Hlen & Hpos & Hhs & Hlt & Hle).
    exists (t ++ [(v, Evaluate ScrollHeight, Returns x3);
                  (v, WaitForTimeout pause, Returns x2);
                  (v, Evaluate (ScrollTo y), Returns x1)])%list, (S n).
    rewrite scroll_positions_app, heights_read_app, Hp, Hh, Hpos.
    split; [by rewrite <- app_assoc|]. split; [lia|].
    split; [rewrite length_app, Hlen; cbn [length]; lia|].
    split.
    { change (seq 0 (S (S n))) with (0 :: seq 1 (S n)).
      rewrite <- (seq_shift (S n) 0). cbn [List.map app].
      rewrite List.map_map.
      f_equal; [lia|]. apply List.map_ext. intros k. lia. }
    split; [cbn [app length]; by rewrite Hhs|].
    assert (y < n0)%Z as Hy'
      by (rewrite Z.geb_leb in Hy; apply Z.leb_gt in Hy; lia).
    split.
    + intros [|k] Hk; cbn [app nth]; [lia|].
      specialize (Hlt k ltac:(lia)). lia.
    + cbn [app nth]. lia.
Qed.

(** On any page, a settle loop that completes has scrolled to 0, 800,
    ..., 800 n in that order and nowhere else, has read a height above
    the position after each scroll but the last and a height at most
    800 n after the last, and has ended with the pause of 200 ms; with
    the three calls of each iteration that makes 3 (n + 1) + 1 calls. *)
Theorem progressive_scroll_positions (env : Env) (fuel : nat) (v : Viewport)
    (h h' : History)
    (Hrun : progressive_scroll env fuel v h = (Done tt, h')) :
  exists t n x,
    h' = ((v, WaitForTimeout 200, Returns x) :: t ++ h)%list
    /\ n < fuel
    /\ length t = 3 * S n
    /\ scroll_positions v t
       = List.map (fun k => 800 * Z.of_nat k)%Z (seq 0 (S n))
    /\ length (heights_read v t) = S n
    /\ (forall k, k < n ->
          (800 * Z.of_nat k < nth k (heights_read v t) 0)%Z)
    /\ (nth n (heights_read v t) 0 <= 800 * Z.of_nat n)%Z.
Proof.
  unfold progressive_scroll in Hrun. cbv [bind] in Hrun.
  destruct (scroll_loop env fuel v 800 150 0 h) as [[[]| |] h1] eqn:Hloop;
    try discriminate Hrun.
  apply scroll_loop_done in Hloop
    as (t & n & -> & Hn & Hlen & Hpos & Hhs & Hlt & Hle).
  cbv [call ret] in Hrun.
  destruct (env (t ++ h)%list v (WaitForTimeout 200)) as [x|] eqn:Ew;
    [|discriminate Hrun].
  injection Hrun as <-. exists t, n, x.
  split; [reflexivity|]. split; [exact Hn|]. split; [exact Hlen|].
  split; [exact Hpos|]. split; [exact Hhs|]. split; [exact Hlt|exact Hle].
Qed.

Lemma progressive_scroll_positions_witness :
  exists t n x,
    snd (progressive_scroll page_with_modal 5 Desktop [])
    = ((Desktop, WaitForTimeout 200, Returns x) :: t ++ [])%list
    /\ n < 5
    /\ length t = 3 * S n
    /\ scroll_positions Desktop t
       = List.map (fun k => 800 * Z.of_nat k)%Z (seq 0 (S n))
    /\ length (heights_read Desktop t) = S n
    /\ (forall k, k < n ->
          (800 * Z.of_nat k < nth k (heights_read Desktop t) 0)%Z)
    /\ (nth n (heights_read Desktop t) 0 <= 800 * Z.of_nat n)%Z.
Proof.
  apply (progressive_scroll_positions page_with_modal 5 Desktop []).
  vm_compute. reflexivity.
Defined.
